(** * Interlocking microstructure generator (CuraEngine)

    A shallow embedding of [src/utils/VoxelUtils.h] and
    [src/InterlockingGenerator.cpp], and the properties of the
    interlocking specification stated over it.

    Conventions of the embedding.
    - [coord_t] is a signed 64-bit integer: a [Z] with the wrap-around
      [wrap64] written at every arithmetic result.  C++ leaves signed
      overflow undefined; the embedding takes the two's-complement result,
      and every statement below that depends on it says so.
    - Integer division is C++ division, truncating toward zero ([Z.quot]).
      Division by zero, the quotient [INT64_MIN / -1] and an index
      outside a [std::vector] are undefined behaviour: the embedded
      function returns [None] there.
    - The size of a [std::vector] and a [size_t] counter that runs below
      one are natural numbers.  Where a [coord_t] meets an unsigned type
      the conversion is written out ([wrapu64], [wrapu32]); the
      [unsigned int] layer counter of the stamping loop wraps at 2^32.
    - A reference to a mesh is passed as the mesh and returned rewritten;
      the entry point keeps the meshes in a store, behind the pointers of
      [volumes]. *)

From Stdlib Require Import ZArith QArith Lia Lqa List Bool.
From stdpp Require Import base option numbers list countable gmap sets.

Local Open Scope Z_scope.

#[local] Set Warnings "-clear-no-such-hyp".

(** ** Machine integers *)

Module Int.

Definition int64_min : Z := - 2 ^ 63.
Definition int64_max : Z := 2 ^ 63 - 1.

(** Two's-complement reduction to the signed 64-bit range. *)
Definition wrap64 (v : Z) : Z := (v + 2 ^ 63) mod 2 ^ 64 - 2 ^ 63.

(** Reduction to [size_t] (64 bits) and to [unsigned int] (32 bits). *)
Definition wrapu64 (v : Z) : Z := v mod 2 ^ 64.
Definition wrapu32 (v : Z) : Z := v mod 2 ^ 32.

Definition in_int64 (v : Z) : Prop := int64_min <= v <= int64_max.

(** [a / b] on [coord_t]: undefined for the divisor zero and for the one
    quotient that is no [coord_t], [INT64_MIN / -1]. *)
Definition cdiv (a b : Z) : option Z :=
  if (b =? 0) || ((a =? int64_min) && (b =? -1)) then None
  else Some (wrap64 (Z.quot a b)).

(** A C++ [bool] promoted to an integer. *)
Definition b2z (b : bool) : Z := if b then 1 else 0.

End Int.

Import Int.

(** ** Points *)

(** [Point3]: three [coord_t] members.  [GridPoint3] is the same class
    ([using GridPoint3 = Point3;]). *)
Record Point3 : Type := mkPoint3 { p3x : Z; p3y : Z; p3z : Z }.

Definition GridPoint3 : Type := Point3.

#[global] Instance Point3_eq_dec : EqDecision Point3.
Proof. solve_decision. Defined.

#[global] Instance Point3_countable : Countable Point3 :=
  inj_countable'
    (fun p => (p3x p, p3y p, p3z p))
    (fun t => mkPoint3 t.1.1 t.1.2 t.2)
    (fun p => match p with mkPoint3 _ _ _ => eq_refl end).

(** [Point3::operator[]], with the [assert(dim < 3)] of its callers. *)
Definition p3_index (p : Point3) (dim : nat) : option Z :=
  match dim with
  | 0%nat => Some (p3x p)
  | 1%nat => Some (p3y p)
  | 2%nat => Some (p3z p)
  | _ => None
  end.

(** ** VoxelUtils *)

Record VoxelUtils : Type := mkVoxelUtils { cell_size : Point3 }.

Section VoxelUtilsOps.

Variable vu : VoxelUtils.

(** [return coord / cell_size[dim] - (coord < 0);] *)
Definition toGridCoord (coord : Z) (dim : nat) : option Z :=
  cs ← p3_index (cell_size vu) dim;
  q ← cdiv coord cs;
  Some (wrap64 (q - b2z (coord <? 0))).

(** [return grid_coord * cell_size[dim];] *)
Definition toLowerCoord (grid_coord : Z) (dim : nat) : option Z :=
  cs ← p3_index (cell_size vu) dim;
  Some (wrap64 (grid_coord * cs)).

Definition toGridPoint (point : Point3) : option GridPoint3 :=
  gx ← toGridCoord (p3x point) 0;
  gy ← toGridCoord (p3y point) 1;
  gz ← toGridCoord (p3z point) 2;
  Some (mkPoint3 gx gy gz).

Definition toLowerCorner (location : GridPoint3) : option Point3 :=
  lx ← toLowerCoord (p3x location) 0;
  ly ← toLowerCoord (p3y location) 1;
  lz ← toLowerCoord (p3z location) 2;
  Some (mkPoint3 lx ly lz).

End VoxelUtilsOps.

(** Componentwise order and sum of points, and the points whose
    components are [coord_t] values above the least one. *)
Definition p3_le (a b : Point3) : Prop :=
  p3x a <= p3x b /\ p3y a <= p3y b /\ p3z a <= p3z b.

Definition p3_plus (a b : Point3) : Point3 :=
  mkPoint3 (p3x a + p3x b) (p3y a + p3y b) (p3z a + p3z b).

Definition p3_positive (a : Point3) : Prop :=
  0 < p3x a /\ 0 < p3y a /\ 0 < p3z a.

Definition coord_ok (c : Z) : Prop := int64_min < c <= int64_max.

Definition p3_coord_ok (a : Point3) : Prop :=
  coord_ok (p3x a) /\ coord_ok (p3y a) /\ coord_ok (p3z a).

(** A coordinate with two cells of room above the least [coord_t] and one
    below the greatest: no product or sum of the grid mapping around it
    overflows. *)
Definition coord_roomy (cs c : Z) : Prop :=
  int64_min + 2 * cs <= c <= int64_max - cs.

Definition p3_roomy (cs p : Point3) : Prop :=
  coord_roomy (p3x cs) (p3x p) /\ coord_roomy (p3y cs) (p3y p)
  /\ coord_roomy (p3z cs) (p3z p).

(** What [toGridCoord] is short of the floor: one on the negative
    multiples of the cell size. *)
Definition floor_shortfall (c cs : Z) : Z :=
  if (c <? 0) && (c mod cs =? 0) then 1 else 0.

(** ** Polygons as the code holds them *)

(** [Point] is ClipperLib's [IntPoint]: two [coord_t] members. *)
Record Point : Type := mkPoint { X : Z; Y : Z }.

#[global] Instance Point_eq_dec : EqDecision Point.
Proof. solve_decision. Defined.

(** [operator+] on points. *)
Definition point_add (a b : Point) : Point :=
  mkPoint (wrap64 (X a + X b)) (wrap64 (Y a + Y b)).

(** [std::swap(p.X, p.Y)] *)
Definition swap_XY (p : Point) : Point := mkPoint (Y p) (X p).

(** A polygon is its vertex sequence with an implicit closing edge, and
    [Polygons] a sequence of polygons. *)
Definition Polygon : Type := list Point.
Definition Polygons : Type := list Polygon.

(** [VoxelUtils::toPolygon]: the square of a cell, from its lower
    corner. *)
Definition toPolygon (vu : VoxelUtils) (p : GridPoint3) : option Polygon :=
  c ← toLowerCorner vu p;
  let cs := cell_size vu in
  Some [ mkPoint (p3x c) (p3y c);
         mkPoint (wrap64 (p3x c + p3x cs)) (p3y c);
         mkPoint (wrap64 (p3x c + p3x cs)) (wrap64 (p3y c + p3y cs));
         mkPoint (p3x c) (wrap64 (p3y c + p3y cs)) ].

(** Modelled from the spec: the vertex-level operations of the polygon
    library ([utils/polygon.h] is not part of the sources at hand):
    [add] appends the polygons of another set, [translate] moves every
    vertex by a vector. *)
Definition add (ps other : Polygons) : Polygons := ps ++ other.

Definition translate (ps : Polygons) (v : Point) : Polygons :=
  map (map (fun p => point_add p v)) ps.

(** ** The collaborators of the generator

    The polygon clipping engine, the rotation matrix, the voxel walkers
    of [VoxelUtils.cpp] and the bounding boxes of the meshes are outside
    the sources at hand.  They are the fields of one interface; the
    generator is embedded over an arbitrary implementation of it. *)

Inductive KernelType : Type := CUBE | DIAMOND | PRISM.

Record DilationKernel : Type := mkDilationKernel {
  kernel_size : GridPoint3;
  kernel_type : KernelType;
  relative_cells : list GridPoint3
}.

Class Library : Type := {
  (** rotation matrices *)
  PointMatrix : Type;
  PointMatrix_of_degrees : Q -> PointMatrix;
  PointMatrix_inverse : PointMatrix -> PointMatrix;
  applyMatrix : Polygons -> PointMatrix -> Polygons;
  (** clipping: [p.unionPolygons()], [p.unionPolygons(q)],
      [p.intersection(q)], [p.difference(q)], [p.xorPolygons(q)],
      [p.offset(d)] *)
  unionPolygons_self : Polygons -> Polygons;
  unionPolygons : Polygons -> Polygons -> Polygons;
  intersection : Polygons -> Polygons -> Polygons;
  difference : Polygons -> Polygons -> Polygons;
  xorPolygons : Polygons -> Polygons -> Polygons;
  offset : Polygons -> Z -> Polygons;
  (** the constructor of [DilationKernel], which fills [relative_cells] *)
  DilationKernel_new : GridPoint3 -> KernelType -> DilationKernel;
  (** the walkers, as the sequence of cells they hand to a visitor that
      always answers [true] (the only visitor the generator passes) *)
  walkDilatedPolygons :
    VoxelUtils -> Polygons -> Z -> DilationKernel -> list GridPoint3;
  walkDilatedAreas :
    VoxelUtils -> Polygons -> Z -> DilationKernel -> list GridPoint3;
  (** bounding boxes: [box.offset(d)] and [box.hit(other)] *)
  AABB3D : Type;
  AABB3D_offset : AABB3D -> Z -> AABB3D;
  AABB3D_hit : AABB3D -> AABB3D -> bool
}.

(** ** Loops *)

(** The state of a loop after one run of its body. *)
Inductive loop_ctl (S : Type) : Type :=
| Continue (s : S)
| Break (s : S).
Arguments Continue {S} s.
Arguments Break {S} s.

(** [for (i = first; i < first + count; i++) body], where the body may
    [break] and may run into undefined behaviour ([None]). *)
Fixpoint for_range {S : Type} (count : nat) (first : nat)
    (body : nat -> S -> option (loop_ctl S)) (s : S) : option S :=
  match count with
  | O => Some s
  | Datatypes.S count' =>
      match body first s with
      | None => None
      | Some (Break s') => Some s'
      | Some (Continue s') => for_range count' (Datatypes.S first) body s'
      end
  end.

(** A range-[for] over the elements of a container. *)
Fixpoint for_each {A S : Type} (l : list A)
    (body : A -> S -> option S) (s : S) : option S :=
  match l with
  | [] => Some s
  | x :: l' => s' ← body x s; for_each l' body s'
  end.

(** [v[i]] on a [std::vector], undefined outside its size, and the
    assignment [v[i] = x]. *)
Definition at_index {A : Type} (v : list A) (i : nat) : option A := v !! i.

Definition set_index {A : Type} (v : list A) (i : nat) (x : A)
    : option (list A) :=
  if decide (i < length v)%nat then Some (<[i := x]> v) else None.

(** The shape of a loop body that rewrites slot [k] of a vector with
    [f k], the same body behind the guard [if (k >= v.size()) break;],
    and what such a loop has done to the slots [first .. first + count):
    [r] is [l] with those slots rewritten. *)
Definition rewrite_slot {A : Type} (f : nat -> A -> option A)
    (k : nat) (st : list A) : option (loop_ctl (list A)) :=
  x ← at_index st k; y ← f k x; st' ← set_index st k y; Some (Continue st').

Definition guarded_rewrite_slot {A : Type} (f : nat -> A -> option A)
    (k : nat) (st : list A) : option (loop_ctl (list A)) :=
  if decide (length st <= k)%nat then Some (Break st) else rewrite_slot f k st.

Definition slots_rewritten {A : Type} (f : nat -> A -> option A)
    (first count : nat) (l r : list A) : Prop :=
  length r = length l
  /\ forall k, r !! k = if decide (first <= k < first + count)%nat
                        then l !! k ≫= f k else l !! k.

(** Unsigned division and remainder. *)
Definition udiv (a b : Z) : option Z :=
  if b =? 0 then None else Some (a / b).

Definition umod (a b : Z) : option Z :=
  if b =? 0 then None else Some (a mod b).

(** ** Sliced meshes *)

Section Generator.

Context `{L : Library}.

Record Mesh : Type := mkMesh {
  (** [settings.get<ExtruderTrain&>("wall_0_extruder_nr")
        .settings.get<size_t>("extruder_nr")] *)
  wall_0_extruder_nr : Z;
  (** [settings.get<coord_t>("wall_line_width_0")] *)
  wall_line_width_0 : Z;
  getAABB : AABB3D
}.

Record SlicerLayer : Type := mkSlicerLayer {
  z : Z;
  polygons : Polygons
}.

Record Slicer : Type := mkSlicer {
  mesh : Mesh;
  layers : list SlicerLayer
}.

Definition set_polygons (layer : SlicerLayer) (ps : Polygons) : SlicerLayer :=
  mkSlicerLayer (z layer) ps.

Definition set_layers (m : Slicer) (ls : list SlicerLayer) : Slicer :=
  mkSlicer (mesh m) ls.

(** ** The generator for one pair of meshes

    The members of [InterlockingGenerator] that [InterlockingGenerator.cpp]
    uses.  The two meshes are references to objects the generator rewrites:
    the embedded member functions take them as arguments and return the
    rewritten pair.  The two references are to different objects: the
    entry point passes two meshes with different extruder numbers. *)

Record InterlockingGenerator : Type := mkInterlockingGenerator {
  beam_widths : Z * Z;
  vu : VoxelUtils;
  rotation : PointMatrix;
  gen_cell_size : Point3;
  beam_layer_count : Z;
  interface_dilation : DilationKernel;
  air_dilation : DilationKernel;
  air_filtering : bool
}.

(** [static const coord_t ignored_gap = 100u;] *)
Definition ignored_gap : Z := 100.

Section Members.

Variable gen : InterlockingGenerator.

(** [addBoundaryCells]: the cells of the outlines of every layer and of
    the skin between a layer and the one below, added to [cells]. *)
Definition addBoundaryCells (layer_polys : list Polygons)
    (kernel : DilationKernel) (cells : gset GridPoint3)
    : option (gset GridPoint3) :=
  for_range (length layer_polys) 0 (fun layer_nr cells =>
    let z := Z.of_nat layer_nr in
    here ← at_index layer_polys layer_nr;
    let cells := cells ∪ list_to_set (walkDilatedPolygons (vu gen) here z kernel) in
    skin ← (if decide (0 < layer_nr)%nat
            then below ← at_index layer_polys (layer_nr - 1);
                 Some (xorPolygons here below)
            else Some here);
    let cx := p3x (gen_cell_size gen) in
    half_neg ← cdiv (wrap64 (- cx)) 2;
    half ← cdiv cx 2;
    let skin := offset (offset skin half_neg) half in
    Some (Continue (cells ∪ list_to_set (walkDilatedAreas (vu gen) skin z kernel))))
    cells.

(** The inner loop of [getShellVoxels]: the rotated copy of every layer. *)
Definition rotated_polygons_per_layer (m : Slicer) : list Polygons :=
  map (fun layer => applyMatrix (polygons layer) (rotation gen)) (layers m).

(** [getShellVoxels]: the shell cells of mesh a and those of mesh b. *)
Definition getShellVoxels (mesh_a mesh_b : Slicer) (kernel : DilationKernel)
    : option (gset GridPoint3 * gset GridPoint3) :=
  voxels_a ← addBoundaryCells (rotated_polygons_per_layer mesh_a) kernel ∅;
  voxels_b ← addBoundaryCells (rotated_polygons_per_layer mesh_b) kernel ∅;
  Some (voxels_a, voxels_b).

(** [computeLayerRegions].  The loop over the two meshes leaves at the
    first mesh that has no layer [layer_nr] ([break]), so mesh b adds its
    outline only where mesh a has a layer too. *)
Definition computeLayerRegions (mesh_a mesh_b : Slicer) : list Polygons :=
  let max_layer_count := (length (layers mesh_a) `max` length (layers mesh_b) + 1)%nat in
  map (fun layer_nr =>
    let layer_region :=
      match layers mesh_a !! layer_nr with
      | None => []
      | Some layer_a =>
          match layers mesh_b !! layer_nr with
          | None => add [] (polygons layer_a)
          | Some layer_b => add (add [] (polygons layer_a)) (polygons layer_b)
          end
      end in
    let layer_region :=
      offset (offset layer_region ignored_gap) (wrap64 (- ignored_gap)) in
    applyMatrix layer_region (rotation gen))
    (seq 0 max_layer_count).

(** One template: the rectangle of mesh [mesh_idx] in the cell. *)
Definition template_rect (middle : Z) (mesh_idx : nat) : Polygons :=
  let cs := gen_cell_size gen in
  let width := match mesh_idx with O => middle | _ => wrap64 (p3x cs - middle) end in
  let offset := mkPoint (match mesh_idx with O => 0 | _ => middle end) 0 in
  let area_size := mkPoint width (p3y cs) in
  [ [ offset;
      point_add offset (mkPoint (X area_size) 0);
      point_add offset area_size;
      point_add offset (mkPoint 0 (Y area_size)) ] ].

(** [generateMicrostructure]: the table [cell_area_per_mesh_per_layer],
    indexed by the parity of the band and then by the mesh. *)
Definition generateMicrostructure : option (list (list Polygons)) :=
  let beam_w_sum := wrap64 ((beam_widths gen).1 + (beam_widths gen).2) in
  middle ← cdiv (wrap64 (p3x (gen_cell_size gen) * (beam_widths gen).1)) beam_w_sum;
  let even := [template_rect middle 0; template_rect middle 1] in
  let odd := map (map (map swap_XY)) even in
  Some [even; odd].

(** The layer loop of [applyMicrostructureToOutlines] for one cell and one
    mesh.  [layer_nr] is an [unsigned int]; the loop ends when the
    condition fails.  A loop that does not end within [fuel] rounds gives
    [None]; the caller passes [max_layer_count], which bounds the rounds
    whenever [layer_nr] grows in every round: it stays below
    [max_layer_count] as long as the loop runs. *)
Fixpoint stamp_beams (fuel : nat) (templates : list (list Polygons))
    (max_layer_count : nat) (mesh_idx : nat) (bottom_corner : Point3)
    (layer_nr : Z) (structure : list Polygons) : option (list Polygons) :=
  if (layer_nr <? wrap64 (p3z bottom_corner + p3z (gen_cell_size gen)))
     && (layer_nr <? Z.of_nat max_layer_count)
  then
    match fuel with
    | O => None
    | Datatypes.S fuel' =>
        band ← cdiv layer_nr (beam_layer_count gen);
        parity ← umod (wrapu64 band) (Z.of_nat (length templates));
        row ← at_index templates (Z.to_nat parity);
        areas_here ← at_index row mesh_idx;
        let areas_here :=
          translate areas_here (mkPoint (p3x bottom_corner) (p3y bottom_corner)) in
        slot ← at_index structure (Z.to_nat (wrapu64 band));
        structure ← set_index structure (Z.to_nat (wrapu64 band)) (add slot areas_here);
        stamp_beams fuel' templates max_layer_count mesh_idx bottom_corner
          (wrapu32 (layer_nr + beam_layer_count gen)) structure
    end
  else Some structure.

(** The first loop of [applyMicrostructureToOutlines]: every cell stamps
    the template of each mesh into the bands the cell spans. *)
Definition stamp_cells (templates : list (list Polygons))
    (max_layer_count : nat) (cells : list GridPoint3)
    (structure_per_layer : list Polygons * list Polygons)
    : option (list Polygons * list Polygons) :=
  for_each cells (fun grid_loc st =>
    bottom_corner ← toLowerCorner (vu gen) grid_loc;
    let fuel := max_layer_count in
    let first := wrapu32 (p3z bottom_corner) in
    s0 ← stamp_beams fuel templates max_layer_count 0 bottom_corner first st.1;
    s1 ← stamp_beams fuel templates max_layer_count 1 bottom_corner first st.2;
    Some (s0, s1))
    structure_per_layer.

(** The second loop, for one mesh: union, clip unless air filtering is
    on, rotate back. *)
Definition finish_structure (layer_regions : list Polygons)
    (structure : list Polygons) : option (list Polygons) :=
  let unapply_rotation := PointMatrix_inverse (rotation gen) in
  for_range (length structure) 0 (fun layer_nr st =>
    layer_structure ← at_index st layer_nr;
    let layer_structure := unionPolygons_self layer_structure in
    layer_structure ←
      (if negb (air_filtering gen)
       then layer_region ← at_index layer_regions layer_nr;
            Some (intersection layer_region layer_structure)
       else Some layer_structure);
    st ← set_index st layer_nr (applyMatrix layer_structure unapply_rotation);
    Some (Continue st))
    structure.

(** The third loop, for one mesh: [own] is [structure_per_layer[mesh_idx]]
    and [other] is [structure_per_layer[!mesh_idx]]. *)
Definition rewrite_layers (max_layer_count : nat)
    (own other : list Polygons) (m : Slicer) : option Slicer :=
  ls ← for_range max_layer_count 0 (fun layer_nr ls =>
    if decide (length ls <= layer_nr)%nat then Some (Break ls)
    else
      band ← udiv (Z.of_nat layer_nr) (wrapu64 (beam_layer_count gen));
      areas_here ← at_index own (Z.to_nat band);
      areas_other ← at_index other (Z.to_nat band);
      layer ← at_index ls layer_nr;
      ls ← set_index ls layer_nr
             (set_polygons layer
                (difference (unionPolygons (polygons layer) areas_here) areas_other));
      Some (Continue ls))
    (layers m);
  Some (set_layers m ls).

(** What the second loop leaves in band [band] when it finds the polygons
    [stamped] there, and what the third loop leaves in a layer. *)
Definition finished_band (layer_regions : list Polygons) (band : nat)
    (stamped : Polygons) : option Polygons :=
  let unapply_rotation := PointMatrix_inverse (rotation gen) in
  if air_filtering gen
  then Some (applyMatrix (unionPolygons_self stamped) unapply_rotation)
  else layer_region ← layer_regions !! band;
       Some (applyMatrix (intersection layer_region (unionPolygons_self stamped))
               unapply_rotation).

Definition rewritten_layer (own other : list Polygons) (layer_nr : nat)
    (layer : SlicerLayer) : option SlicerLayer :=
  band ← udiv (Z.of_nat layer_nr) (wrapu64 (beam_layer_count gen));
  areas_here ← own !! Z.to_nat band;
  areas_other ← other !! Z.to_nat band;
  Some (set_polygons layer
          (difference (unionPolygons (polygons layer) areas_here) areas_other)).

(** The number of bands when beams are two layers high:
    [(max_layer_count + 1) / beam_layer_count]. *)
Definition band_count (max_layer_count : nat) : nat :=
  Z.to_nat ((Z.of_nat max_layer_count + 1) / 2).

(** The shape [generateMicrostructure] gives its table: two parities,
    two meshes each. *)
Definition template_table_ok (templates : list (list Polygons)) : Prop :=
  length templates = 2%nat /\ Forall (fun row => length row = 2%nat) templates.

(** The structure of every band of both meshes before the union
    ([stamped_structures]) and as the third loop reads it
    ([band_structures]). *)
Definition stamped_structures (cells : gset GridPoint3)
    (templates : list (list Polygons)) (mesh_a mesh_b : Slicer)
    : option (list Polygons * list Polygons) :=
  let max_layer_count := (length (layers mesh_a) `max` length (layers mesh_b))%nat in
  bands ← udiv (Z.of_nat max_layer_count + 1) (wrapu64 (beam_layer_count gen));
  let empty := replicate (Z.to_nat bands) ([] : Polygons) in
  stamp_cells templates max_layer_count (elements cells) (empty, empty).

Definition band_structures (cells : gset GridPoint3)
    (templates : list (list Polygons)) (layer_regions : list Polygons)
    (mesh_a mesh_b : Slicer) : option (list Polygons * list Polygons) :=
  st ← stamped_structures cells templates mesh_a mesh_b;
  s0 ← finish_structure layer_regions st.1;
  s1 ← finish_structure layer_regions st.2;
  Some (s0, s1).

Definition applyMicrostructureToOutlines (cells : gset GridPoint3)
    (templates : list (list Polygons)) (layer_regions : list Polygons)
    (mesh_a mesh_b : Slicer) : option (Slicer * Slicer) :=
  let max_layer_count := (length (layers mesh_a) `max` length (layers mesh_b))%nat in
  st ← band_structures cells templates layer_regions mesh_a mesh_b;
  mesh_a' ← rewrite_layers max_layer_count st.1 st.2 mesh_a;
  mesh_b' ← rewrite_layers max_layer_count st.2 st.1 mesh_b;
  Some (mesh_a', mesh_b').

(** [std::unordered_set::merge] of the C++ standard library: every element
    of [source] whose key is not in the target moves to the target; the
    others stay in [source]. *)
Definition merge (target source : gset GridPoint3)
    : gset GridPoint3 * gset GridPoint3 :=
  foldl (fun ts p =>
           if decide (p ∈ ts.1) then ts
           else ({[p]} ∪ ts.1, ts.2 ∖ {[p]}))
        (target, source) (elements source).

(** [erase] of every air cell. *)
Definition erase_all (cells air_cells : gset GridPoint3) : gset GridPoint3 :=
  foldl (fun s p => s ∖ {[p]}) cells (elements air_cells).

(** The set [has_all_meshes] handed to [applyMicrostructureToOutlines]. *)
Definition stamping_cells (mesh_a mesh_b : Slicer) : option (gset GridPoint3) :=
  voxels_per_mesh ← getShellVoxels mesh_a mesh_b (interface_dilation gen);
  let layer_regions := computeLayerRegions mesh_a mesh_b in
  let merged := merge voxels_per_mesh.1 voxels_per_mesh.2 in
  let has_all_meshes := merged.2 in
  if air_filtering gen
  then air_cells ← addBoundaryCells layer_regions (air_dilation gen) ∅;
       Some (erase_all has_all_meshes air_cells)
  else Some has_all_meshes.

(** The member [generateInterlockingStructure()]. *)
Definition generateInterlockingStructure (mesh_a mesh_b : Slicer)
    : option (Slicer * Slicer) :=
  has_all_meshes ← stamping_cells mesh_a mesh_b;
  let layer_regions := computeLayerRegions mesh_a mesh_b in
  cell_area_per_mesh_per_layer ← generateMicrostructure;
  applyMicrostructureToOutlines has_all_meshes cell_area_per_mesh_per_layer
    layer_regions mesh_a mesh_b.

End Members.

(** ** The entry point over all meshes *)

(** The generator the entry point builds for a pair. *)
Definition make_generator (mesh_a mesh_b : Slicer) : InterlockingGenerator :=
  let beam_width_0 := wrap64 (2 * wall_line_width_0 (mesh mesh_a)) in
  let beam_width_1 := wrap64 (2 * wall_line_width_0 (mesh mesh_b)) in
  let rotation := PointMatrix_of_degrees (45 # 2) in
  let beam_layer_count := 2 in
  let interface_depth := 2 in
  let boundary_avoidance := 0 in
  let cell_width := wrap64 (beam_width_0 + beam_width_1) in
  let cell_size := mkPoint3 cell_width cell_width (wrap64 (2 * beam_layer_count)) in
  let interface_dilation :=
    DilationKernel_new (mkPoint3 interface_depth interface_depth interface_depth) PRISM in
  let air_filtering := 0 <? boundary_avoidance in
  let air_dilation :=
    DilationKernel_new (mkPoint3 boundary_avoidance boundary_avoidance boundary_avoidance) DIAMOND in
  mkInterlockingGenerator (beam_width_0, beam_width_1) (mkVoxelUtils cell_size)
    rotation cell_size beam_layer_count interface_dilation air_dilation air_filtering.

(** The sum of the two beam widths of a pair, which is the horizontal
    cell size and the divisor in [generateMicrostructure]. *)
Definition beam_width_sum (mesh_a mesh_b : Slicer) : Z :=
  wrap64 (wrap64 (2 * wall_line_width_0 (mesh mesh_a))
          + wrap64 (2 * wall_line_width_0 (mesh mesh_b))).

(** The layer counter of the stamping loop is an [unsigned int]: with two
    layers to spare below 2^32 it does not wrap. *)
Definition layer_count_ok (mesh_a mesh_b : Slicer) : Prop :=
  Z.of_nat (length (layers mesh_a) `max` length (layers mesh_b)) + 2 <= 2 ^ 32.

(** [volumes] is a vector of pointers: the meshes live in a store, keyed
    by address.  [processed] records, in order, the index pairs on which
    the generator ran. *)
Record run_state : Type := mkRunState {
  store : gmap nat Slicer;
  processed : list (nat * nat)
}.

(** The body of the loop over [mesh_b_idx]. *)
Definition visit_pair (volumes : list nat) (mesh_a_idx ptr_a : nat)
    (extruder_nr_a : Z) (mesh_b_idx : nat) (st : run_state)
    : option (loop_ctl run_state) :=
  ptr_b ← at_index volumes mesh_b_idx;
  mesh_a ← store st !! ptr_a;
  mesh_b ← store st !! ptr_b;
  let extruder_nr_b := wall_0_extruder_nr (mesh mesh_b) in
  if negb (extruder_nr_a =? extruder_nr_b)
     && AABB3D_hit (AABB3D_offset (getAABB (mesh mesh_a)) ignored_gap)
                   (getAABB (mesh mesh_b))
  then
    r ← generateInterlockingStructure (make_generator mesh_a mesh_b) mesh_a mesh_b;
    Some (Continue
            (mkRunState (<[ptr_b := r.2]> (<[ptr_a := r.1]> (store st)))
                        (processed st ++ [(mesh_a_idx, mesh_b_idx)])))
  else Some (Continue st).

(** The body of the loop over [mesh_a_idx]. *)
Definition visit_mesh (volumes : list nat) (mesh_a_idx : nat) (st : run_state)
    : option (loop_ctl run_state) :=
  ptr_a ← at_index volumes mesh_a_idx;
  mesh_a ← store st !! ptr_a;
  let extruder_nr_a := wall_0_extruder_nr (mesh mesh_a) in
  st ← for_range (length volumes - (mesh_a_idx + 1)) (mesh_a_idx + 1)
         (visit_pair volumes mesh_a_idx ptr_a extruder_nr_a) st;
  Some (Continue st).

(** The static [generateInterlockingStructure(volumes)]. *)
Definition generateInterlockingStructure_volumes (volumes : list nat)
    (st : run_state) : option run_state :=
  for_range (length volumes) 0 (visit_mesh volumes) st.

(** The condition of the entry point on two meshes: different extruders
    for the outer wall, and the box of the first mesh, moved out by
    [ignored_gap], hits the box of the second. *)
Definition pair_selected (mesh_a mesh_b : Mesh) : bool :=
  negb (wall_0_extruder_nr mesh_a =? wall_0_extruder_nr mesh_b)
  && AABB3D_hit (AABB3D_offset (getAABB mesh_a) ignored_gap) (getAABB mesh_b).

(** The index pair [(i, j)] of [volumes] is one the entry point selects:
    [i < j], both pointers lead to a mesh, and the two meshes pass the
    condition. *)
Definition selected_in (volumes : list nat) (meshes : gmap nat Slicer)
    (i j : nat) : Prop :=
  exists ptr_a ptr_b mesh_a mesh_b,
    volumes !! i = Some ptr_a /\ volumes !! j = Some ptr_b
    /\ meshes !! ptr_a = Some mesh_a /\ meshes !! ptr_b = Some mesh_b
    /\ (i < j)%nat
    /\ pair_selected (mesh mesh_a) (mesh mesh_b) = true.

(** Two stores hold the same meshes up to the polygons of the layers. *)
Definition same_shape (m m' : Slicer) : Prop :=
  mesh m' = mesh m /\ length (layers m') = length (layers m).

Definition same_shapes (meshes meshes' : gmap nat Slicer) : Prop :=
  forall ptr, option_Forall2 same_shape (meshes !! ptr) (meshes' !! ptr).

(** Every pointer of [volumes] leads to a mesh, and every selected pair
    has beam widths that do not sum to zero and layer counts an
    [unsigned int] can count. *)
Definition volumes_ok (volumes : list nat) (meshes : gmap nat Slicer) : Prop :=
  (forall i ptr, volumes !! i = Some ptr -> is_Some (meshes !! ptr))
  /\ (forall i j ptr_a ptr_b mesh_a mesh_b,
        volumes !! i = Some ptr_a -> volumes !! j = Some ptr_b ->
        meshes !! ptr_a = Some mesh_a -> meshes !! ptr_b = Some mesh_b ->
        pair_selected (mesh mesh_a) (mesh mesh_b) = true ->
        beam_width_sum mesh_a mesh_b <> 0 /\ layer_count_ok mesh_a mesh_b).

(** No selected pair holds the pointer. *)
Definition untouched (volumes : list nat) (meshes : gmap nat Slicer)
    (ptr : nat) : Prop :=
  forall i j, selected_in volumes meshes i j ->
              volumes !! i <> Some ptr /\ volumes !! j <> Some ptr.

(** The state of the entry point once it is through the index pairs
    [visited], started on [meshes] with an empty record: the meshes have
    kept their shape, the record lists the selected pairs among the
    visited ones, each once, and the meshes outside the selected pairs
    are as they were. *)
Definition run_invariant (volumes : list nat) (meshes : gmap nat Slicer)
    (visited : nat -> nat -> Prop) (st : run_state) : Prop :=
  same_shapes meshes (store st)
  /\ NoDup (processed st)
  /\ (forall i j, (i, j) ∈ processed st
                  <-> selected_in volumes meshes i j /\ visited i j)
  /\ (forall ptr, untouched volumes meshes ptr -> store st !! ptr = meshes !! ptr).

(** ** What the loops leave behind *)

(** The skin [addBoundaryCells] walks on layer [layer_nr]: the layer
    itself on the bottom layer, above it the difference to the layer
    below, opened by half a cell. *)
Definition layer_skin (gen : InterlockingGenerator)
    (layer_polys : list Polygons) (layer_nr : nat) : option Polygons :=
  here ← at_index layer_polys layer_nr;
  skin ← (if decide (0 < layer_nr)%nat
          then below ← at_index layer_polys (layer_nr - 1);
               Some (xorPolygons here below)
          else Some here);
  let cx := p3x (gen_cell_size gen) in
  half_neg ← cdiv (wrap64 (- cx)) 2;
  half ← cdiv cx 2;
  Some (offset (offset skin half_neg) half).

(** The cells one round of [addBoundaryCells] hands to [voxel_emplacer]. *)
Definition boundary_cells_of_layer (gen : InterlockingGenerator)
    (layer_polys : list Polygons) (kernel : DilationKernel) (layer_nr : nat)
    : gset GridPoint3 :=
  match layer_polys !! layer_nr, layer_skin gen layer_polys layer_nr with
  | Some here, Some skin =>
      list_to_set (walkDilatedPolygons (vu gen) here (Z.of_nat layer_nr) kernel)
      ∪ list_to_set (walkDilatedAreas (vu gen) skin (Z.of_nat layer_nr) kernel)
  | _, _ => ∅
  end.

(** The template for a parity and a mesh; empty outside the table. *)
Definition template_of (templates : list (list Polygons))
    (parity mesh_idx : nat) : Polygons :=
  match templates !! parity with
  | Some row => match row !! mesh_idx with Some areas => areas | None => [] end
  | None => []
  end.

(** What the cell [grid_loc] with lower corner [bottom_corner] adds to
    band [band] of mesh [mesh_idx] when beams are two layers and cells
    four layers high: its template of the parity of the band, moved to
    the corner, if the band is one of the two the cell spans. *)
Definition cell_stamp (templates : list (list Polygons))
    (mesh_idx : nat) (grid_loc : GridPoint3)
    (bottom_corner : Point3) (band : nat) : Polygons :=
  if p3z grid_loc =? Z.of_nat band / 2
  then translate (template_of templates (band mod 2) mesh_idx)
         (mkPoint (p3x bottom_corner) (p3y bottom_corner))
  else [].

(** What all cells add to a band, in the order the loop visits them. *)
Definition stamped_band (gen : InterlockingGenerator)
    (templates : list (list Polygons))
    (mesh_idx : nat) (cells : list GridPoint3) (band : nat) : Polygons :=
  flat_map (fun grid_loc =>
              match toLowerCorner (vu gen) grid_loc with
              | Some bottom_corner =>
                  cell_stamp templates mesh_idx grid_loc bottom_corner band
              | None => []
              end) cells.

(** The heights of cells whose lower corner is a [coord_t] and below
    2^32, the range of the layer counter. *)
Definition cell_height_ok (grid_loc : GridPoint3) : Prop :=
  - 2 ^ 61 <= p3z grid_loc < 2 ^ 30.

(** One run of the generator on the index pair [pair] of [volumes], on
    the meshes as the store has them, and the runs on a list of pairs
    one after the other. *)
Definition run_pair (volumes : list nat) (meshes : gmap nat Slicer)
    (pair : nat * nat) : option (gmap nat Slicer) :=
  ptr_a ← volumes !! pair.1;
  ptr_b ← volumes !! pair.2;
  mesh_a ← meshes !! ptr_a;
  mesh_b ← meshes !! ptr_b;
  r ← generateInterlockingStructure (make_generator mesh_a mesh_b) mesh_a mesh_b;
  Some (<[ptr_b := r.2]> (<[ptr_a := r.1]> meshes)).

Definition run_pairs (volumes : list nat) (meshes : gmap nat Slicer)
    (pairs : list (nat * nat)) : option (gmap nat Slicer) :=
  foldl (fun acc pair => meshes' ← acc; run_pair volumes meshes' pair)
        (Some meshes) pairs.

(** The condition of the entry point on the index pair [(i, j)], and the
    index pairs that pass it, in the order the two loops reach them: by
    [i] and, for one [i], by [j] from [i + 1] on. *)
Definition selected_b (volumes : list nat) (meshes : gmap nat Slicer)
    (i j : nat) : bool :=
  match volumes !! i, volumes !! j with
  | Some ptr_a, Some ptr_b =>
      match meshes !! ptr_a, meshes !! ptr_b with
      | Some mesh_a, Some mesh_b => pair_selected (mesh mesh_a) (mesh mesh_b)
      | _, _ => false
      end
  | _, _ => false
  end.

Definition selected_pairs_of (volumes : list nat) (meshes : gmap nat Slicer)
    (i : nat) (count : nat) : list (nat * nat) :=
  flat_map (fun j => if selected_b volumes meshes i j then [(i, j)] else [])
           (seq (i + 1) count).

Definition selected_pairs (volumes : list nat) (meshes : gmap nat Slicer)
    : list (nat * nat) :=
  flat_map (fun i => selected_pairs_of volumes meshes i (length volumes - (i + 1)))
           (seq 0 (length volumes)).

End Generator.

(** ** What the specification says, in its own words *)

Module Spec.

(** "The grid mapping is [⌊coord / cell_size[d]⌋] using floor division
    (negatives round toward −∞)".  [Z.div] is floor division. *)
Definition grid_coord (coord cell : Z) : Z := coord / cell.

(** "[contact = S_a ∩ S_b]" *)
Definition contact (S_a S_b : gset GridPoint3) : gset GridPoint3 := S_a ∩ S_b.

(** "[P = layer_regions[b · beam_layer_count].intersection(P)]", between
    the union and "[P.applyMatrix(rotation⁻¹)]". *)
Definition finished_band `{L : Library} (gen : InterlockingGenerator)
    (layer_regions : list Polygons) (band : nat) (stamped : Polygons)
    : option Polygons :=
  layer_region ← layer_regions !! (band * Z.to_nat (beam_layer_count gen))%nat;
  Some (applyMatrix (intersection layer_region (unionPolygons_self stamped))
          (PointMatrix_inverse (rotation gen))).

(** "[m.layers[ℓ].polygons = (m.layers[ℓ].polygons ∪ own) − other]" *)
Definition rewritten_polygons `{L : Library} (old own other : Polygons) : Polygons :=
  difference (unionPolygons old own) other.

(** "[middle = cx · w0 / (w0+w1)]" *)
Definition middle (cx w0 w1 : Z) : Z := Z.quot (cx * w0) (w0 + w1).

End Spec.

(** ** Areas of rectangles

    The templates of the microstructure are axis-parallel rectangles
    given by their four corners.  The area such a polygon bounds is its
    bounding box, border included; points of the plane have rational
    coordinates. *)

Definition is_axis_rectangle (p : Polygon) : bool :=
  match p with
  | [a; b; c; d] =>
      ((Y a =? Y b) && (X b =? X c) && (Y c =? Y d) && (X d =? X a))
      || ((X a =? X b) && (Y b =? Y c) && (X c =? X d) && (Y d =? Y a))
  | _ => false
  end.

Definition min_X (p : Polygon) : Z := foldr (fun v m => Z.min (X v) m) (default 0 (X <$> head p)) p.
Definition max_X (p : Polygon) : Z := foldr (fun v m => Z.max (X v) m) (default 0 (X <$> head p)) p.
Definition min_Y (p : Polygon) : Z := foldr (fun v m => Z.min (Y v) m) (default 0 (Y <$> head p)) p.
Definition max_Y (p : Polygon) : Z := foldr (fun v m => Z.max (Y v) m) (default 0 (Y <$> head p)) p.

Definition rectangle_covers (p : Polygon) (x y : Q) : Prop :=
  is_axis_rectangle p = true
  /\ (inject_Z (min_X p) <= x)%Q /\ (x <= inject_Z (max_X p))%Q
  /\ (inject_Z (min_Y p) <= y)%Q /\ (y <= inject_Z (max_Y p))%Q.

Definition rectangles_cover (ps : Polygons) (x y : Q) : Prop :=
  Exists (fun p => rectangle_covers p x y) ps.

(** The area two rectangles share. *)
Definition rectangle_overlap_area (p q : Polygon) : Z :=
  Z.max 0 (Z.min (max_X p) (max_X q) - Z.max (min_X p) (min_X q))
  * Z.max 0 (Z.min (max_Y p) (max_Y q) - Z.max (min_Y p) (min_Y q)).

Definition overlap_area (ps qs : Polygons) : Z :=
  foldr Z.add 0 (p ← ps; q ← qs; [rectangle_overlap_area p q]).

(** The closed box [[x0, x1] × [y0, y1]], and the two ways round it that
    the templates use: along x first and, after the swap of the
    coordinates, along y first. *)
Definition in_box (x0 y0 x1 y1 : Z) (x y : Q) : Prop :=
  (inject_Z x0 <= x)%Q /\ (x <= inject_Z x1)%Q
  /\ (inject_Z y0 <= y)%Q /\ (y <= inject_Z y1)%Q.

Definition along_x (x0 y0 x1 y1 : Z) : Polygon :=
  [mkPoint x0 y0; mkPoint x1 y0; mkPoint x1 y1; mkPoint x0 y1].

Definition along_y (x0 y0 x1 y1 : Z) : Polygon :=
  [mkPoint x0 y0; mkPoint x0 y1; mkPoint x1 y1; mkPoint x1 y0].

(** The closed cell square [[0, cx] × [0, cy]]. *)
Definition in_cell_square (cs : Point3) (x y : Q) : Prop :=
  (0 <= x)%Q /\ (x <= inject_Z (p3x cs))%Q /\ (0 <= y)%Q /\ (y <= inject_Z (p3y cs))%Q.

(** ** Areas of clipped polygons *)

(** Modelled from the spec: the clipping engine is outside the sources at
    hand; the specification takes [union], [difference] and the clip
    ([intersection]) as operations on the areas that polygon sets stand
    for, and a rotation as a map of the plane.  [covers ps pt] says that
    the point [pt] is in the area of [ps]: a union covers what either
    operand covers, an intersection what both cover, a difference what
    the first operand covers and the second does not, the empty set
    covers nothing, and a matrix takes an area inside another to an area
    inside the image of the other. *)

Class Region (L : Library) (Pt : Type) : Type := {
  covers : Polygons -> Pt -> Prop
}.

Record RegionLaws {L : Library} {Pt : Type} (R : Region L Pt) : Prop := {
  covers_empty : forall pt, ~ covers [] pt;
  covers_unionPolygons : forall p q pt,
    covers (unionPolygons p q) pt <-> covers p pt \/ covers q pt;
  covers_difference : forall p q pt,
    covers (difference p q) pt <-> covers p pt /\ ~ covers q pt;
  covers_intersection : forall p q pt,
    covers (intersection p q) pt <-> covers p pt /\ covers q pt;
  covers_applyMatrix : forall p q m,
    (forall pt, covers p pt -> covers q pt) ->
    forall pt, covers (applyMatrix p m) pt -> covers (applyMatrix q m) pt
}.

(** The outline of a mesh on a layer; empty where the mesh has no such
    layer. *)
Definition outline {L : Library} (m : Slicer) (layer_nr : nat) : Polygons :=
  match layers m !! layer_nr with
  | Some layer => polygons layer
  | None => []
  end.

(** The morphological close of the specification: out by [gap], then in
    by [gap]. *)
Definition close `{L : Library} (ps : Polygons) (gap : Z) : Polygons :=
  offset (offset ps gap) (wrap64 (- gap)).

(** "[(a'_ℓ ∪ b'_ℓ) ⊆ (a_ℓ ∪ b_ℓ).close(ignored_gap)] and
    [a'_ℓ ∩ b'_ℓ = ∅]", for the outlines [a], [b] of one layer and their
    rewritten versions [a'], [b']. *)
Definition volume_conserved {L : Library} {Pt : Type} {R : Region L Pt}
    (a b a' b' : Polygons) : Prop :=
  (forall pt, covers a' pt \/ covers b' pt ->
              covers (close (unionPolygons a b) ignored_gap) pt)
  /\ (forall pt, ~ (covers a' pt /\ covers b' pt)).

(** ** A small implementation of the collaborators

    An implementation of [Library] that computes: it clips unions of
    axis-parallel boxes exactly, reading every polygon as its bounding
    box with the lower and left border included and the upper and right
    border excluded.  Its matrices leave polygons in place, its walkers
    visit the cells of the vertices, and a kernel holds the one offset
    (0, 0, 0).  It serves to run the embedded generator on concrete
    meshes. *)

Module Boxes.

(** A box [(x0, y0, x1, y1)] stands for [[x0, x1) × [y0, y1)]. *)
Definition box : Type := Z * Z * Z * Z.

Definition box_of (p : Polygon) : box := (min_X p, min_Y p, max_X p, max_Y p).

Definition path_of (b : box) : Polygon :=
  let '(x0, y0, x1, y1) := b in
  [mkPoint x0 y0; mkPoint x1 y0; mkPoint x1 y1; mkPoint x0 y1].

Definition box_nonempty (b : box) : bool :=
  let '(x0, y0, x1, y1) := b in (x0 <? x1) && (y0 <? y1).

Definition box_covers (b : box) (pt : Z * Z) : bool :=
  let '(x0, y0, x1, y1) := b in
  (x0 <=? pt.1) && (pt.1 <? x1) && (y0 <=? pt.2) && (pt.2 <? y1).

Definition boxes (ps : Polygons) : list box := map box_of ps.

Definition of_boxes (bs : list box) : Polygons :=
  map path_of (filter (fun b => box_nonempty b = true) bs).

Definition covers_b (ps : Polygons) (pt : Z * Z) : bool :=
  existsb (fun b => box_covers b pt) (boxes ps).

Definition box_inter (b c : box) : box :=
  let '(x0, y0, x1, y1) := b in
  let '(u0, v0, u1, v1) := c in
  (Z.max x0 u0, Z.max y0 v0, Z.min x1 u1, Z.min y1 v1).

(** The part of [b] outside [c]: to the left of [c], to its right, and,
    between the two, below and above it. *)
Definition box_minus (b c : box) : list box :=
  let '(x0, y0, x1, y1) := b in
  let '(u0, v0, u1, v1) := c in
  [ (x0, y0, Z.min x1 u0, y1);
    (Z.max x0 u1, y0, x1, y1);
    (Z.max x0 u0, y0, Z.min x1 u1, Z.min y1 v0);
    (Z.max x0 u0, Z.max y0 v1, Z.min x1 u1, y1) ].

Definition box_grow (d : Z) (b : box) : box :=
  let '(x0, y0, x1, y1) := b in (x0 - d, y0 - d, x1 + d, y1 + d).

Definition b_union (ps qs : Polygons) : Polygons := of_boxes (boxes ps ++ boxes qs).

Definition b_intersection (ps qs : Polygons) : Polygons :=
  of_boxes (b ← boxes ps; c ← boxes qs; [box_inter b c]).

Definition b_difference (ps qs : Polygons) : Polygons :=
  of_boxes (foldl (fun bs c => b ← bs; box_minus b c) (boxes ps) (boxes qs)).

Definition b_xor (ps qs : Polygons) : Polygons :=
  b_difference ps qs ++ b_difference qs ps.

Definition b_offset (ps : Polygons) (d : Z) : Polygons :=
  of_boxes (map (box_grow d) (boxes ps)).

Definition p3_add (a b : Point3) : Point3 :=
  mkPoint3 (p3x a + p3x b) (p3y a + p3y b) (p3z a + p3z b).

(** The cells of the vertices of [ps] on layer [z], each with the offsets
    of the kernel. *)
Definition b_walk (vu : VoxelUtils) (ps : Polygons) (z : Z)
    (kernel : DilationKernel) : list GridPoint3 :=
  p ← ps; v ← p;
  match toGridPoint vu (mkPoint3 (X v) (Y v) z) with
  | Some g => map (p3_add g) (relative_cells kernel)
  | None => []
  end.

(** A bounding box in space: its lowest and its highest corner. *)
Definition aabb : Type := Point3 * Point3.

Definition aabb_offset (b : aabb) (d : Z) : aabb :=
  (mkPoint3 (p3x b.1 - d) (p3y b.1 - d) (p3z b.1 - d),
   mkPoint3 (p3x b.2 + d) (p3y b.2 + d) (p3z b.2 + d)).

Definition aabb_hit (b c : aabb) : bool :=
  negb ((p3x b.2 <? p3x c.1) || (p3x c.2 <? p3x b.1)
        || (p3y b.2 <? p3y c.1) || (p3y c.2 <? p3y b.1)
        || (p3z b.2 <? p3z c.1) || (p3z c.2 <? p3z b.1)).

#[export] Instance library : Library := {|
  PointMatrix := unit;
  PointMatrix_of_degrees := fun _ => tt;
  PointMatrix_inverse := fun m => m;
  applyMatrix := fun ps _ => ps;
  unionPolygons_self := fun ps => of_boxes (boxes ps);
  unionPolygons := b_union;
  intersection := b_intersection;
  difference := b_difference;
  xorPolygons := b_xor;
  offset := b_offset;
  DilationKernel_new := fun size type => mkDilationKernel size type [mkPoint3 0 0 0];
  walkDilatedPolygons := b_walk;
  walkDilatedAreas := b_walk;
  AABB3D := aabb;
  AABB3D_offset := aabb_offset;
  AABB3D_hit := aabb_hit
|}.

#[export] Instance region : Region library (Z * Z) := {|
  covers := fun ps pt => covers_b ps pt = true
|}.

(** A layer whose outline is one box. *)
Definition box_layer (z : Z) (b : box) : SlicerLayer := mkSlicerLayer z [path_of b].

(** Two meshes on different extruders with walls 100 wide: cells of
    400 × 400 × 4.  Both fill the same space: a block whose second layer
    is longer and starts further right than its first. *)
Definition block_mesh (extruder_nr : Z) (outlines : list box) : Slicer :=
  mkSlicer (mkMesh extruder_nr 100 (mkPoint3 0 0 0, mkPoint3 1400 400 4))
           (imap (fun layer_nr b => box_layer (Z.of_nat layer_nr) b) outlines).

Definition sheared_a : Slicer := block_mesh 0 [(0, 0, 400, 400); (200, 0, 1400, 400)].
Definition sheared_b : Slicer := block_mesh 1 [(0, 0, 400, 400); (200, 0, 1400, 400)].

(** Two meshes of four layers whose second layer is narrower than the
    others. *)
Definition notched_a : Slicer :=
  block_mesh 0 [(0, 0, 400, 400); (0, 0, 200, 400); (0, 0, 400, 400); (0, 0, 400, 400)].
Definition notched_b : Slicer :=
  block_mesh 1 [(0, 0, 400, 400); (0, 0, 200, 400); (0, 0, 400, 400); (0, 0, 400, 400)].

(** A third block, far from the two sheared ones, on the extruder of the
    second; and the three blocks behind the pointers 0, 1 and 2. *)
Definition far_block : Slicer :=
  mkSlicer (mkMesh 1 100 (mkPoint3 9000 9000 0, mkPoint3 9400 9400 4))
           [box_layer 0 (9000, 9000, 9400, 9400)].

Definition three_blocks : gmap nat Slicer :=
  <[0%nat := sheared_a]> (<[1%nat := sheared_b]> (<[2%nat := far_block]> ∅)).

(** Two meshes without layers whose wall widths, -50 and 150, give the
    beam widths -100 and 300 and cells 200 wide. *)
Definition negative_width_a : Slicer :=
  mkSlicer (mkMesh 0 (-50) (mkPoint3 0 0 0, mkPoint3 0 0 0)) [].
Definition negative_width_b : Slicer :=
  mkSlicer (mkMesh 1 150 (mkPoint3 0 0 0, mkPoint3 0 0 0)) [].

(** Three blocks in one place on the extruders 0, 1 and 0: the pairs
    (0, 1) and (1, 2) are selected, the pair (0, 2) is not. *)
Definition touching_blocks : gmap nat Slicer :=
  <[0%nat := sheared_a]> (<[1%nat := sheared_b]> (<[2%nat := sheared_a]> ∅)).

(** Two blocks on one extruder. *)
Definition same_extruder_blocks : gmap nat Slicer :=
  <[0%nat := sheared_a]> (<[1%nat := sheared_a]> ∅).

(** Two meshes of one layer with wall lines of width zero. *)
Definition zero_width_a : Slicer :=
  mkSlicer (mkMesh 0 0 (mkPoint3 0 0 0, mkPoint3 400 400 1))
           [box_layer 0 (0, 0, 400, 400)].
Definition zero_width_b : Slicer :=
  mkSlicer (mkMesh 1 0 (mkPoint3 0 0 0, mkPoint3 400 400 1))
           [box_layer 0 (0, 0, 400, 400)].

(** The generator of the two notched meshes, with beams three layers high
    in place of two. *)
Definition three_layer_beams : InterlockingGenerator :=
  let gen := make_generator notched_a notched_b in
  mkInterlockingGenerator (beam_widths gen) (vu gen) (rotation gen)
    (gen_cell_size gen) 3 (interface_dilation gen) (air_dilation gen)
    (air_filtering gen).

End Boxes.

(** * Properties *)

(** ** Machine integers *)

Ltac int_lia := unfold in_int64, int64_min, int64_max in *; lia.
Ltac div_lia := Z.div_mod_to_equations; lia.

Lemma wrap64_small v : in_int64 v -> wrap64 v = v.
Proof.
  unfold in_int64, int64_min, int64_max, wrap64. intros Hv.
  rewrite Z.mod_small; lia.
Qed.

Lemma wrap64_range v : in_int64 (wrap64 v).
Proof.
  unfold in_int64, int64_min, int64_max, wrap64.
  pose proof (Z.mod_pos_bound (v + 2 ^ 63) (2 ^ 64)). lia.
Qed.

Lemma cdiv_Some a b :
  b <> 0 -> b <> -1 -> cdiv a b = Some (wrap64 (Z.quot a b)).
Proof.
  intros Hb Hb'. unfold cdiv.
  destruct (Z.eqb_spec b 0); [lia |]. destruct (Z.eqb_spec b (-1)); [lia |].
  by rewrite andb_false_r.
Qed.

(** Truncating division against floor division, for a positive divisor. *)
Lemma quot_floor a b :
  0 < b ->
  Z.quot a b = a / b + (if (a <? 0) && negb (a mod b =? 0) then 1 else 0).
Proof.
  intros Hb.
  pose proof (Z.quot_rem' a b) as Hq.
  pose proof (Z.div_mod a b ltac:(lia)) as Hd.
  pose proof (Z.mod_pos_bound a b Hb) as Hm.
  assert (Hk : b * (a / b - Z.quot a b) = Z.rem a b - a mod b) by lia.
  destruct (Z.ltb_spec a 0) as [Ha | Ha]; simpl.
  - pose proof (Z.rem_bound_pos_neg a b Hb ltac:(lia)) as Hr.
    destruct (Z.eqb_spec (a mod b) 0) as [H0 | H0]; simpl.
    + assert (a / b - Z.quot a b = 0) by nia. lia.
    + assert (a / b - Z.quot a b = -1) by nia. lia.
  - pose proof (Z.rem_bound_pos a b Ha Hb) as Hr.
    assert (a / b - Z.quot a b = 0) by nia. lia.
Qed.

(** ** VoxelUtils *)

Section VoxelUtilsFacts.

Variable vu : VoxelUtils.
Variables (dim : nat) (cs : Z).
Hypothesis Hdim : p3_index (cell_size vu) dim = Some cs.
Hypothesis Hcs : 0 < cs.

(** What [toGridCoord] computes, against the floor: one less than the
    floor exactly on the negative multiples of the cell size. *)
Lemma toGridCoord_value c :
  int64_min < c <= int64_max ->
  toGridCoord vu c dim
  = Some (Spec.grid_coord c cs - (if (c <? 0) && (c mod cs =? 0) then 1 else 0)).
Proof.
  intros Hc. unfold toGridCoord, Spec.grid_coord. rewrite Hdim. simpl.
  rewrite cdiv_Some by lia. simpl.
  assert (Hfl : int64_min <= c / cs <= int64_max).
  { unfold int64_min, int64_max in *. split.
    - apply Z.div_le_lower_bound; nia.
    - apply Z.lt_succ_r. apply Z.div_lt_upper_bound; nia. }
  assert (Hlo : c < 0 -> c mod cs = 0 -> int64_min < c / cs).
  { intros Hneg Hm. pose proof (Z.div_mod c cs ltac:(lia)).
    unfold int64_min, int64_max in *. nia. }
  rewrite quot_floor by done.
  destruct (Z.ltb_spec c 0) as [Hneg | Hpos]; simpl;
    [destruct (Z.eqb_spec (c mod cs) 0) as [Hm | Hm]; simpl |].
  - specialize (Hlo Hneg Hm).
    rewrite (wrap64_small (_ + 0)) by int_lia.
    rewrite wrap64_small by int_lia. f_equal; lia.
  - pose proof (Z.div_lt_upper_bound c cs 0 Hcs ltac:(lia)).
    rewrite (wrap64_small (_ + 1)) by int_lia.
    rewrite wrap64_small by int_lia.
    f_equal; lia.
  - rewrite (wrap64_small (_ + 0)) by int_lia.
    rewrite wrap64_small by int_lia.
    f_equal; lia.
Qed.

(** On the coordinates that are not negative, and on the negative ones
    that are no multiple of the cell size, [toGridCoord] is the floor. *)
Lemma toGridCoord_floor c :
  int64_min < c <= int64_max ->
  0 <= c \/ c mod cs <> 0 ->
  toGridCoord vu c dim = Some (Spec.grid_coord c cs).
Proof.
  intros Hc Hok. rewrite toGridCoord_value by done.
  destruct (Z.ltb_spec c 0); simpl; [| f_equal; lia].
  destruct (Z.eqb_spec (c mod cs) 0); simpl; [lia | f_equal; lia].
Qed.

(** On a negative multiple of the cell size it is one below the floor. *)
Lemma toGridCoord_negative_multiple c :
  int64_min < c < 0 -> c mod cs = 0 ->
  toGridCoord vu c dim = Some (Spec.grid_coord c cs - 1).
Proof.
  intros Hc Hm. rewrite toGridCoord_value by (unfold int64_max; lia).
  destruct (Z.ltb_spec c 0); [| lia]. rewrite Hm. done.
Qed.

(** The lower corner of the cell of a coordinate is never above the
    coordinate, and lies at most one cell size below it. *)
Lemma toLowerCoord_toGridCoord c :
  int64_min < c <= int64_max ->
  in_int64 (cs * (c / cs - 1)) ->
  exists g l,
    toGridCoord vu c dim = Some g /\ toLowerCoord vu g dim = Some l
    /\ l <= c /\ c - l <= cs.
Proof.
  intros Hc Hrange. rewrite toGridCoord_value by done.
  eexists _, _. split; [done |]. unfold toLowerCoord. rewrite Hdim. simpl.
  split; [done |].
  pose proof (Z.div_mod c cs ltac:(lia)) as Hd.
  pose proof (Z.mod_pos_bound c cs Hcs) as Hm.
  unfold Spec.grid_coord.
  assert (Hr2 : in_int64 (cs * (c / cs))).
  { unfold in_int64, int64_min, int64_max in *. nia. }
  destruct ((c <? 0) && (c mod cs =? 0)) eqn:E.
  - apply andb_true_iff in E as [_ E%Z.eqb_eq].
    rewrite wrap64_small by (rewrite Z.mul_comm; done). nia.
  - rewrite Z.sub_0_r, wrap64_small by (rewrite Z.mul_comm; done). nia.
Qed.

End VoxelUtilsFacts.

(** ** Loops *)

Lemma for_range_ext {S : Type} count first (f g : nat -> S -> option (loop_ctl S)) s :
  (forall k s', (first <= k < first + count)%nat -> f k s' = g k s') ->
  for_range count first f s = for_range count first g s.
Proof.
  revert first s. induction count as [| n IH]; intros first s Hfg; simpl; [done |].
  rewrite Hfg by lia. destruct (g first s) as [[s' | s'] |]; try done.
  apply IH. intros k s'' Hk. apply Hfg. lia.
Qed.

Lemma for_range_is_Some {S : Type} count first (body : nat -> S -> option (loop_ctl S)) s :
  (forall k s', (first <= k < first + count)%nat -> is_Some (body k s')) ->
  is_Some (for_range count first body s).
Proof.
  revert first s. induction count as [| n IH]; intros first s Hb; simpl; [by eexists |].
  destruct (Hb first s ltac:(lia)) as [[s' | s'] ->]; [| by eexists].
  apply IH. intros k s'' Hk. apply Hb. lia.
Qed.

(** The invariant rule: [I k s] holds before round [k]; a [break] leaves
    the loop in a state that satisfies [Q]. *)
Lemma for_range_inv {S : Type} (I : nat -> S -> Prop) (Q : S -> Prop)
    count first (body : nat -> S -> option (loop_ctl S)) s r :
  for_range count first body s = Some r ->
  I first s ->
  (forall k s' c, (first <= k < first + count)%nat -> I k s' ->
     body k s' = Some c ->
     match c with Continue s'' => I (Datatypes.S k) s'' | Break s'' => Q s'' end) ->
  I (first + count)%nat r \/ Q r.
Proof.
  revert first s. induction count as [| n IH]; intros first s Hrun HI Hstep; simpl in Hrun.
  - injection Hrun as <-. left. by rewrite Nat.add_0_r.
  - destruct (body first s) as [[s' | s'] |] eqn:Hb; [| | done].
    + specialize (Hstep first s (Continue s') ltac:(lia) HI Hb) as HI'.
      replace (first + Datatypes.S n)%nat with (Datatypes.S first + n)%nat by lia.
      apply (IH (Datatypes.S first) s'); [done | done |].
      intros k s'' c Hk. apply Hstep. lia.
    + injection Hrun as <-. right.
      apply (Hstep first s (Break s') ltac:(lia) HI Hb).
Qed.

Lemma for_each_inv {A S : Type} (I : S -> Prop) (l : list A)
    (body : A -> S -> option S) s r :
  for_each l body s = Some r ->
  I s ->
  (forall x s' s'', x ∈ l -> I s' -> body x s' = Some s'' -> I s'') ->
  I r.
Proof.
  revert s. induction l as [| x l IH]; intros s Hrun HI Hstep; simpl in Hrun.
  - by injection Hrun as <-.
  - destruct (body x s) as [s' |] eqn:Hb; simpl in Hrun; [| done].
    apply (IH s'); [done | |].
    + apply (Hstep x s s'); [left | done | done].
    + intros y t t' Hy. apply Hstep. by right.
Qed.

Lemma for_each_is_Some {A S : Type} (I : S -> Prop) (l : list A)
    (body : A -> S -> option S) s :
  I s ->
  (forall x s', x ∈ l -> I s' -> exists s'', body x s' = Some s'' /\ I s'') ->
  is_Some (for_each l body s).
Proof.
  revert s. induction l as [| x l IH]; intros s HI Hstep; simpl; [by eexists |].
  destruct (Hstep x s ltac:(left) HI) as (s' & -> & HI'). simpl.
  apply IH; [done |]. intros y t Hy. apply Hstep. by right.
Qed.

Lemma set_index_Some {A : Type} (v : list A) i x :
  (i < length v)%nat -> set_index v i x = Some (<[i := x]> v).
Proof. intros Hi. unfold set_index. by rewrite decide_True. Qed.

Lemma set_index_inv {A : Type} (v v' : list A) i x :
  set_index v i x = Some v' -> (i < length v)%nat /\ v' = <[i := x]> v.
Proof. unfold set_index. case_decide; [| done]. by intros [= <-]. Qed.

(** ** The merge of the two shells *)

Section MergeFacts.

Context `{L : Library}.

Lemma merge_fold (l : list GridPoint3) (t s : gset GridPoint3) :
  foldl (fun ts p =>
           if decide (p ∈ ts.1) then ts
           else ({[p]} ∪ ts.1, ts.2 ∖ {[p]}))
        (t, s) l
  = (t ∪ list_to_set l, s ∖ (list_to_set l ∖ t)).
Proof.
  revert t s. induction l as [| p l IH]; intros t s; simpl.
  - f_equal; set_solver.
  - case_decide as Hp; rewrite IH; f_equal; apply set_eq; intros x;
      destruct (decide (x ∈ t)); destruct (decide (x = p)); set_solver.
Qed.

Lemma merge_union_intersection (S_a S_b : gset GridPoint3) :
  merge S_a S_b = (S_a ∪ S_b, S_a ∩ S_b).
Proof.
  unfold merge. rewrite merge_fold, list_to_set_elements_L.
  f_equal. apply set_eq. intros x. destruct (decide (x ∈ S_a)); set_solver.
Qed.

Lemma erase_fold (l : list GridPoint3) (s : gset GridPoint3) :
  foldl (fun s p => s ∖ {[p]}) s l = s ∖ list_to_set l.
Proof.
  revert s. induction l as [| p l IH]; intros s; simpl; [set_solver |].
  rewrite IH. set_solver.
Qed.

Lemma erase_all_difference (cells air_cells : gset GridPoint3) :
  erase_all cells air_cells = cells ∖ air_cells.
Proof. unfold erase_all. by rewrite erase_fold, list_to_set_elements_L. Qed.

End MergeFacts.

(** ** The shells and the cells that are stamped *)

Section ShellFacts.

Context `{L : Library}.
Variable gen : InterlockingGenerator.

(** [addBoundaryCells] reads no layer outside the vector. *)
Lemma addBoundaryCells_total layer_polys kernel cells :
  is_Some (addBoundaryCells gen layer_polys kernel cells).
Proof.
  unfold addBoundaryCells. apply for_range_is_Some.
  intros k s [_ Hk]. simpl in Hk. unfold at_index.
  destruct (lookup_lt_is_Some_2 layer_polys k Hk) as [here ->]. simpl.
  rewrite !cdiv_Some by lia.
  case_decide as Hpos; simpl.
  - destruct (lookup_lt_is_Some_2 layer_polys (k - 1) ltac:(lia)) as [below ->].
    simpl. by eexists.
  - by eexists.
Qed.

Lemma getShellVoxels_total mesh_a mesh_b kernel :
  exists S_a S_b, getShellVoxels gen mesh_a mesh_b kernel = Some (S_a, S_b).
Proof.
  unfold getShellVoxels.
  destruct (addBoundaryCells_total (rotated_polygons_per_layer gen mesh_a) kernel ∅)
    as [S_a ->].
  destruct (addBoundaryCells_total (rotated_polygons_per_layer gen mesh_b) kernel ∅)
    as [S_b ->].
  simpl. by eexists _, _.
Qed.

Lemma stamping_cells_value mesh_a mesh_b S_a S_b :
  getShellVoxels gen mesh_a mesh_b (interface_dilation gen) = Some (S_a, S_b) ->
  stamping_cells gen mesh_a mesh_b
  = if air_filtering gen
    then air_cells ← addBoundaryCells gen (computeLayerRegions gen mesh_a mesh_b)
                       (air_dilation gen) ∅;
         Some ((S_a ∩ S_b) ∖ air_cells)
    else Some (S_a ∩ S_b).
Proof.
  intros Hshell. unfold stamping_cells. rewrite Hshell. simpl.
  rewrite merge_union_intersection. simpl.
  destruct (air_filtering gen); [| done].
  destruct (addBoundaryCells _ _ _ _) as [air |]; [| done]. simpl.
  by rewrite erase_all_difference.
Qed.

Lemma stamping_cells_total mesh_a mesh_b :
  is_Some (stamping_cells gen mesh_a mesh_b).
Proof.
  destruct (getShellVoxels_total mesh_a mesh_b (interface_dilation gen))
    as (S_a & S_b & Hshell).
  rewrite (stamping_cells_value _ _ _ _ Hshell).
  destruct (air_filtering gen); [| by eexists].
  destruct (addBoundaryCells_total (computeLayerRegions gen mesh_a mesh_b)
              (air_dilation gen) ∅) as [air ->].
  by eexists.
Qed.

End ShellFacts.

(** ** Loops that rewrite a vector slot by slot *)

Section PointwiseLoops.

Context {A : Type}.
Variable f : nat -> A -> option A.

#[local] Abbreviation rewrite_slot := (rewrite_slot f).
#[local] Abbreviation guarded_rewrite_slot := (guarded_rewrite_slot f).
#[local] Abbreviation slots_rewritten := (slots_rewritten f).

Lemma rewrite_slot_step k st st' :
  rewrite_slot k st = Some (Continue st') ->
  exists x y, st !! k = Some x /\ f k x = Some y /\ st' = <[k := y]> st
              /\ (k < length st)%nat.
Proof.
  unfold rewrite_slot, at_index. intros H.
  destruct (st !! k) as [x |] eqn:Hx; simpl in H; [| done].
  destruct (f k x) as [y |] eqn:Hy; simpl in H; [| done].
  destruct (set_index st k y) as [st'' |] eqn:Hs; simpl in H; [| done].
  apply set_index_inv in Hs as [Hlt ->]. injection H as <-. by exists x, y.
Qed.

Lemma slots_rewritten_step first count l x y r :
  l !! first = Some x -> f first x = Some y ->
  slots_rewritten (Datatypes.S first) count (<[first := y]> l) r ->
  slots_rewritten first (Datatypes.S count) l r.
Proof.
  intros Hx Hy [Hlen Hr]. split; [by rewrite Hlen, length_insert |].
  intros k. rewrite Hr. destruct (decide (k = first)) as [-> | Hne].
  - rewrite decide_False by lia. rewrite decide_True by lia.
    rewrite list_lookup_insert_eq by (by eapply lookup_lt_Some).
    by rewrite Hx.
  - rewrite list_lookup_insert_ne by done.
    repeat case_decide; try done; lia.
Qed.

Lemma for_range_rewrite_slots count first l r :
  for_range count first rewrite_slot l = Some r ->
  slots_rewritten first count l r.
Proof.
  revert first l. induction count as [| n IH]; intros first l Hrun; simpl in Hrun.
  - injection Hrun as <-. split; [done |]. intros k. by rewrite decide_False by lia.
  - destruct (rewrite_slot first l) as [[l' | l'] |] eqn:Hb; [| | done].
    + apply rewrite_slot_step in Hb as (x & y & Hx & Hy & -> & _).
      eapply slots_rewritten_step; eauto.
    + unfold rewrite_slot in Hb.
      destruct (at_index l first); simpl in Hb; [| done].
      destruct (f first a); simpl in Hb; [| done].
      destruct (set_index l first a0); simpl in Hb; done.
Qed.

Lemma for_range_guarded_rewrite_slots count first l r :
  for_range count first guarded_rewrite_slot l = Some r ->
  slots_rewritten first count l r.
Proof.
  revert first l. induction count as [| n IH]; intros first l Hrun; simpl in Hrun.
  - injection Hrun as <-. split; [done |]. intros k. by rewrite decide_False by lia.
  - unfold guarded_rewrite_slot in Hrun at 1. case_decide as Hlen.
    + injection Hrun as <-. split; [done |]. intros k. case_decide; [| done].
      rewrite (lookup_ge_None_2 l k) by lia. done.
    + destruct (rewrite_slot first l) as [[l' | l'] |] eqn:Hb; [| | done].
      * apply rewrite_slot_step in Hb as (x & y & Hx & Hy & -> & _).
        eapply slots_rewritten_step; eauto.
      * unfold rewrite_slot in Hb.
        destruct (at_index l first); simpl in Hb; [| done].
        destruct (f first a); simpl in Hb; [| done].
        destruct (set_index l first a0); simpl in Hb; done.
Qed.

Lemma for_range_rewrite_slots_total count first l :
  (first + count <= length l)%nat ->
  (forall k x, (first <= k < first + count)%nat -> l !! k = Some x -> is_Some (f k x)) ->
  is_Some (for_range count first rewrite_slot l).
Proof.
  revert first l. induction count as [| n IH]; intros first l Hlen Hf; simpl;
    [by eexists |].
  destruct (lookup_lt_is_Some_2 l first ltac:(lia)) as [x Hx].
  destruct (Hf first x ltac:(lia) Hx) as [y Hy].
  unfold rewrite_slot at 1, at_index. rewrite Hx. simpl. rewrite Hy. simpl.
  rewrite set_index_Some by lia. simpl.
  apply IH; [rewrite length_insert; lia |].
  intros k x' Hk Hx'. rewrite list_lookup_insert_ne in Hx' by lia.
  apply (Hf k x'); [lia | done].
Qed.

Lemma for_range_guarded_rewrite_slots_total count first l :
  (forall k x, (first <= k < first + count)%nat -> l !! k = Some x -> is_Some (f k x)) ->
  is_Some (for_range count first guarded_rewrite_slot l).
Proof.
  revert first l. induction count as [| n IH]; intros first l Hf; simpl;
    [by eexists |].
  unfold guarded_rewrite_slot at 1. case_decide as Hlen; [by eexists |].
  destruct (lookup_lt_is_Some_2 l first ltac:(lia)) as [x Hx].
  destruct (Hf first x ltac:(lia) Hx) as [y Hy].
  unfold rewrite_slot, at_index. rewrite Hx. simpl. rewrite Hy. simpl.
  rewrite set_index_Some by lia. simpl.
  apply IH. intros k x' Hk Hx'. rewrite list_lookup_insert_ne in Hx' by lia.
  apply (Hf k x'); [lia | done].
Qed.

End PointwiseLoops.

(** ** The three loops of [applyMicrostructureToOutlines] *)

Section ApplyFacts.

Context `{L : Library}.
Variable gen : InterlockingGenerator.

Lemma finish_structure_lookup layer_regions structure r :
  finish_structure gen layer_regions structure = Some r ->
  length r = length structure
  /\ forall band, r !! band = structure !! band ≫= finished_band gen layer_regions band.
Proof.
  unfold finish_structure. intros Hrun.
  rewrite (for_range_ext _ _ _ (rewrite_slot (finished_band gen layer_regions))) in Hrun.
  - apply for_range_rewrite_slots in Hrun as [Hlen Hr]. split; [done |].
    intros k. rewrite Hr. case_decide as Hk; [done |].
    rewrite (lookup_ge_None_2 structure k) by lia. done.
  - intros k st _. unfold rewrite_slot, finished_band, at_index.
    destruct (st !! k) as [x |]; simpl; [| done].
    destruct (air_filtering gen); simpl; [done |].
    destruct (layer_regions !! k); simpl; done.
Qed.

Lemma finish_structure_total layer_regions structure :
  (air_filtering gen = false -> (length structure <= length layer_regions)%nat) ->
  is_Some (finish_structure gen layer_regions structure).
Proof.
  intros Hlen. unfold finish_structure.
  rewrite (for_range_ext _ _ _ (rewrite_slot (finished_band gen layer_regions))).
  - apply for_range_rewrite_slots_total; [lia |].
    intros k x [_ Hk] _. unfold finished_band.
    destruct (air_filtering gen); [by eexists |].
    destruct (lookup_lt_is_Some_2 layer_regions k) as [R ->]; [| by eexists].
    specialize (Hlen eq_refl). simpl in Hk. lia.
  - intros k st _. unfold rewrite_slot, finished_band, at_index.
    destruct (st !! k) as [x |]; simpl; [| done].
    destruct (air_filtering gen); simpl; [done |].
    destruct (layer_regions !! k); simpl; done.
Qed.

Lemma rewrite_layers_body own other k ls :
  (if decide (length ls <= k)%nat then Some (Break ls)
   else
     band ← udiv (Z.of_nat k) (wrapu64 (beam_layer_count gen));
     areas_here ← at_index own (Z.to_nat band);
     areas_other ← at_index other (Z.to_nat band);
     layer ← at_index ls k;
     ls' ← set_index ls k
             (set_polygons layer
                (difference (unionPolygons (polygons layer) areas_here) areas_other));
     Some (Continue ls'))
  = guarded_rewrite_slot (rewritten_layer gen own other) k ls.
Proof.
  unfold guarded_rewrite_slot, rewrite_slot, rewritten_layer, at_index.
  case_decide; [done |].
  destruct (udiv _ _) as [band |]; simpl; [| by destruct (ls !! k)].
  destruct (own !! Z.to_nat band); simpl; [| by destruct (ls !! k)].
  destruct (other !! Z.to_nat band); simpl; [| by destruct (ls !! k)].
  destruct (ls !! k); done.
Qed.

(** The third loop rewrites every layer the mesh has, provided the bound
    of the loop is at least the layer count, keeps the number of layers
    and leaves the rest of the mesh alone. *)
Lemma rewrite_layers_lookup max_layer_count own other m m' :
  rewrite_layers gen max_layer_count own other m = Some m' ->
  (length (layers m) <= max_layer_count)%nat ->
  mesh m' = mesh m
  /\ length (layers m') = length (layers m)
  /\ forall layer_nr,
       layers m' !! layer_nr
       = layers m !! layer_nr ≫= rewritten_layer gen own other layer_nr.
Proof.
  unfold rewrite_layers. intros Hrun Hmax.
  destruct (for_range _ _ _ _) as [ls |] eqn:Hloop; simpl in Hrun; [| done].
  injection Hrun as <-. simpl.
  rewrite (for_range_ext _ _ _ (guarded_rewrite_slot (rewritten_layer gen own other)))
    in Hloop by (intros; apply rewrite_layers_body).
  apply for_range_guarded_rewrite_slots in Hloop as [Hlen Hr].
  split; [done |]. split; [done |]. intros k. rewrite Hr.
  case_decide as Hk; [done |].
  rewrite (lookup_ge_None_2 (layers m) k) by lia. done.
Qed.

Lemma rewrite_layers_total max_layer_count own other m :
  (forall layer_nr layer, (layer_nr < max_layer_count)%nat ->
     layers m !! layer_nr = Some layer ->
     is_Some (rewritten_layer gen own other layer_nr layer)) ->
  is_Some (rewrite_layers gen max_layer_count own other m).
Proof.
  intros Hf. unfold rewrite_layers.
  rewrite (for_range_ext _ _ _ (guarded_rewrite_slot (rewritten_layer gen own other)))
    by (intros; apply rewrite_layers_body).
  destruct (for_range_guarded_rewrite_slots_total
              (rewritten_layer gen own other) max_layer_count 0 (layers m)) as [ls ->].
  - intros k x Hk. apply Hf. lia.
  - by eexists.
Qed.

Lemma stamp_beams_length fuel templates max_layer_count mesh_idx bottom_corner
    layer_nr structure r :
  stamp_beams gen fuel templates max_layer_count mesh_idx bottom_corner
    layer_nr structure = Some r ->
  length r = length structure.
Proof.
  revert layer_nr structure.
  induction fuel as [| fuel IH]; intros layer_nr structure; simpl.
  - destruct (_ && _); [done | by intros [= <-]].
  - destruct (_ && _); [| by intros [= <-]].
    destruct (cdiv _ _) as [band |]; simpl; [| done].
    destruct (umod _ _) as [parity |]; simpl; [| done].
    destruct (at_index templates _) as [row |]; simpl; [| done].
    destruct (at_index row _) as [areas |]; simpl; [| done].
    destruct (at_index structure _) as [slot |]; simpl; [| done].
    destruct (set_index _ _ _) as [structure' |] eqn:Hs; simpl; [| done].
    apply set_index_inv in Hs as [_ ->]. intros Hrun%IH.
    by rewrite Hrun, length_insert.
Qed.

End ApplyFacts.

(** ** No undefined behaviour with beams two layers high *)

Section BeamsTwoLayersHigh.

Context `{L : Library}.
Variable gen : InterlockingGenerator.
Hypothesis Hblc : beam_layer_count gen = 2.

Variable templates : list (list Polygons).
Hypothesis Htemplates : template_table_ok templates.

Variable max_layer_count : nat.
Hypothesis Hmax : Z.of_nat max_layer_count + 2 <= 2 ^ 32.

Lemma band_of_layer_lt layer_nr :
  0 <= layer_nr < Z.of_nat max_layer_count ->
  (Z.to_nat (layer_nr / 2) < band_count max_layer_count)%nat.
Proof.
  unfold band_count. intros Hl. apply Z2Nat.inj_lt; div_lia.
Qed.

Lemma stamp_beams_total fuel mesh_idx bottom_corner layer_nr structure :
  (mesh_idx < 2)%nat -> 0 <= layer_nr ->
  Z.of_nat max_layer_count - layer_nr <= Z.of_nat fuel ->
  length structure = band_count max_layer_count ->
  is_Some (stamp_beams gen fuel templates max_layer_count mesh_idx bottom_corner
             layer_nr structure).
Proof.
  intros Hmesh. revert layer_nr structure.
  induction fuel as [| fuel IH]; intros layer_nr structure Hpos Hfuel Hlen; simpl.
  - destruct (_ && _) eqn:E; [| by eexists].
    apply andb_true_iff in E as [_ E%Z.ltb_lt]. lia.
  - destruct (_ && _) eqn:E; [| by eexists].
    apply andb_true_iff in E as [_ E%Z.ltb_lt].
    rewrite Hblc, cdiv_Some by lia. simpl.
    rewrite Z.quot_div_nonneg by lia.
    assert (Hband : 0 <= layer_nr / 2 < 2 ^ 32) by div_lia.
    rewrite wrap64_small by int_lia.
    assert (Hu : wrapu64 (layer_nr / 2) = layer_nr / 2).
    { unfold wrapu64. apply Z.mod_small. lia. }
    rewrite Hu. destruct Htemplates as [Hrows Hcols]. rewrite Hrows.
    unfold umod. simpl. change (Z.of_nat 2) with 2.
    assert (Hpar : (Z.to_nat ((layer_nr / 2) mod 2) < 2)%nat).
    { pose proof (Z.mod_pos_bound (layer_nr / 2) 2 ltac:(lia)). lia. }
    unfold at_index.
    destruct (lookup_lt_is_Some_2 templates _ ltac:(rewrite Hrows; exact Hpar))
      as [row Hrow].
    rewrite Hrow. simpl.
    assert (Hrowlen : length row = 2%nat).
    { by eapply (proj1 (Forall_lookup _ _) Hcols). }
    destruct (lookup_lt_is_Some_2 row mesh_idx ltac:(lia)) as [areas ->]. simpl.
    pose proof (band_of_layer_lt layer_nr ltac:(lia)) as Hidx.
    destruct (lookup_lt_is_Some_2 structure (Z.to_nat (layer_nr / 2)) ltac:(lia))
      as [slot ->]. simpl.
    rewrite set_index_Some by lia. simpl.
    assert (Hnext : wrapu32 (layer_nr + 2) = layer_nr + 2).
    { unfold wrapu32. apply Z.mod_small. lia. }
    rewrite Hnext. apply IH; [lia | lia |].
    by rewrite length_insert.
Qed.

Lemma toLowerCorner_total (v : VoxelUtils) g : is_Some (toLowerCorner v g).
Proof. unfold toLowerCorner, toLowerCoord. simpl. by eexists. Qed.

Lemma wrapu32_nonneg v : 0 <= wrapu32 v.
Proof. unfold wrapu32. pose proof (Z.mod_pos_bound v (2 ^ 32)). lia. Qed.

Lemma stamp_cells_total cells s0 s1 :
  length s0 = band_count max_layer_count -> length s1 = band_count max_layer_count ->
  exists t0 t1,
    stamp_cells gen templates max_layer_count cells (s0, s1) = Some (t0, t1)
    /\ length t0 = band_count max_layer_count /\ length t1 = band_count max_layer_count.
Proof.
  intros H0 H1. unfold stamp_cells.
  set (I := fun st : list Polygons * list Polygons =>
              length st.1 = band_count max_layer_count /\ length st.2 = band_count max_layer_count).
  assert (Hstep : forall (x : GridPoint3) s', x ∈ cells -> I s' ->
    exists s'',
      (bottom_corner ← toLowerCorner (vu gen) x;
       t0 ← stamp_beams gen max_layer_count templates max_layer_count 0
              bottom_corner (wrapu32 (p3z bottom_corner)) s'.1;
       t1 ← stamp_beams gen max_layer_count templates max_layer_count 1
              bottom_corner (wrapu32 (p3z bottom_corner)) s'.2;
       Some (t0, t1)) = Some s'' /\ I s'').
  { intros x [u0 u1] _ [Hu0 Hu1]. cbn [fst snd] in *.
    destruct (toLowerCorner_total (vu gen) x) as [bc ->]. simpl.
    pose proof (wrapu32_nonneg (p3z bc)) as Hw.
    destruct (stamp_beams_total max_layer_count 0 bc (wrapu32 (p3z bc)) u0)
      as [t0 Ht0]; [lia | done | lia | done |].
    destruct (stamp_beams_total max_layer_count 1 bc (wrapu32 (p3z bc)) u1)
      as [t1 Ht1]; [lia | done | lia | done |].
    rewrite Ht0, Ht1. simpl. exists (t0, t1). split; [done |]. split; simpl.
    - by rewrite (stamp_beams_length _ _ _ _ _ _ _ _ _ Ht0).
    - by rewrite (stamp_beams_length _ _ _ _ _ _ _ _ _ Ht1). }
  destruct (for_each_is_Some I cells _ (s0, s1) (conj H0 H1) Hstep) as [[t0 t1] Hrun].
  exists t0, t1. split; [done |].
  apply (for_each_inv I _ _ _ _ Hrun (conj H0 H1)).
  intros x s' s'' Hx HI Hb. destruct (Hstep x s' Hx HI) as (s3 & Hb' & HI').
  rewrite Hb in Hb'. by injection Hb' as <-.
Qed.

End BeamsTwoLayersHigh.

Section BeamsTwoLayersHighRun.

Context `{L : Library}.
Variable gen : InterlockingGenerator.
Hypothesis Hblc : beam_layer_count gen = 2.

Variables mesh_a mesh_b : Slicer.

#[local] Abbreviation max_layer_count :=
  (length (layers mesh_a) `max` length (layers mesh_b))%nat.

Hypothesis Hmax : Z.of_nat max_layer_count + 2 <= 2 ^ 32.

Lemma udiv_two n : udiv n (wrapu64 2) = Some (n / 2).
Proof. reflexivity. Qed.

Lemma stamped_structures_total cells templates :
  template_table_ok templates ->
  exists t0 t1,
    stamped_structures gen cells templates mesh_a mesh_b = Some (t0, t1)
    /\ length t0 = band_count max_layer_count
    /\ length t1 = band_count max_layer_count.
Proof.
  intros Hok. unfold stamped_structures. rewrite Hblc, udiv_two. simpl.
  apply (stamp_cells_total gen Hblc templates Hok _ Hmax);
    by rewrite length_replicate.
Qed.

Lemma band_structures_total cells templates layer_regions :
  template_table_ok templates ->
  (air_filtering gen = false ->
   (band_count max_layer_count <= length layer_regions)%nat) ->
  exists t0 t1 s0 s1,
    stamped_structures gen cells templates mesh_a mesh_b = Some (t0, t1)
    /\ band_structures gen cells templates layer_regions mesh_a mesh_b = Some (s0, s1)
    /\ (length t0 = band_count max_layer_count /\ length t1 = band_count max_layer_count)
    /\ length s0 = band_count max_layer_count
    /\ length s1 = band_count max_layer_count
    /\ (forall band, s0 !! band = t0 !! band ≫= finished_band gen layer_regions band)
    /\ (forall band, s1 !! band = t1 !! band ≫= finished_band gen layer_regions band).
Proof.
  intros Hok Hreg.
  destruct (stamped_structures_total cells templates Hok) as (t0 & t1 & Ht & H0 & H1).
  unfold band_structures. rewrite Ht. simpl.
  destruct (finish_structure_total gen layer_regions t0) as [s0 Hs0];
    [intros Haf; rewrite H0; auto |].
  destruct (finish_structure_total gen layer_regions t1) as [s1 Hs1];
    [intros Haf; rewrite H1; auto |].
  rewrite Hs0, Hs1. simpl.
  apply finish_structure_lookup in Hs0 as [Hl0 Hk0].
  apply finish_structure_lookup in Hs1 as [Hl1 Hk1].
  exists t0, t1, s0, s1. repeat split; try done; congruence.
Qed.

Lemma rewritten_layer_two own other layer_nr layer :
  rewritten_layer gen own other layer_nr layer
  = areas_here ← own !! Z.to_nat (Z.of_nat layer_nr / 2);
    areas_other ← other !! Z.to_nat (Z.of_nat layer_nr / 2);
    Some (set_polygons layer
            (Spec.rewritten_polygons (polygons layer) areas_here areas_other)).
Proof. unfold rewritten_layer. by rewrite Hblc, udiv_two. Qed.

Lemma rewritten_layer_total own other layer_nr layer :
  length own = band_count max_layer_count ->
  length other = band_count max_layer_count ->
  (layer_nr < max_layer_count)%nat ->
  exists areas_here areas_other,
    own !! Z.to_nat (Z.of_nat layer_nr / 2) = Some areas_here
    /\ other !! Z.to_nat (Z.of_nat layer_nr / 2) = Some areas_other
    /\ rewritten_layer gen own other layer_nr layer
       = Some (set_polygons layer
                 (Spec.rewritten_polygons (polygons layer) areas_here areas_other)).
Proof.
  intros Hown Hother Hl.
  pose proof (band_of_layer_lt max_layer_count (Z.of_nat layer_nr) ltac:(lia)) as Hband.
  destruct (lookup_lt_is_Some_2 own _ ltac:(rewrite Hown; exact Hband)) as [h Hh].
  destruct (lookup_lt_is_Some_2 other _ ltac:(rewrite Hother; exact Hband)) as [o Ho].
  exists h, o. rewrite rewritten_layer_two, Hh, Ho. done.
Qed.

(** What one mesh looks like once the third loop has run over it with
    the structures [own] and [other]. *)
Lemma rewrite_layers_run own other m :
  (length (layers m) <= max_layer_count)%nat ->
  length own = band_count max_layer_count ->
  length other = band_count max_layer_count ->
  exists m',
    rewrite_layers gen max_layer_count own other m = Some m'
    /\ mesh m' = mesh m
    /\ length (layers m') = length (layers m)
    /\ forall layer_nr layer, layers m !! layer_nr = Some layer ->
         exists areas_here areas_other,
           own !! Z.to_nat (Z.of_nat layer_nr / 2) = Some areas_here
           /\ other !! Z.to_nat (Z.of_nat layer_nr / 2) = Some areas_other
           /\ layers m' !! layer_nr
              = Some (set_polygons layer
                        (Spec.rewritten_polygons (polygons layer)
                           areas_here areas_other)).
Proof.
  intros Hm Hown Hother.
  destruct (rewrite_layers_total gen max_layer_count own other m) as [m' Hrun].
  { intros k layer Hk _.
    destruct (rewritten_layer_total own other k layer Hown Hother Hk)
      as (h & o & _ & _ & ->). by eexists. }
  exists m'. split; [done |].
  destruct (rewrite_layers_lookup gen _ _ _ _ _ Hrun Hm) as (Hmesh & Hlen & Hk).
  split; [done |]. split; [done |].
  intros k layer Hlayer.
  assert (Hlt : (k < max_layer_count)%nat).
  { apply lookup_lt_Some in Hlayer. lia. }
  destruct (rewritten_layer_total own other k layer Hown Hother Hlt)
    as (h & o & Hh & Ho & Hr).
  exists h, o. split; [done |]. split; [done |].
  rewrite Hk, Hlayer. simpl. done.
Qed.

End BeamsTwoLayersHighRun.

(** ** The run of the generator on a pair the entry point selects *)

Section ProcessedPair.

Context `{L : Library}.

Lemma generateMicrostructure_Some (gen : InterlockingGenerator) :
  wrap64 ((beam_widths gen).1 + (beam_widths gen).2) <> 0 ->
  wrap64 ((beam_widths gen).1 + (beam_widths gen).2) <> -1 ->
  exists templates,
    generateMicrostructure gen = Some templates /\ template_table_ok templates.
Proof.
  intros Hsum Hsum'. unfold generateMicrostructure. rewrite cdiv_Some by done. simpl.
  eexists. split; [done |]. split; [done |]. repeat constructor.
Qed.

(** The beam widths of the entry point are even, and so is their sum. *)
Lemma beam_width_sum_even (mesh_a mesh_b : Slicer) :
  beam_width_sum mesh_a mesh_b <> -1.
Proof.
  unfold beam_width_sum, wrap64.
  generalize (wall_line_width_0 (mesh mesh_a)), (wall_line_width_0 (mesh mesh_b)).
  intros a b. change (2 ^ 63) with 9223372036854775808.
  change (2 ^ 64) with 18446744073709551616.
  Z.div_mod_to_equations. lia.
Qed.

Lemma generateMicrostructure_None (gen : InterlockingGenerator) :
  wrap64 ((beam_widths gen).1 + (beam_widths gen).2) = 0 ->
  generateMicrostructure gen = None.
Proof.
  intros Hsum. unfold generateMicrostructure. rewrite Hsum. done.
Qed.

Lemma length_computeLayerRegions gen mesh_a mesh_b :
  length (computeLayerRegions gen mesh_a mesh_b)
  = (length (layers mesh_a) `max` length (layers mesh_b) + 1)%nat.
Proof. unfold computeLayerRegions. by rewrite length_map, length_seq. Qed.

Lemma band_count_le n : (band_count n <= n + 1)%nat.
Proof. unfold band_count. apply Nat2Z.inj_le. rewrite Z2Nat.id; div_lia. Qed.

Variables mesh_a mesh_b : Slicer.

#[local] Abbreviation gen := (make_generator mesh_a mesh_b).
#[local] Abbreviation layer_regions := (computeLayerRegions gen mesh_a mesh_b).

(** Without a zero divisor the generator of a selected pair runs through,
    and every intermediate result is the one its loops describe. *)
Lemma processed_pair_run :
  beam_width_sum mesh_a mesh_b <> 0 ->
  layer_count_ok mesh_a mesh_b ->
  exists S_a S_b templates t0 t1 s0 s1 mesh_a' mesh_b',
    getShellVoxels gen mesh_a mesh_b (interface_dilation gen) = Some (S_a, S_b)
    /\ stamping_cells gen mesh_a mesh_b = Some (S_a ∩ S_b)
    /\ generateMicrostructure gen = Some templates
    /\ stamped_structures gen (S_a ∩ S_b) templates mesh_a mesh_b = Some (t0, t1)
    /\ band_structures gen (S_a ∩ S_b) templates layer_regions mesh_a mesh_b
       = Some (s0, s1)
    /\ (length t0 = band_count (length (layers mesh_a) `max` length (layers mesh_b))
        /\ length t1 = band_count (length (layers mesh_a) `max` length (layers mesh_b)))
    /\ (forall band, s0 !! band = t0 !! band ≫= finished_band gen layer_regions band)
    /\ (forall band, s1 !! band = t1 !! band ≫= finished_band gen layer_regions band)
    /\ generateInterlockingStructure gen mesh_a mesh_b = Some (mesh_a', mesh_b')
    /\ (mesh mesh_a' = mesh mesh_a /\ length (layers mesh_a') = length (layers mesh_a))
    /\ (mesh mesh_b' = mesh mesh_b /\ length (layers mesh_b') = length (layers mesh_b))
    /\ (forall layer_nr layer, layers mesh_a !! layer_nr = Some layer ->
          exists own other,
            s0 !! Z.to_nat (Z.of_nat layer_nr / 2) = Some own
            /\ s1 !! Z.to_nat (Z.of_nat layer_nr / 2) = Some other
            /\ layers mesh_a' !! layer_nr
               = Some (set_polygons layer
                         (Spec.rewritten_polygons (polygons layer) own other)))
    /\ (forall layer_nr layer, layers mesh_b !! layer_nr = Some layer ->
          exists own other,
            s1 !! Z.to_nat (Z.of_nat layer_nr / 2) = Some own
            /\ s0 !! Z.to_nat (Z.of_nat layer_nr / 2) = Some other
            /\ layers mesh_b' !! layer_nr
               = Some (set_polygons layer
                         (Spec.rewritten_polygons (polygons layer) own other))).
Proof.
  intros Hsum Hcount.
  destruct (getShellVoxels_total gen mesh_a mesh_b (interface_dilation gen))
    as (S_a & S_b & Hshell).
  pose proof (stamping_cells_value gen _ _ _ _ Hshell) as Hcells.
  change (air_filtering gen) with false in Hcells.
  destruct (generateMicrostructure_Some gen Hsum (beam_width_sum_even mesh_a mesh_b))
    as (templates & Htpl & Hok).
  destruct (band_structures_total gen eq_refl mesh_a mesh_b Hcount (S_a ∩ S_b)
              templates layer_regions Hok)
    as (t0 & t1 & s0 & s1 & Ht & Hs & Hlt & Hl0 & Hl1 & Hk0 & Hk1).
  { intros _. rewrite length_computeLayerRegions. apply band_count_le. }
  destruct (rewrite_layers_run gen eq_refl mesh_a mesh_b Hcount s0 s1 mesh_a
              ltac:(lia) Hl0 Hl1) as (a' & Ha & Hma & Hla & Hra).
  destruct (rewrite_layers_run gen eq_refl mesh_a mesh_b Hcount s1 s0 mesh_b
              ltac:(lia) Hl1 Hl0) as (b' & Hb & Hmb & Hlb & Hrb).
  exists S_a, S_b, templates, t0, t1, s0, s1, a', b'.
  repeat (split; [done |]).
  split; [| done].
  unfold generateInterlockingStructure. rewrite Hcells. simpl.
  rewrite Htpl. simpl. unfold applyMicrostructureToOutlines.
  rewrite Hs. simpl. rewrite Ha. simpl. rewrite Hb. done.
Qed.

End ProcessedPair.

(** ** The claims about one processed pair *)

(** Claim C7.  The cells that are stamped, before the optional removal of
    air cells, are exactly the intersection of the two shells that
    [getShellVoxels] returns: merging the shell of mesh b into the shell
    of mesh a leaves the union in the first set and the intersection in
    the second, and the second is what the generator goes on with. *)
Theorem merge_leaves_the_contact_cells `{L : Library}
    (gen : InterlockingGenerator) (mesh_a mesh_b : Slicer) :
  exists S_a S_b,
    getShellVoxels gen mesh_a mesh_b (interface_dilation gen) = Some (S_a, S_b)
    /\ merge S_a S_b = (S_a ∪ S_b, Spec.contact S_a S_b)
    /\ stamping_cells gen mesh_a mesh_b
       = if air_filtering gen
         then air_cells ← addBoundaryCells gen (computeLayerRegions gen mesh_a mesh_b)
                            (air_dilation gen) ∅;
              Some (Spec.contact S_a S_b ∖ air_cells)
         else Some (Spec.contact S_a S_b).
Proof.
  destruct (getShellVoxels_total gen mesh_a mesh_b (interface_dilation gen))
    as (S_a & S_b & Hshell).
  exists S_a, S_b. split; [done |]. split.
  - apply merge_union_intersection.
  - by apply stamping_cells_value.
Qed.

(** Claim C2.  On a pair the entry point processes, every layer [ℓ] a
    mesh has is rewritten to (old polygons ∪ own structure) − other
    structure, where the two structures are those stored for band
    [ℓ / beam_layer_count]: what the stamping loop left in that band for
    the mesh, after [unionPolygons()], the clip with the layer region
    that the generator takes for the band (the entry point builds no
    generator that filters air, so the clip is not skipped) and the
    rotation back. *)
Theorem layers_rewritten_with_band_structures `{L : Library}
    (mesh_a mesh_b : Slicer) :
  beam_width_sum mesh_a mesh_b <> 0 ->
  layer_count_ok mesh_a mesh_b ->
  let gen := make_generator mesh_a mesh_b in
  let layer_regions := computeLayerRegions gen mesh_a mesh_b in
  let band := fun layer_nr : nat => Z.to_nat (Z.of_nat layer_nr / beam_layer_count gen) in
  let finished := fun (layer_region stamped : Polygons) =>
    applyMatrix (intersection layer_region (unionPolygons_self stamped))
      (PointMatrix_inverse (rotation gen)) in
  exists cells templates t0 t1 s0 s1 mesh_a' mesh_b',
    stamping_cells gen mesh_a mesh_b = Some cells
    /\ generateMicrostructure gen = Some templates
    /\ stamped_structures gen cells templates mesh_a mesh_b = Some (t0, t1)
    /\ band_structures gen cells templates layer_regions mesh_a mesh_b = Some (s0, s1)
    /\ generateInterlockingStructure gen mesh_a mesh_b = Some (mesh_a', mesh_b')
    /\ air_filtering gen = false
    /\ (forall layer_nr layer, layers mesh_a !! layer_nr = Some layer ->
          exists own other stamped_own stamped_other layer_region,
            s0 !! band layer_nr = Some own /\ s1 !! band layer_nr = Some other
            /\ t0 !! band layer_nr = Some stamped_own
            /\ t1 !! band layer_nr = Some stamped_other
            /\ layer_regions !! band layer_nr = Some layer_region
            /\ finished_band gen layer_regions (band layer_nr) stamped_own = Some own
            /\ finished_band gen layer_regions (band layer_nr) stamped_other = Some other
            /\ own = finished layer_region stamped_own
            /\ other = finished layer_region stamped_other
            /\ polygons <$> layers mesh_a' !! layer_nr
               = Some (Spec.rewritten_polygons (polygons layer) own other))
    /\ (forall layer_nr layer, layers mesh_b !! layer_nr = Some layer ->
          exists own other stamped_own stamped_other layer_region,
            s1 !! band layer_nr = Some own /\ s0 !! band layer_nr = Some other
            /\ t1 !! band layer_nr = Some stamped_own
            /\ t0 !! band layer_nr = Some stamped_other
            /\ layer_regions !! band layer_nr = Some layer_region
            /\ finished_band gen layer_regions (band layer_nr) stamped_own = Some own
            /\ finished_band gen layer_regions (band layer_nr) stamped_other = Some other
            /\ own = finished layer_region stamped_own
            /\ other = finished layer_region stamped_other
            /\ polygons <$> layers mesh_b' !! layer_nr
               = Some (Spec.rewritten_polygons (polygons layer) own other)).
Proof.
  intros Hsum Hcount gen layer_regions band finished.
  destruct (processed_pair_run mesh_a mesh_b Hsum Hcount)
    as (S_a & S_b & templates & t0 & t1 & s0 & s1 & a' & b' & _ & Hcells & Htpl
        & Ht & Hs & _ & Hk0 & Hk1 & Hrun & _ & _ & Hra & Hrb).
  exists (S_a ∩ S_b), templates, t0, t1, s0, s1, a', b'.
  repeat (split; [done |]).
  assert (Hfinished : forall (t s : list Polygons) (n : nat) (C : Polygons),
             (forall band, s !! band = t !! band ≫= finished_band gen layer_regions band) ->
             s !! n = Some C ->
             exists stamped layer_region,
               t !! n = Some stamped
               /\ layer_regions !! n = Some layer_region
               /\ finished_band gen layer_regions n stamped = Some C
               /\ C = finished layer_region stamped).
  { intros t s n C Hfin HC. rewrite Hfin in HC.
    destruct (t !! n) as [stamped |]; [| done]. cbn [mbind option_bind] in HC.
    exists stamped. revert HC. unfold finished_band.
    change (air_filtering gen) with false. cbv iota.
    destruct (layer_regions !! n) as [layer_region |]; [| done].
    cbn [mbind option_bind]. intros [= <-]. by exists layer_region. }
  assert (Hlayer : forall (own_t other_t own_s other_s : list Polygons) (m m' : Slicer),
             (forall band, own_s !! band
                           = own_t !! band ≫= finished_band gen layer_regions band) ->
             (forall band, other_s !! band
                           = other_t !! band ≫= finished_band gen layer_regions band) ->
             (forall layer_nr layer, layers m !! layer_nr = Some layer ->
                exists own other,
                  own_s !! Z.to_nat (Z.of_nat layer_nr / 2) = Some own
                  /\ other_s !! Z.to_nat (Z.of_nat layer_nr / 2) = Some other
                  /\ layers m' !! layer_nr
                     = Some (set_polygons layer
                               (Spec.rewritten_polygons (polygons layer) own other))) ->
             forall layer_nr layer, layers m !! layer_nr = Some layer ->
               exists own other stamped_own stamped_other layer_region,
                 own_s !! band layer_nr = Some own /\ other_s !! band layer_nr = Some other
                 /\ own_t !! band layer_nr = Some stamped_own
                 /\ other_t !! band layer_nr = Some stamped_other
                 /\ layer_regions !! band layer_nr = Some layer_region
                 /\ finished_band gen layer_regions (band layer_nr) stamped_own = Some own
                 /\ finished_band gen layer_regions (band layer_nr) stamped_other
                    = Some other
                 /\ own = finished layer_region stamped_own
                 /\ other = finished layer_region stamped_other
                 /\ polygons <$> layers m' !! layer_nr
                    = Some (Spec.rewritten_polygons (polygons layer) own other)).
  { intros own_t other_t own_s other_s m m' Hown Hother Hr k layer Hk.
    destruct (Hr k layer Hk) as (own & other & H0 & H1 & Hl).
    change (Z.to_nat (Z.of_nat k / 2)) with (band k) in H0, H1.
    destruct (Hfinished own_t own_s (band k) own Hown H0)
      as (stamped_own & region & Hto & Hregion & Hfo & Eo).
    destruct (Hfinished other_t other_s (band k) other Hother H1)
      as (stamped_other & region' & Htt & Hregion' & Hft & Et).
    assert (region' = region) as -> by congruence.
    exists own, other, stamped_own, stamped_other, region.
    repeat (split; [done |]). by rewrite Hl. }
  split; [by apply (Hlayer t0 t1 s0 s1) | by apply (Hlayer t1 t0 s1 s0)].
Qed.

(** Claim C9.  On a processed pair the generator runs without reading or
    writing outside a vector, each mesh keeps its number of layers, so
    that no layer index at or above the layer count of a mesh exists in
    the rewritten mesh, however tall the other mesh is; the height and
    the settings of every layer stay, and a mesh without layers is
    returned without layers. *)
Theorem only_existing_layers_rewritten `{L : Library} (mesh_a mesh_b : Slicer) :
  beam_width_sum mesh_a mesh_b <> 0 ->
  layer_count_ok mesh_a mesh_b ->
  exists mesh_a' mesh_b',
    generateInterlockingStructure (make_generator mesh_a mesh_b) mesh_a mesh_b
    = Some (mesh_a', mesh_b')
    /\ mesh mesh_a' = mesh mesh_a /\ mesh mesh_b' = mesh mesh_b
    /\ length (layers mesh_a') = length (layers mesh_a)
    /\ length (layers mesh_b') = length (layers mesh_b)
    /\ (forall layer_nr, (length (layers mesh_a) <= layer_nr)%nat ->
          layers mesh_a' !! layer_nr = None)
    /\ (forall layer_nr, (length (layers mesh_b) <= layer_nr)%nat ->
          layers mesh_b' !! layer_nr = None)
    /\ z <$> layers mesh_a' = z <$> layers mesh_a
    /\ z <$> layers mesh_b' = z <$> layers mesh_b
    /\ (layers mesh_a = [] -> mesh_a' = mesh_a)
    /\ (layers mesh_b = [] -> mesh_b' = mesh_b).
Proof.
  intros Hsum Hcount.
  destruct (processed_pair_run mesh_a mesh_b Hsum Hcount)
    as (S_a & S_b & templates & t0 & t1 & s0 & s1 & a' & b' & _ & _ & _
        & _ & _ & _ & _ & _ & Hrun & [Hma Hla] & [Hmb Hlb] & Hra & Hrb).
  assert (Hz : forall (m m' : Slicer) (s t : list Polygons),
             length (layers m') = length (layers m) ->
             (forall layer_nr layer, layers m !! layer_nr = Some layer ->
                exists own other,
                  s !! Z.to_nat (Z.of_nat layer_nr / 2) = Some own
                  /\ t !! Z.to_nat (Z.of_nat layer_nr / 2) = Some other
                  /\ layers m' !! layer_nr
                     = Some (set_polygons layer
                               (Spec.rewritten_polygons (polygons layer) own other))) ->
             z <$> layers m' = z <$> layers m).
  { intros m m' s t Hl Hr. apply list_eq. intros k. rewrite !list_lookup_fmap.
    destruct (layers m !! k) as [layer |] eqn:Hk.
    - destruct (Hr k layer Hk) as (own & other & _ & _ & ->). done.
    - rewrite (lookup_ge_None_2 (layers m') k); [done |].
      apply lookup_ge_None_1 in Hk. lia. }
  assert (Hnil : forall m m' : Slicer,
             mesh m' = mesh m -> length (layers m') = length (layers m) ->
             layers m = [] -> m' = m).
  { intros [mm lm] [mm' lm']. simpl. intros -> Hl ->.
    destruct lm'; [done | simpl in Hl; lia]. }
  exists a', b'. split; [done |].
  split; [done |]. split; [done |]. split; [done |]. split; [done |].
  split; [intros k Hk; apply lookup_ge_None_2; lia |].
  split; [intros k Hk; apply lookup_ge_None_2; lia |].
  split; [by eapply Hz |]. split; [by eapply Hz |].
  split; by apply Hnil.
Qed.

(** Claim C10.  The entry point builds every generator with
    [boundary_avoidance = 0], so [air_filtering] is false on every pair
    it processes: no air cell is removed from the contact cells, and the
    structure stored for a band is the un-rotated intersection of a layer
    region with the union of the polygons stamped into the band. *)
Theorem entry_point_never_filters_air `{L : Library} (mesh_a mesh_b : Slicer) :
  beam_width_sum mesh_a mesh_b <> 0 ->
  layer_count_ok mesh_a mesh_b ->
  let gen := make_generator mesh_a mesh_b in
  let layer_regions := computeLayerRegions gen mesh_a mesh_b in
  let unapply_rotation := PointMatrix_inverse (rotation gen) in
  air_filtering gen = false
  /\ exists S_a S_b templates t0 t1 s0 s1,
       getShellVoxels gen mesh_a mesh_b (interface_dilation gen) = Some (S_a, S_b)
       /\ stamping_cells gen mesh_a mesh_b = Some (S_a ∩ S_b)
       /\ generateMicrostructure gen = Some templates
       /\ stamped_structures gen (S_a ∩ S_b) templates mesh_a mesh_b = Some (t0, t1)
       /\ band_structures gen (S_a ∩ S_b) templates layer_regions mesh_a mesh_b
          = Some (s0, s1)
       /\ length s0 = length t0 /\ length s1 = length t1
       /\ (forall band stamped, t0 !! band = Some stamped ->
             exists layer_region,
               layer_regions !! band = Some layer_region
               /\ s0 !! band
                  = Some (applyMatrix
                            (intersection layer_region (unionPolygons_self stamped))
                            unapply_rotation))
       /\ (forall band stamped, t1 !! band = Some stamped ->
             exists layer_region,
               layer_regions !! band = Some layer_region
               /\ s1 !! band
                  = Some (applyMatrix
                            (intersection layer_region (unionPolygons_self stamped))
                            unapply_rotation)).
Proof.
  intros Hsum Hcount gen layer_regions unapply_rotation. split; [done |].
  destruct (processed_pair_run mesh_a mesh_b Hsum Hcount)
    as (S_a & S_b & templates & t0 & t1 & s0 & s1 & a' & b' & Hshell & Hcells & Htpl
        & Ht & Hs & [Hl0 Hl1] & Hk0 & Hk1 & _).
  assert (Hband : forall (t s : list Polygons),
             length t = band_count (length (layers mesh_a) `max` length (layers mesh_b)) ->
             (forall band, s !! band = t !! band ≫= finished_band gen layer_regions band) ->
             forall band stamped, t !! band = Some stamped ->
               exists layer_region,
                 layer_regions !! band = Some layer_region
                 /\ s !! band
                    = Some (applyMatrix
                              (intersection layer_region (unionPolygons_self stamped))
                              unapply_rotation)).
  { intros t s Hl Hk band stamped Hb.
    assert (Hlt : (band < length layer_regions)%nat).
    { apply lookup_lt_Some in Hb. unfold layer_regions.
      rewrite length_computeLayerRegions.
      pose proof (band_count_le (length (layers mesh_a) `max` length (layers mesh_b))).
      lia. }
    destruct (lookup_lt_is_Some_2 _ _ Hlt) as [R HR].
    exists R. split; [done |]. rewrite Hk, Hb. simpl.
    unfold finished_band. change (air_filtering gen) with false. cbv iota.
    rewrite HR. done. }
  assert (Hlen : forall (t s : list Polygons),
             (forall band, s !! band = t !! band ≫= finished_band gen layer_regions band) ->
             length t = band_count (length (layers mesh_a) `max` length (layers mesh_b)) ->
             length s = length t).
  { intros t s Hk Hl. apply Nat.le_antisymm.
    - apply Nat.nlt_ge. intros Hlt.
      destruct (lookup_lt_is_Some_2 s (length t) Hlt) as [x Hx].
      rewrite Hk, (lookup_ge_None_2 t) in Hx by lia. done.
    - apply Nat.nlt_ge. intros Hlt.
      destruct (lookup_lt_is_Some_2 t (length s) Hlt) as [x Hx].
      destruct (Hband t s Hl Hk _ _ Hx) as (R & _ & Hs').
      apply lookup_lt_Some in Hs'. lia. }
  exists S_a, S_b, templates, t0, t1, s0, s1.
  repeat (split; [done |]).
  split; [by apply Hlen |]. split; [by apply Hlen |].
  split; by apply Hband.
Qed.

(** ** The implementation with boxes keeps the promises of the engine *)

Module BoxesFacts.

Import Boxes.

Ltac bool_lia :=
  apply Bool.eq_iff_eq_true;
  repeat first
    [ rewrite orb_true_iff | rewrite andb_true_iff | rewrite negb_true_iff
    | rewrite andb_false_iff | rewrite orb_false_iff
    | rewrite Z.leb_le | rewrite Z.ltb_lt | rewrite Z.leb_gt | rewrite Z.ltb_ge ];
  lia.

Lemma box_of_path_of b :
  box_nonempty b = true -> box_of (path_of b) = b.
Proof.
  destruct b as [[[x0 y0] x1] y1]. unfold box_nonempty, box_of, path_of.
  intros [Hx%Z.ltb_lt Hy%Z.ltb_lt]%andb_true_iff.
  unfold min_X, min_Y, max_X, max_Y. simpl. repeat f_equal; lia.
Qed.

Lemma box_covers_empty b pt : box_nonempty b = false -> box_covers b pt = false.
Proof.
  destruct b as [[[x0 y0] x1] y1], pt as [x y]. unfold box_nonempty, box_covers.
  simpl. intros [H | H]%andb_false_iff; apply Z.ltb_ge in H; bool_lia.
Qed.

Lemma covers_of_boxes bs pt :
  covers_b (of_boxes bs) pt = existsb (fun b => box_covers b pt) bs.
Proof.
  unfold covers_b, of_boxes, boxes. induction bs as [| b bs IH]; [done |].
  rewrite filter_cons. case_decide as Hb; cbn [map existsb].
  - rewrite IH, box_of_path_of by done. done.
  - rewrite IH. apply not_true_is_false in Hb. by rewrite box_covers_empty.
Qed.

Lemma box_minus_covers b c pt :
  existsb (fun d => box_covers d pt) (box_minus b c)
  = box_covers b pt && negb (box_covers c pt).
Proof.
  destruct b as [[[x0 y0] x1] y1], c as [[[u0 v0] u1] v1], pt as [x y].
  unfold box_minus, box_covers. simpl. bool_lia.
Qed.

Lemma covers_minus_box c bs pt :
  existsb (fun d => box_covers d pt) (b ← bs; box_minus b c)
  = existsb (fun d => box_covers d pt) bs && negb (box_covers c pt).
Proof.
  induction bs as [| b bs IH]; [done |].
  change ((b :: bs) ≫= (fun b => box_minus b c))
    with (box_minus b c ++ (bs ≫= (fun b => box_minus b c))).
  rewrite existsb_app, IH, box_minus_covers. simpl.
  by destruct (box_covers b pt), (box_covers c pt), (existsb _ bs).
Qed.

Lemma covers_minus_boxes cs bs pt :
  existsb (fun d => box_covers d pt) (foldl (fun bs c => b ← bs; box_minus b c) bs cs)
  = existsb (fun d => box_covers d pt) bs
    && negb (existsb (fun d => box_covers d pt) cs).
Proof.
  revert bs. induction cs as [| c cs IH]; intros bs; simpl.
  - by rewrite andb_true_r.
  - rewrite IH, covers_minus_box.
    by destruct (existsb _ bs), (box_covers c pt), (existsb _ cs).
Qed.

Lemma boxes_cover_union ps qs pt :
  covers_b (b_union ps qs) pt = covers_b ps pt || covers_b qs pt.
Proof. unfold b_union. rewrite covers_of_boxes, existsb_app. done. Qed.

Lemma boxes_cover_difference ps qs pt :
  covers_b (b_difference ps qs) pt = covers_b ps pt && negb (covers_b qs pt).
Proof. unfold b_difference. rewrite covers_of_boxes, covers_minus_boxes. done. Qed.

Lemma box_inter_covers b c pt :
  box_covers (box_inter b c) pt = box_covers b pt && box_covers c pt.
Proof.
  destruct b as [[[x0 y0] x1] y1], c as [[[u0 v0] u1] v1], pt as [x y].
  unfold box_inter, box_covers. simpl. bool_lia.
Qed.

Lemma covers_inter_box b cs pt :
  existsb (fun d => box_covers d pt) (c ← cs; [box_inter b c])
  = box_covers b pt && existsb (fun d => box_covers d pt) cs.
Proof.
  induction cs as [| c cs IH]; [by rewrite andb_false_r |].
  change ((c :: cs) ≫= (fun c => [box_inter b c]))
    with (box_inter b c :: (cs ≫= (fun c => [box_inter b c]))).
  cbn [existsb]. rewrite IH, box_inter_covers.
  by destruct (box_covers b pt), (box_covers c pt), (existsb _ cs).
Qed.

Lemma covers_inter_boxes bs cs pt :
  existsb (fun d => box_covers d pt) (b ← bs; c ← cs; [box_inter b c])
  = existsb (fun d => box_covers d pt) bs && existsb (fun d => box_covers d pt) cs.
Proof.
  induction bs as [| b bs IH]; [done |].
  change ((b :: bs) ≫= (fun b => c ← cs; [box_inter b c]))
    with ((c ← cs; [box_inter b c]) ++ (bs ≫= (fun b => c ← cs; [box_inter b c]))).
  rewrite existsb_app, IH, covers_inter_box. cbn [existsb].
  by destruct (box_covers b pt), (existsb _ bs), (existsb _ cs).
Qed.

Lemma boxes_cover_intersection ps qs pt :
  covers_b (b_intersection ps qs) pt = covers_b ps pt && covers_b qs pt.
Proof. unfold b_intersection. rewrite covers_of_boxes, covers_inter_boxes. done. Qed.

Lemma region_laws : RegionLaws region.
Proof.
  split; [by intros pt | intros p q pt; simpl .. | by intros p q m Hpq pt; apply Hpq].
  - rewrite boxes_cover_union. apply orb_true_iff.
  - rewrite boxes_cover_difference, andb_true_iff, negb_true_iff.
    by rewrite not_true_iff_false.
  - rewrite boxes_cover_intersection. apply andb_true_iff.
Qed.

End BoxesFacts.

(** ** The volume of a processed pair *)

(** Claim C1, as the code has it.  On a processed pair and on every layer
    [ℓ] that one of the meshes has, with [A] and [B] the structures
    stored for band [ℓ / beam_layer_count] of mesh a and mesh b and [E]
    the layer region these structures were clipped with, rotated back:
    both structures lie inside [E], so the rewritten outlines cover
    nothing beyond the old outlines of the layer and [E]; and they
    overlap exactly where the old outlines overlapped outside both
    structures. *)
Theorem rewritten_outlines_and_structures `{L : Library} {Pt : Type}
    (R : Region L Pt) (mesh_a mesh_b : Slicer) :
  RegionLaws R ->
  beam_width_sum mesh_a mesh_b <> 0 ->
  layer_count_ok mesh_a mesh_b ->
  let gen := make_generator mesh_a mesh_b in
  let band := fun layer_nr : nat => Z.to_nat (Z.of_nat layer_nr / beam_layer_count gen) in
  exists cells templates s0 s1 mesh_a' mesh_b',
    stamping_cells gen mesh_a mesh_b = Some cells
    /\ generateMicrostructure gen = Some templates
    /\ band_structures gen cells templates (computeLayerRegions gen mesh_a mesh_b)
         mesh_a mesh_b = Some (s0, s1)
    /\ generateInterlockingStructure gen mesh_a mesh_b = Some (mesh_a', mesh_b')
    /\ forall layer_nr,
         (layer_nr < length (layers mesh_a) `max` length (layers mesh_b))%nat ->
         exists A B region,
           s0 !! band layer_nr = Some A /\ s1 !! band layer_nr = Some B
           /\ computeLayerRegions gen mesh_a mesh_b !! band layer_nr = Some region
           /\ (forall pt,
                 covers A pt \/ covers B pt ->
                 covers (applyMatrix region (PointMatrix_inverse (rotation gen))) pt)
           /\ (forall pt,
                 covers (outline mesh_a' layer_nr) pt
                 \/ covers (outline mesh_b' layer_nr) pt ->
                 covers (outline mesh_a layer_nr) pt
                 \/ covers (outline mesh_b layer_nr) pt
                 \/ covers A pt \/ covers B pt)
           /\ (forall pt,
                 covers (outline mesh_a' layer_nr) pt
                 \/ covers (outline mesh_b' layer_nr) pt ->
                 covers (outline mesh_a layer_nr) pt
                 \/ covers (outline mesh_b layer_nr) pt
                 \/ covers (applyMatrix region (PointMatrix_inverse (rotation gen))) pt)
           /\ (forall pt,
                 covers (outline mesh_a' layer_nr) pt
                 /\ covers (outline mesh_b' layer_nr) pt
                 <-> covers (outline mesh_a layer_nr) pt
                     /\ covers (outline mesh_b layer_nr) pt
                     /\ ~ covers A pt /\ ~ covers B pt).
Proof.
  intros [Hempty Hunion Hdiff Hinter Hmatrix] Hsum Hcount gen band.
  destruct (processed_pair_run mesh_a mesh_b Hsum Hcount)
    as (S_a & S_b & templates & t0 & t1 & s0 & s1 & a' & b' & _ & Hcells & Htpl
        & _ & Hs & _ & Hk0 & Hk1 & Hrun & [_ Hla] & [_ Hlb] & Hra & Hrb).
  exists (S_a ∩ S_b), templates, s0, s1, a', b'.
  repeat (split; [done |]).
  intros k Hk.
  assert (Hnone : forall m m' : Slicer,
             length (layers m') = length (layers m) ->
             layers m !! k = None -> outline m k = [] /\ outline m' k = []).
  { intros m m' Hl Hn. unfold outline. rewrite Hn.
    rewrite (lookup_ge_None_2 (layers m')); [done |].
    apply lookup_ge_None_1 in Hn. lia. }
  assert (Hsome : forall (m m' : Slicer) layer own other,
             layers m !! k = Some layer ->
             layers m' !! k
             = Some (set_polygons layer
                       (Spec.rewritten_polygons (polygons layer) own other)) ->
             forall pt, covers (outline m' k) pt
                        <-> (covers (outline m k) pt \/ covers own pt)
                            /\ ~ covers other pt).
  { intros m m' layer own other Hm Hm' pt. unfold outline. rewrite Hm, Hm'. simpl.
    unfold Spec.rewritten_polygons. by rewrite Hdiff, Hunion. }
  assert (Hclip : forall (t s : list Polygons) (n : nat) (C : Polygons),
             (forall band, s !! band
                           = t !! band
                             ≫= finished_band gen (computeLayerRegions gen mesh_a mesh_b)
                                  band) ->
             s !! n = Some C ->
             exists region,
               computeLayerRegions gen mesh_a mesh_b !! n = Some region
               /\ forall pt, covers C pt ->
                    covers (applyMatrix region (PointMatrix_inverse (rotation gen))) pt).
  { intros t s n C Hfin HC. rewrite Hfin in HC.
    destruct (t !! n) as [stamped |]; [| done]. cbn [mbind option_bind] in HC.
    unfold finished_band in HC. change (air_filtering gen) with false in HC.
    cbv iota in HC.
    destruct (computeLayerRegions gen mesh_a mesh_b !! n) as [region |]; [| done].
    cbn [mbind option_bind] in HC. injection HC as <-.
    exists region. split; [done |].
    apply Hmatrix. intros pt Hpt. by apply Hinter in Hpt as [Hpt _]. }
  assert (Hend : forall A B,
             s0 !! band k = Some A -> s1 !! band k = Some B ->
             (forall pt,
                covers (outline a' k) pt \/ covers (outline b' k) pt ->
                covers (outline mesh_a k) pt \/ covers (outline mesh_b k) pt
                \/ covers A pt \/ covers B pt) ->
             (forall pt,
                covers (outline a' k) pt /\ covers (outline b' k) pt
                <-> covers (outline mesh_a k) pt /\ covers (outline mesh_b k) pt
                    /\ ~ covers A pt /\ ~ covers B pt) ->
             exists A B region,
               s0 !! band k = Some A /\ s1 !! band k = Some B
               /\ computeLayerRegions gen mesh_a mesh_b !! band k = Some region
               /\ (forall pt,
                     covers A pt \/ covers B pt ->
                     covers (applyMatrix region (PointMatrix_inverse (rotation gen))) pt)
               /\ (forall pt,
                     covers (outline a' k) pt \/ covers (outline b' k) pt ->
                     covers (outline mesh_a k) pt \/ covers (outline mesh_b k) pt
                     \/ covers A pt \/ covers B pt)
               /\ (forall pt,
                     covers (outline a' k) pt \/ covers (outline b' k) pt ->
                     covers (outline mesh_a k) pt \/ covers (outline mesh_b k) pt
                     \/ covers (applyMatrix region
                                  (PointMatrix_inverse (rotation gen))) pt)
               /\ (forall pt,
                     covers (outline a' k) pt /\ covers (outline b' k) pt
                     <-> covers (outline mesh_a k) pt /\ covers (outline mesh_b k) pt
                         /\ ~ covers A pt /\ ~ covers B pt)).
  { intros A B HA HB Hbound Hiff.
    destruct (Hclip t0 s0 (band k) A Hk0 HA) as (region & Hregion & HAin).
    destruct (Hclip t1 s1 (band k) B Hk1 HB) as (region' & Hregion' & HBin).
    assert (region' = region) as -> by congruence.
    exists A, B, region. repeat (split; [done |]).
    split; [intros pt [H | H]; auto |]. split; [done |]. split; [| done].
    intros pt Hpt. destruct (Hbound pt Hpt) as [H | [H | [H | H]]]; auto. }
  destruct (layers mesh_a !! k) as [la |] eqn:Ha;
    destruct (layers mesh_b !! k) as [lb |] eqn:Hb.
  - destruct (Hra k la Ha) as (A & B & HA & HB & Ha').
    destruct (Hrb k lb Hb) as (B' & A' & HB' & HA' & Hb').
    assert (A' = A) as -> by congruence. assert (B' = B) as -> by congruence.
    pose proof (Hsome mesh_a a' la A B Ha Ha') as Ea.
    pose proof (Hsome mesh_b b' lb B A Hb Hb') as Eb.
    apply (Hend A B HA HB); intros pt; rewrite Ea, Eb; tauto.
  - destruct (Hra k la Ha) as (A & B & HA & HB & Ha').
    destruct (Hnone mesh_b b' Hlb Hb) as [Eb Eb'].
    pose proof (Hsome mesh_a a' la A B Ha Ha') as Ea.
    apply (Hend A B HA HB); intros pt; rewrite Ea, Eb, Eb'; pose proof (Hempty pt); tauto.
  - destruct (Hrb k lb Hb) as (B & A & HB & HA & Hb').
    destruct (Hnone mesh_a a' Hla Ha) as [Ea Ea'].
    pose proof (Hsome mesh_b b' lb B A Hb Hb') as Eb.
    apply (Hend A B HA HB); intros pt; rewrite Eb, Ea, Ea'; pose proof (Hempty pt); tauto.
  - apply lookup_ge_None_1 in Ha, Hb. lia.
Qed.

(** ** The generator run on concrete meshes *)

Module Examples.

Import Boxes.

Lemma sheared_blocks_selected :
  pair_selected (mesh sheared_a) (mesh sheared_b) = true
  /\ beam_width_sum sheared_a sheared_b = 400
  /\ layer_count_ok sheared_a sheared_b.
Proof. by vm_compute. Qed.

(** Claim C1, as the specification states it, on the two sheared blocks.
    On layer 1 the rewritten outline of mesh a covers the pixel at (0, 0),
    which the closed union of the two outlines of that layer does not
    cover, and both rewritten outlines cover the pixel at (1000, 0). *)
Lemma volume_not_conserved_on_sheared_blocks :
  exists mesh_a' mesh_b',
    pair_selected (mesh sheared_a) (mesh sheared_b) = true
    /\ generateInterlockingStructure (make_generator sheared_a sheared_b)
         sheared_a sheared_b = Some (mesh_a', mesh_b')
    /\ (covers (outline mesh_a' 1) (0, 0)
        /\ ~ covers (close (unionPolygons (outline sheared_a 1) (outline sheared_b 1))
                       ignored_gap) (0, 0))
    /\ (covers (outline mesh_a' 1) (1000, 0) /\ covers (outline mesh_b' 1) (1000, 0))
    /\ ~ volume_conserved (outline sheared_a 1) (outline sheared_b 1)
           (outline mesh_a' 1) (outline mesh_b' 1).
Proof.
  set (run := generateInterlockingStructure (make_generator sheared_a sheared_b)
                sheared_a sheared_b).
  assert (Hcheck :
    match run with
    | Some r =>
        covers_b (outline r.1 1) (0, 0)
        && negb (covers_b (close (unionPolygons (outline sheared_a 1)
                                    (outline sheared_b 1)) ignored_gap) (0, 0))
        && covers_b (outline r.1 1) (1000, 0)
        && covers_b (outline r.2 1) (1000, 0)
    | None => false
    end = true) by (vm_compute; reflexivity).
  destruct run as [[a' b'] |]; [| discriminate Hcheck].
  apply andb_true_iff in Hcheck as [Hcheck Hb1].
  apply andb_true_iff in Hcheck as [Hcheck Ha1].
  apply andb_true_iff in Hcheck as [Ha0 Hc0%negb_true_iff].
  exists a', b'. split; [by vm_compute |]. split; [reflexivity |].
  split; [split; [exact Ha0 | intros H; cbv [covers region] in H; congruence] |].
  split; [split; [exact Ha1 | exact Hb1] |].
  intros [_ Hdisjoint]. apply (Hdisjoint (1000, 0)). split; [exact Ha1 | exact Hb1].
Qed.

Lemma rewritten_outlines_and_structures_witness :
  exists mesh_a' mesh_b' clip,
    generateInterlockingStructure (make_generator sheared_a sheared_b)
      sheared_a sheared_b = Some (mesh_a', mesh_b')
    /\ computeLayerRegions (make_generator sheared_a sheared_b) sheared_a sheared_b
       !! 0%nat = Some clip
    /\ (forall pt,
          covers (outline mesh_a' 1) pt \/ covers (outline mesh_b' 1) pt ->
          covers (outline sheared_a 1) pt \/ covers (outline sheared_b 1) pt
          \/ covers clip pt)
    /\ (forall pt,
          covers (outline mesh_a' 1) pt /\ covers (outline mesh_b' 1) pt ->
          covers (outline sheared_a 1) pt /\ covers (outline sheared_b 1) pt).
Proof.
  destruct (rewritten_outlines_and_structures region sheared_a sheared_b
              BoxesFacts.region_laws ltac:(by vm_compute) ltac:(by vm_compute))
    as (cells & templates & s0 & s1 & a' & b' & _ & _ & _ & Hrun & Hlayers).
  destruct (Hlayers 1%nat ltac:(vm_compute; lia))
    as (A & B & clip & _ & _ & Hclip & _ & _ & Henvelope & Hiff).
  exists a', b', clip. split; [exact Hrun |]. split; [exact Hclip |].
  split; [exact Henvelope |].
  intros pt Hboth. apply Hiff in Hboth. tauto.
Defined.

Lemma layers_rewritten_with_band_structures_witness :
  exists mesh_a' mesh_b' stamped_own stamped_other layer_region,
    generateInterlockingStructure (make_generator sheared_a sheared_b)
      sheared_a sheared_b = Some (mesh_a', mesh_b')
    /\ computeLayerRegions (make_generator sheared_a sheared_b) sheared_a sheared_b
       !! 0%nat = Some layer_region
    /\ polygons <$> layers mesh_a' !! 1%nat
       = Some (difference
                 (unionPolygons [path_of (200, 0, 1400, 400)]
                    (applyMatrix
                       (intersection layer_region (unionPolygons_self stamped_own))
                       (PointMatrix_inverse
                          (rotation (make_generator sheared_a sheared_b)))))
                 (applyMatrix
                    (intersection layer_region (unionPolygons_self stamped_other))
                    (PointMatrix_inverse
                       (rotation (make_generator sheared_a sheared_b))))).
Proof.
  destruct (layers_rewritten_with_band_structures sheared_a sheared_b
              ltac:(by vm_compute) ltac:(by vm_compute))
    as (cells & templates & t0 & t1 & s0 & s1 & a' & b' & _ & _ & _ & _ & Hrun & _
        & Ha & _).
  destruct (Ha 1%nat (box_layer 1 (200, 0, 1400, 400)) eq_refl)
    as (own & other & stamped_own & stamped_other & layer_region & Hrest).
  destruct Hrest as (_ & _ & _ & _ & Hregion & _ & _ & Eown & Eother & Hl).
  exists a', b', stamped_own, stamped_other, layer_region.
  split; [exact Hrun |]. split; [exact Hregion |].
  rewrite Hl, Eown, Eother. reflexivity.
Defined.

Lemma only_existing_layers_rewritten_witness :
  exists mesh_a' mesh_b',
    generateInterlockingStructure (make_generator sheared_a sheared_b)
      sheared_a sheared_b = Some (mesh_a', mesh_b')
    /\ length (layers mesh_a') = 2%nat /\ length (layers mesh_b') = 2%nat.
Proof.
  destruct (only_existing_layers_rewritten sheared_a sheared_b
              ltac:(by vm_compute) ltac:(by vm_compute))
    as (a' & b' & Hrun & _ & _ & Hla & Hlb & _).
  exists a', b'. split; [exact Hrun |]. split; [exact Hla | exact Hlb].
Defined.

Lemma entry_point_never_filters_air_witness :
  air_filtering (make_generator sheared_a sheared_b) = false
  /\ is_Some (stamping_cells (make_generator sheared_a sheared_b) sheared_a sheared_b).
Proof.
  destruct (entry_point_never_filters_air sheared_a sheared_b
              ltac:(by vm_compute) ltac:(by vm_compute))
    as (Haf & S_a & S_b & templates & t0 & t1 & s0 & s1 & _ & Hcells & _).
  split; [exact Haf |]. rewrite Hcells. by eexists.
Defined.

(** Claim C5, on the two notched blocks.  Band 1 holds layers 2 and 3.
    The generator clips what is stamped into band 1 of mesh a with
    [layer_regions[1]], the region of the narrow layer 1, where the claim
    has [layer_regions[1 · beam_layer_count]], the region of layer 2: the
    pixel at (300, 0) is in the structure the claim describes and not in
    the one that is stored. *)
Theorem band_clipped_with_region_of_band_index :
  let gen := make_generator notched_a notched_b in
  let layer_regions := computeLayerRegions gen notched_a notched_b in
  exists cells templates t0 t1 s0 s1 stamped stored claimed,
    pair_selected (mesh notched_a) (mesh notched_b) = true
    /\ air_filtering gen = false /\ beam_layer_count gen = 2
    /\ stamping_cells gen notched_a notched_b = Some cells
    /\ generateMicrostructure gen = Some templates
    /\ stamped_structures gen cells templates notched_a notched_b = Some (t0, t1)
    /\ band_structures gen cells templates layer_regions notched_a notched_b
       = Some (s0, s1)
    /\ t0 !! 1%nat = Some stamped
    /\ s0 !! 1%nat = Some stored
    /\ finished_band gen layer_regions 1 stamped = Some stored
    /\ Spec.finished_band gen layer_regions 1 stamped = Some claimed
    /\ covers claimed (300, 0) /\ ~ covers stored (300, 0).
Proof.
  intros gen layer_regions.
  assert (Hcheck :
    match stamping_cells gen notched_a notched_b, generateMicrostructure gen with
    | Some cells, Some templates =>
        match stamped_structures gen cells templates notched_a notched_b,
              band_structures gen cells templates layer_regions notched_a notched_b
        with
        | Some t, Some s =>
            match t.1 !! 1%nat, s.1 !! 1%nat with
            | Some stamped, Some stored =>
                match Spec.finished_band gen layer_regions 1 stamped with
                | Some claimed =>
                    bool_decide (finished_band gen layer_regions 1 stamped = Some stored)
                    && covers_b claimed (300, 0)
                    && negb (covers_b stored (300, 0))
                | None => false
                end
            | _, _ => false
            end
        | _, _ => false
        end
    | _, _ => false
    end = true) by (vm_compute; reflexivity).
  destruct (stamping_cells gen notched_a notched_b) as [cells |] eqn:Ecells;
    [| discriminate Hcheck].
  destruct (generateMicrostructure gen) as [templates |] eqn:Etpl;
    [| discriminate Hcheck].
  destruct (stamped_structures gen cells templates notched_a notched_b)
    as [[t0 t1] |] eqn:Et; [| discriminate Hcheck].
  destruct (band_structures gen cells templates layer_regions notched_a notched_b)
    as [[s0 s1] |] eqn:Es; [| discriminate Hcheck].
  cbn [fst] in Hcheck.
  destruct (t0 !! 1%nat) as [stamped |] eqn:Estamped; [| discriminate Hcheck].
  destruct (s0 !! 1%nat) as [stored |] eqn:Estored; [| discriminate Hcheck].
  destruct (Spec.finished_band gen layer_regions 1 stamped) as [claimed |] eqn:Eclaimed;
    [| discriminate Hcheck].
  apply andb_true_iff in Hcheck as [Hcheck Hstored%negb_true_iff].
  apply andb_true_iff in Hcheck as [Hcode%bool_decide_eq_true_1 Hclaimed].
  exists cells, templates, t0, t1, s0, s1, stamped, stored, claimed.
  split; [by vm_compute |].
  repeat (split; [reflexivity || assumption |]).
  intros H. cbv [covers region] in H. congruence.
Qed.

End Examples.

(** ** The grid mapping against the floor *)

Section GridRoundTrip.

Variable vu : VoxelUtils.
Variables (dim : nat) (cs : Z).
Hypothesis Hdim : p3_index (cell_size vu) dim = Some cs.
Hypothesis Hcs : 0 < cs.

(** Mapping the lower corner of cell [g] back to the grid gives [g] for
    the cells that are not negative, and [g - 1] for the negative ones. *)
Lemma toGridCoord_toLowerCoord g :
  int64_min < g * cs <= int64_max ->
  exists l,
    toLowerCoord vu g dim = Some l
    /\ toGridCoord vu l dim = Some (g - (if g <? 0 then 1 else 0)).
Proof.
  intros Hr. exists (g * cs). unfold toLowerCoord. rewrite Hdim. simpl.
  split; [by rewrite wrap64_small by int_lia |].
  rewrite (toGridCoord_value vu dim cs Hdim Hcs) by done.
  unfold Spec.grid_coord. rewrite Z.div_mul, Z.mod_mul by lia.
  rewrite Z.eqb_refl, andb_true_r.
  destruct (Z.ltb_spec (g * cs) 0), (Z.ltb_spec g 0); try done; nia.
Qed.

End GridRoundTrip.

(** Claim C3, evaluated.  With cells 200 wide the coordinate -200 is
    mapped to cell -2, and its floor quotient is -1: on a negative
    multiple of the cell size, [coord / cell_size - (coord < 0)] is one
    less than the floor. *)
Theorem toGridCoord_below_floor_at_minus_200 :
  let vu := mkVoxelUtils (mkPoint3 200 200 4) in
  toGridCoord vu (-200) 0 = Some (-2)
  /\ Spec.grid_coord (-200) 200 = -1
  /\ toGridCoord vu (-199) 0 = Some (Spec.grid_coord (-199) 200)
  /\ toGridCoord vu 200 0 = Some (Spec.grid_coord 200 200).
Proof. by vm_compute. Qed.

(** Claim C4, evaluated.  With cells of 200 × 200 × 4, the lower corner
    of cell (-1, 0, 0) is (-200, 0, 0), which is mapped back to cell
    (-2, 0, 0); and the point (-200, 0, 0) lies a full cell size above
    the lower corner of the cell it is mapped to. *)
Theorem grid_round_trip_fails_at_cell_minus_1 :
  let vu := mkVoxelUtils (mkPoint3 200 200 4) in
  toLowerCorner vu (mkPoint3 (-1) 0 0) = Some (mkPoint3 (-200) 0 0)
  /\ toGridPoint vu (mkPoint3 (-200) 0 0) = Some (mkPoint3 (-2) 0 0)
  /\ toLowerCorner vu (mkPoint3 (-2) 0 0) = Some (mkPoint3 (-400) 0 0)
  /\ ~ (-200 - -400 < 200).
Proof. by vm_compute. Qed.

(** ** The microstructure templates *)

Section Rectangles.

Variables x0 y0 x1 y1 : Z.
Hypothesis Hx : x0 <= x1.
Hypothesis Hy : y0 <= y1.

Lemma bounds_along_x :
  let p := along_x x0 y0 x1 y1 in
  is_axis_rectangle p = true
  /\ min_X p = x0 /\ max_X p = x1 /\ min_Y p = y0 /\ max_Y p = y1.
Proof.
  unfold is_axis_rectangle, min_X, max_X, min_Y, max_Y, along_x. simpl.
  rewrite !Z.eqb_refl. repeat split; lia.
Qed.

Lemma bounds_along_y :
  let p := along_y x0 y0 x1 y1 in
  is_axis_rectangle p = true
  /\ min_X p = x0 /\ max_X p = x1 /\ min_Y p = y0 /\ max_Y p = y1.
Proof.
  unfold is_axis_rectangle, min_X, max_X, min_Y, max_Y, along_y. simpl.
  rewrite !Z.eqb_refl, orb_true_r. repeat split; lia.
Qed.

Lemma rectangles_cover_along_x x y :
  rectangles_cover [along_x x0 y0 x1 y1] x y <-> in_box x0 y0 x1 y1 x y.
Proof.
  unfold rectangles_cover, rectangle_covers, in_box.
  destruct bounds_along_x as (E & E1 & E2 & E3 & E4).
  rewrite Exists_cons, Exists_nil, E, E1, E2, E3, E4. tauto.
Qed.

Lemma rectangles_cover_along_y x y :
  rectangles_cover [along_y x0 y0 x1 y1] x y <-> in_box x0 y0 x1 y1 x y.
Proof.
  unfold rectangles_cover, rectangle_covers, in_box.
  destruct bounds_along_y as (E & E1 & E2 & E3 & E4).
  rewrite Exists_cons, Exists_nil, E, E1, E2, E3, E4. tauto.
Qed.

End Rectangles.

Lemma overlap_zero_x p q : max_X p <= min_X q -> rectangle_overlap_area p q = 0.
Proof.
  intros H. unfold rectangle_overlap_area.
  rewrite (Z.max_l 0 (Z.min (max_X p) (max_X q) - Z.max (min_X p) (min_X q))) by lia.
  done.
Qed.

Lemma overlap_zero_y p q : max_Y p <= min_Y q -> rectangle_overlap_area p q = 0.
Proof.
  intros H. unfold rectangle_overlap_area.
  rewrite (Z.max_l 0 (Z.min (max_Y p) (max_Y q) - Z.max (min_Y p) (min_Y q))) by lia.
  lia.
Qed.

Lemma middle_bounds cx w0 w1 :
  0 <= w0 -> 0 <= w1 -> 0 < w0 + w1 -> 0 <= cx ->
  0 <= Spec.middle cx w0 w1 <= cx.
Proof.
  intros H0 H1 Hs Hc. unfold Spec.middle.
  rewrite Z.quot_div_nonneg by nia. split.
  - apply Z.div_pos; nia.
  - apply Z.div_le_upper_bound; nia.
Qed.

(** The templates of any generator with a square cell.  With beam widths
    that are not negative and do not sum to zero, a cell that is square,
    and a product [cell_size.x · beam_widths[0]] that fits [coord_t], the
    table holds the rectangles [[0, middle] × [0, cy]] and
    [[middle, cx] × [0, cy]] for even bands and their transposes for odd
    bands, with [middle = cx · w0 / (w0 + w1)]; for either parity the
    two rectangles cover the cell square and share no area. *)
Lemma templates_partition_a_square_cell `{L : Library} (gen : InterlockingGenerator) :
  let w0 := (beam_widths gen).1 in
  let w1 := (beam_widths gen).2 in
  let cx := p3x (gen_cell_size gen) in
  let cy := p3y (gen_cell_size gen) in
  let middle := Spec.middle cx w0 w1 in
  let T00 := [along_x 0 0 middle cy] in
  let T01 := [along_x middle 0 cx cy] in
  let T10 := [along_y 0 0 cy middle] in
  let T11 := [along_y 0 middle cy cx] in
  0 <= w0 -> 0 <= w1 -> 0 < w0 + w1 -> in_int64 (w0 + w1) ->
  0 <= cx -> cx = cy -> in_int64 cx -> in_int64 (cx * w0) ->
  generateMicrostructure gen = Some [[T00; T01]; [T10; T11]]
  /\ 0 <= middle <= cx
  /\ T10 = map (map swap_XY) T00 /\ T11 = map (map swap_XY) T01
  /\ (forall x y, rectangles_cover T00 x y \/ rectangles_cover T01 x y
                  <-> in_cell_square (gen_cell_size gen) x y)
  /\ overlap_area T00 T01 = 0
  /\ (forall x y, rectangles_cover T10 x y \/ rectangles_cover T11 x y
                  <-> in_cell_square (gen_cell_size gen) x y)
  /\ overlap_area T10 T11 = 0.
Proof.
  intros w0 w1 cx cy middle T00 T01 T10 T11 H0 H1 Hs Hrs Hc Hsq Hrc Hrp.
  pose proof (middle_bounds cx w0 w1 H0 H1 Hs Hc) as Hm. fold middle in Hm.
  assert (Hcy : 0 <= cy) by lia.
  assert (Hq : (0 <= inject_Z middle)%Q /\ (inject_Z middle <= inject_Z cx)%Q
               /\ (0 <= inject_Z cx)%Q /\ inject_Z cy = inject_Z cx).
  { rewrite <- Hsq. repeat split; try (change 0%Q with (inject_Z 0));
      rewrite <- ?Zle_Qle; lia. }
  destruct Hq as (Hq0 & Hq1 & Hq2 & Hq3).
  split; [| split; [done |]; split; [done |]; split; [done |]; split; [| split; [| split]]].
  - unfold generateMicrostructure. fold w0 w1 cx.
    rewrite (wrap64_small (w0 + w1)) by done.
    rewrite (wrap64_small (cx * w0)) by done.
    rewrite cdiv_Some by lia. fold (Spec.middle cx w0 w1). fold middle.
    rewrite (wrap64_small middle) by int_lia. simpl.
    unfold template_rect, point_add, swap_XY. simpl. fold cx cy.
    rewrite !Z.add_0_l, !Z.add_0_r.
    rewrite (wrap64_small (cx - middle)) by int_lia.
    replace (middle + (cx - middle)) with cx by lia.
    rewrite (wrap64_small 0), (wrap64_small middle), (wrap64_small cy),
      (wrap64_small cx) by int_lia.
    done.
  - intros x y. unfold T00, T01.
    rewrite (rectangles_cover_along_x 0 0 middle cy) by lia.
    rewrite (rectangles_cover_along_x middle 0 cx cy) by lia.
    unfold in_box, in_cell_square. fold cx cy. rewrite Hq3.
    change (inject_Z 0) with 0%Q. split; intros; lra || (destruct (Qlt_le_dec x (inject_Z middle)); [left | right]; lra).
  - unfold overlap_area, T00, T01. simpl.
    rewrite overlap_zero_x; [done |].
    destruct (bounds_along_x 0 0 middle cy ltac:(lia) ltac:(lia)) as (_ & _ & -> & _).
    destruct (bounds_along_x middle 0 cx cy ltac:(lia) ltac:(lia)) as (_ & -> & _).
    lia.
  - intros x y. unfold T10, T11.
    rewrite (rectangles_cover_along_y 0 0 cy middle) by lia.
    rewrite (rectangles_cover_along_y 0 middle cy cx) by lia.
    unfold in_box, in_cell_square. fold cx cy. rewrite Hq3.
    change (inject_Z 0) with 0%Q. split; intros; lra || (destruct (Qlt_le_dec y (inject_Z middle)); [left | right]; lra).
  - unfold overlap_area, T10, T11. simpl.
    rewrite overlap_zero_y; [done |].
    destruct (bounds_along_y 0 0 cy middle ltac:(lia) ltac:(lia)) as (_ & _ & _ & _ & ->).
    destruct (bounds_along_y 0 middle cy cx ltac:(lia) ltac:(lia)) as (_ & _ & _ & -> & _).
    lia.
Qed.

(** Claim C6.  For the generator the entry point builds for two meshes
    with wall lines of a width in [0, 2^30) and beam widths with a sum
    above zero, the template table is a partition of the cell for both
    parities: the two templates of a parity cover the square
    [[0, cell_size.x] × [0, cell_size.y]] and share no area, the split is
    at [middle = cell_size.x · beam_widths[0] / (beam_widths[0] +
    beam_widths[1])], and the templates of parity 1 are those of parity 0
    with x and y swapped. *)
Theorem templates_partition_the_cell `{L : Library} (mesh_a mesh_b : Slicer) :
  let gen := make_generator mesh_a mesh_b in
  let w0 := (beam_widths gen).1 in
  let w1 := (beam_widths gen).2 in
  let cx := p3x (gen_cell_size gen) in
  let cy := p3y (gen_cell_size gen) in
  let middle := Spec.middle cx w0 w1 in
  let T00 := [along_x 0 0 middle cy] in
  let T01 := [along_x middle 0 cx cy] in
  let T10 := [along_y 0 0 cy middle] in
  let T11 := [along_y 0 middle cy cx] in
  0 <= wall_line_width_0 (mesh mesh_a) < 2 ^ 30 ->
  0 <= wall_line_width_0 (mesh mesh_b) < 2 ^ 30 ->
  0 < w0 + w1 ->
  generateMicrostructure gen = Some [[T00; T01]; [T10; T11]]
  /\ 0 <= middle <= cx
  /\ T10 = map (map swap_XY) T00 /\ T11 = map (map swap_XY) T01
  /\ (forall x y, rectangles_cover T00 x y \/ rectangles_cover T01 x y
                  <-> in_cell_square (gen_cell_size gen) x y)
  /\ overlap_area T00 T01 = 0
  /\ (forall x y, rectangles_cover T10 x y \/ rectangles_cover T11 x y
                  <-> in_cell_square (gen_cell_size gen) x y)
  /\ overlap_area T10 T11 = 0.
Proof.
  intros gen w0 w1 cx cy middle T00 T01 T10 T11 Ha Hb Hsum.
  assert (E0 : w0 = 2 * wall_line_width_0 (mesh mesh_a)).
  { unfold w0, gen, make_generator. cbn [beam_widths fst]. apply wrap64_small. int_lia. }
  assert (E1 : w1 = 2 * wall_line_width_0 (mesh mesh_b)).
  { unfold w1, gen, make_generator. cbn [beam_widths snd]. apply wrap64_small. int_lia. }
  assert (Ex : cx = w0 + w1).
  { unfold cx, gen, make_generator. cbn [gen_cell_size p3x].
    fold (beam_widths (make_generator mesh_a mesh_b)).1.
    change (wrap64 (2 * wall_line_width_0 (mesh mesh_a))) with w0.
    change (wrap64 (2 * wall_line_width_0 (mesh mesh_b))) with w1.
    apply wrap64_small. int_lia. }
  assert (Ey : cy = cx) by reflexivity.
  apply (templates_partition_a_square_cell gen); fold w0 w1 cx cy; try int_lia.
  unfold in_int64, int64_min, int64_max. nia.
Qed.

(** ** The entry point *)

Lemma for_range_total {S : Type} (I : nat -> S -> Prop)
    count first (body : nat -> S -> option (loop_ctl S)) s :
  I first s ->
  (forall k s', (first <= k < first + count)%nat -> I k s' ->
     exists s'', body k s' = Some (Continue s'') /\ I (Datatypes.S k) s'') ->
  exists r, for_range count first body s = Some r /\ I (first + count)%nat r.
Proof.
  revert first s. induction count as [| n IH]; intros first s HI Hstep; simpl.
  - exists s. by rewrite Nat.add_0_r.
  - destruct (Hstep first s ltac:(lia) HI) as (s' & -> & HI').
    replace (first + Datatypes.S n)%nat with (Datatypes.S first + n)%nat by lia.
    apply IH; [done |]. intros k s'' Hk. apply Hstep. lia.
Qed.

Section EntryPoint.

Context `{L : Library}.

Lemma generator_keeps_shape gen mesh_a mesh_b r :
  generateInterlockingStructure gen mesh_a mesh_b = Some r ->
  same_shape mesh_a r.1 /\ same_shape mesh_b r.2.
Proof.
  unfold generateInterlockingStructure, applyMicrostructureToOutlines.
  destruct (stamping_cells _ _ _) as [cells |]; simpl; [| done].
  destruct (generateMicrostructure _) as [templates |]; simpl; [| done].
  destruct (band_structures _ _ _ _ _ _) as [[s0 s1] |]; simpl; [| done].
  destruct (rewrite_layers _ _ s0 s1 mesh_a) as [a' |] eqn:Ha; simpl; [| done].
  destruct (rewrite_layers _ _ s1 s0 mesh_b) as [b' |] eqn:Hb; simpl; [| done].
  intros [= <-]. simpl.
  apply rewrite_layers_lookup in Ha as (? & ? & _); [| lia].
  apply rewrite_layers_lookup in Hb as (? & ? & _); [| lia].
  done.
Qed.

Lemma same_shapes_refl meshes : same_shapes meshes meshes.
Proof. intros p. destruct (meshes !! p); by constructor. Qed.

Lemma same_shapes_lookup meshes meshes' ptr m' :
  same_shapes meshes meshes' -> meshes' !! ptr = Some m' ->
  exists m, meshes !! ptr = Some m /\ same_shape m m'.
Proof.
  intros Hs Hm. specialize (Hs ptr). rewrite Hm in Hs.
  inversion Hs as [m ? Hsh |]; subst. by exists m.
Qed.

Lemma same_shapes_lookup_inv meshes meshes' ptr m :
  same_shapes meshes meshes' -> meshes !! ptr = Some m ->
  exists m', meshes' !! ptr = Some m' /\ same_shape m m'.
Proof.
  intros Hs Hm. specialize (Hs ptr). rewrite Hm in Hs.
  inversion Hs as [? m' Hsh |]; subst. by exists m'.
Qed.

Lemma same_shapes_insert meshes meshes' ptr m m' :
  same_shapes meshes meshes' -> meshes' !! ptr = Some m -> same_shape m m' ->
  same_shapes meshes (<[ptr := m']> meshes').
Proof.
  intros Hs Hm [Hmesh Hlen] p. destruct (decide (p = ptr)) as [-> | Hne].
  - rewrite lookup_insert_eq.
    destruct (same_shapes_lookup _ _ _ _ Hs Hm) as (m0 & -> & [Hmesh0 Hlen0]).
    constructor. split; congruence.
  - rewrite lookup_insert_ne by done. apply Hs.
Qed.

Variable volumes : list nat.
Variable meshes : gmap nat Slicer.

(** One round of the inner loop: the pair is selected and the generator
    has run on it, or the pair is not selected and nothing has changed. *)
Lemma visit_pair_spec i ptr_a extruder_nr_a j st c :
  volumes !! i = Some ptr_a -> (i < j)%nat ->
  same_shapes meshes (store st) ->
  (forall mesh_a, meshes !! ptr_a = Some mesh_a ->
                  extruder_nr_a = wall_0_extruder_nr (mesh mesh_a)) ->
  visit_pair volumes i ptr_a extruder_nr_a j st = Some c ->
  exists st',
    c = Continue st'
    /\ same_shapes meshes (store st')
    /\ ((selected_in volumes meshes i j
         /\ processed st' = processed st ++ [(i, j)]
         /\ (forall ptr, volumes !! i <> Some ptr -> volumes !! j <> Some ptr ->
               store st' !! ptr = store st !! ptr))
        \/ (~ selected_in volumes meshes i j /\ st' = st)).
Proof.
  intros Hi Hij Hshape Hext. unfold visit_pair, at_index.
  destruct (volumes !! j) as [ptr_b |] eqn:Hj; simpl; [| done].
  destruct (store st !! ptr_a) as [ma |] eqn:Hma; simpl; [| done].
  destruct (store st !! ptr_b) as [mb |] eqn:Hmb; simpl; [| done].
  destruct (same_shapes_lookup _ _ _ _ Hshape Hma) as (a0 & Ha0 & [Hmesh_a Hlen_a]).
  destruct (same_shapes_lookup _ _ _ _ Hshape Hmb) as (b0 & Hb0 & [Hmesh_b Hlen_b]).
  rewrite (Hext a0 Ha0), Hmesh_a, Hmesh_b.
  fold (pair_selected (mesh a0) (mesh b0)).
  destruct (pair_selected (mesh a0) (mesh b0)) eqn:Hsel.
  - destruct (generateInterlockingStructure _ _ _) as [r |] eqn:Hrun; simpl; [| done].
    intros [= <-]. eexists. split; [done |].
    destruct (generator_keeps_shape _ _ _ _ Hrun) as [Hsa Hsb]. simpl.
    split.
    + destruct (decide (ptr_b = ptr_a)) as [-> | Hne].
      * apply same_shapes_insert with (m := r.1).
        -- by apply same_shapes_insert with (m := ma).
        -- by rewrite lookup_insert_eq.
        -- assert (mb = ma) as -> by congruence.
           destruct Hsa as [E1 E2], Hsb as [E3 E4]. split; congruence.
      * apply same_shapes_insert with (m := mb); [| | done].
        -- by apply same_shapes_insert with (m := ma).
        -- by rewrite lookup_insert_ne.
    + left. split; [by exists ptr_a, ptr_b, a0, b0 |]. split; [done |].
      intros ptr Hpa Hpb.
      rewrite !lookup_insert_ne by congruence. done.
  - intros [= <-]. exists st. split; [done |]. split; [done |]. right.
    split; [| done].
    intros (pa & pb & a & b & Hpa & Hpb & Ha & Hb & _ & Hs).
    assert (pa = ptr_a) as -> by congruence. assert (pb = ptr_b) as -> by congruence.
    assert (a = a0) as -> by congruence. assert (b = b0) as -> by congruence.
    congruence.
Qed.

Lemma visit_pair_total i ptr_a extruder_nr_a j st :
  volumes_ok volumes meshes ->
  volumes !! i = Some ptr_a -> (j < length volumes)%nat ->
  same_shapes meshes (store st) ->
  (forall mesh_a, meshes !! ptr_a = Some mesh_a ->
                  extruder_nr_a = wall_0_extruder_nr (mesh mesh_a)) ->
  is_Some (visit_pair volumes i ptr_a extruder_nr_a j st).
Proof.
  intros [Hptr Hpairs] Hi Hj Hshape Hext. unfold visit_pair, at_index.
  destruct (lookup_lt_is_Some_2 volumes j Hj) as [ptr_b Hb]. rewrite Hb. simpl.
  destruct (Hptr i ptr_a Hi) as [a0 Ha0]. destruct (Hptr j ptr_b Hb) as [b0 Hb0].
  destruct (same_shapes_lookup_inv _ _ _ _ Hshape Ha0) as (ma & -> & [Hmesh_a Hlen_a]).
  destruct (same_shapes_lookup_inv _ _ _ _ Hshape Hb0) as (mb & -> & [Hmesh_b Hlen_b]).
  simpl. rewrite (Hext a0 Ha0), Hmesh_a, Hmesh_b.
  fold (pair_selected (mesh a0) (mesh b0)).
  destruct (pair_selected (mesh a0) (mesh b0)) eqn:Hsel; [| by eexists].
  destruct (Hpairs i j ptr_a ptr_b a0 b0 Hi Hb Ha0 Hb0 Hsel) as [Hsum Hcount].
  destruct (processed_pair_run ma mb) as (? & ? & ? & ? & ? & ? & ? & a' & b' & Hrun).
  - unfold beam_width_sum in *. by rewrite Hmesh_a, Hmesh_b.
  - unfold layer_count_ok in *. by rewrite Hlen_a, Hlen_b.
  - destruct Hrun as (_ & _ & _ & _ & _ & _ & _ & _ & -> & _). by eexists.
Qed.


Lemma run_invariant_ext visited visited' st :
  (forall i j, selected_in volumes meshes i j -> visited i j <-> visited' i j) ->
  run_invariant volumes meshes visited st ->
  run_invariant volumes meshes visited' st.
Proof.
  intros Hv (Hshape & Hnodup & Hlog & Hframe).
  split; [done |]. split; [done |]. split; [| done].
  intros i j. rewrite Hlog. split; intros [Hsel Hvis]; (split; [done |]);
    by apply (Hv i j Hsel).
Qed.

Lemma selected_in_lt i j :
  selected_in volumes meshes i j -> (i < j < length volumes)%nat.
Proof.
  intros (pa & pb & a & b & _ & Hj%lookup_lt_Some & _ & _ & Hij & _). lia.
Qed.

Lemma inner_step i ptr_a extruder_nr_a j st c :
  volumes !! i = Some ptr_a -> (i < j)%nat ->
  (forall mesh_a, meshes !! ptr_a = Some mesh_a ->
                  extruder_nr_a = wall_0_extruder_nr (mesh mesh_a)) ->
  run_invariant volumes meshes
    (fun a b => a < i \/ (a = i /\ b < j))%nat st ->
  visit_pair volumes i ptr_a extruder_nr_a j st = Some c ->
  exists st',
    c = Continue st'
    /\ run_invariant volumes meshes
         (fun a b => a < i \/ (a = i /\ b < Datatypes.S j))%nat st'.
Proof.
  intros Hi Hij Hext (Hshape & Hnodup & Hlog & Hframe) Hrun.
  destruct (visit_pair_spec i ptr_a extruder_nr_a j st c Hi Hij Hshape Hext Hrun)
    as (st' & -> & Hshape' & [(Hsel & Hproc & Hother) | (Hnsel & ->)]).
  - exists st'. split; [done |]. split; [done |]. rewrite Hproc. split; [| split].
    + apply NoDup_app. split; [done |]. split; [| apply NoDup_singleton].
      intros [a b] Hin Hin'. apply list_elem_of_singleton in Hin' as [= -> ->].
      apply Hlog in Hin as [_ Hvis]. lia.
    + intros a b. rewrite elem_of_app, list_elem_of_singleton, Hlog. split.
      * intros [[Hs Hv] | [= -> ->]]; [split; [done | lia] | split; [done | lia]].
      * intros [Hs Hv]. destruct (decide (a = i /\ b = j)) as [[-> ->] | Hne];
          [by right | left; split; [done | lia]].
    + intros ptr Hun. destruct (Hun i j Hsel) as [Hpi Hpj].
      rewrite Hother by done. by apply Hframe.
  - exists st. split; [done |]. split; [done |]. split; [done |]. split; [| done].
    intros a b. rewrite Hlog. split; intros [Hs Hv]; (split; [done |]); [lia |].
    destruct (decide (a = i /\ b = j)) as [[-> ->] | Hne]; [done | lia].
Qed.

Lemma outer_step i st c :
  (i < length volumes)%nat ->
  run_invariant volumes meshes (fun a b => a < i)%nat st ->
  visit_mesh volumes i st = Some c ->
  exists st',
    c = Continue st'
    /\ run_invariant volumes meshes (fun a b => a < Datatypes.S i)%nat st'.
Proof.
  intros Hi Hinv. unfold visit_mesh, at_index.
  destruct (volumes !! i) as [ptr_a |] eqn:Hptr; simpl; [| done].
  destruct (store st !! ptr_a) as [ma |] eqn:Hma; simpl; [| done].
  destruct (for_range _ _ _ st) as [st' |] eqn:Hloop; simpl; [| done].
  intros [= <-]. exists st'. split; [done |].
  assert (Hext : forall mesh_a, meshes !! ptr_a = Some mesh_a ->
            wall_0_extruder_nr (mesh ma) = wall_0_extruder_nr (mesh mesh_a)).
  { intros a0 Ha0. destruct Hinv as (Hshape & _).
    destruct (same_shapes_lookup _ _ _ _ Hshape Hma) as (a1 & Ha1 & [-> _]).
    congruence. }
  destruct (for_range_inv
              (fun k st => run_invariant volumes meshes
                             (fun a b => a < i \/ (a = i /\ b < k))%nat st)
              (fun _ => False) _ _ _ _ _ Hloop) as [Hend | []].
  - eapply run_invariant_ext; [| exact Hinv].
    intros a b Hsel%selected_in_lt. cbv beta. lia.
  - intros k s' c' Hk Hinv' Hbody.
    destruct (inner_step i ptr_a _ k s' c' Hptr ltac:(lia) Hext Hinv' Hbody)
      as (s'' & -> & Hinv''). done.
  - eapply run_invariant_ext; [| exact Hend].
    intros a b Hsel%selected_in_lt. cbv beta. lia.
Qed.

Lemma outer_step_total i st :
  volumes_ok volumes meshes ->
  (i < length volumes)%nat ->
  run_invariant volumes meshes (fun a b => a < i)%nat st ->
  is_Some (visit_mesh volumes i st).
Proof.
  intros Hok Hi Hinv. unfold visit_mesh, at_index.
  destruct (lookup_lt_is_Some_2 volumes i Hi) as [ptr_a Hptr]. rewrite Hptr. simpl.
  destruct (proj1 Hok i ptr_a Hptr) as [a0 Ha0].
  destruct (same_shapes_lookup_inv _ _ _ _ (proj1 Hinv) Ha0) as (ma & Hma & [Hmesh _]).
  rewrite Hma. simpl.
  assert (Hext : forall mesh_a, meshes !! ptr_a = Some mesh_a ->
            wall_0_extruder_nr (mesh ma) = wall_0_extruder_nr (mesh mesh_a)).
  { intros a1 Ha1. congruence. }
  destruct (for_range_total
              (fun k st => run_invariant volumes meshes
                             (fun a b => a < i \/ (a = i /\ b < k))%nat st)
              (length volumes - (i + 1)) (i + 1)
              (visit_pair volumes i ptr_a (wall_0_extruder_nr (mesh ma))) st)
    as (st' & -> & _); [| | by eexists].
  - eapply run_invariant_ext; [| exact Hinv].
    intros a b Hsel%selected_in_lt. cbv beta. lia.
  - intros k s' Hk Hinv'.
    destruct (visit_pair_total i ptr_a (wall_0_extruder_nr (mesh ma)) k s'
                Hok Hptr ltac:(lia) (proj1 Hinv') Hext) as [c Hc].
    destruct (inner_step i ptr_a _ k s' c Hptr ltac:(lia) Hext Hinv' Hc)
      as (s'' & -> & Hinv''). by exists s''.
Qed.

(** What a run of the entry point that returns has done. *)
Lemma entry_point_run st' :
  generateInterlockingStructure_volumes volumes (mkRunState meshes []) = Some st' ->
  run_invariant volumes meshes (fun _ _ => True) st'.
Proof.
  unfold generateInterlockingStructure_volumes. intros Hrun.
  destruct (for_range_inv
              (fun k st => run_invariant volumes meshes (fun a b => a < k)%nat st)
              (fun _ => False) _ _ _ _ _ Hrun) as [Hend | []].
  - split; [apply same_shapes_refl |]. split; [apply NoDup_nil_2 |].
    split; [| done]. intros i j. simpl. split; [by intros ?%elem_of_nil | lia].
  - intros k s' c Hk Hinv Hbody.
    destruct (outer_step k s' c ltac:(lia) Hinv Hbody) as (s'' & -> & Hinv'). done.
  - eapply run_invariant_ext; [| exact Hend].
    intros a b Hsel%selected_in_lt. cbv beta. split; [done | lia].
Qed.

Lemma entry_point_total :
  volumes_ok volumes meshes ->
  is_Some (generateInterlockingStructure_volumes volumes (mkRunState meshes [])).
Proof.
  intros Hok. unfold generateInterlockingStructure_volumes.
  destruct (for_range_total
              (fun k st => run_invariant volumes meshes (fun a b => a < k)%nat st)
              (length volumes) 0 (visit_mesh volumes) (mkRunState meshes []))
    as (st' & -> & _); [| | by eexists].
  - split; [apply same_shapes_refl |]. split; [apply NoDup_nil_2 |].
    split; [| done]. intros i j. simpl. split; [by intros ?%elem_of_nil | lia].
  - intros k s' Hk Hinv.
    destruct (outer_step_total k s' Hok ltac:(lia) Hinv) as [c Hc].
    destruct (outer_step k s' c ltac:(lia) Hinv Hc) as (s'' & -> & Hinv').
    by exists s''.
Qed.

End EntryPoint.

(** The store of the entry point against its record: every run of the
    generator starts from the meshes the runs before it left. *)

Section RunSequence.

Context `{L : Library}.
Variable volumes : list nat.
Variable meshes : gmap nat Slicer.

Lemma run_pairs_snoc pairs pair meshes' :
  run_pairs volumes meshes pairs = Some meshes' ->
  run_pairs volumes meshes (pairs ++ [pair]) = run_pair volumes meshes' pair.
Proof. unfold run_pairs. rewrite foldl_app. simpl. by intros ->. Qed.

Lemma visit_pair_sequence i ptr_a extruder_nr_a j st c :
  volumes !! i = Some ptr_a ->
  run_pairs volumes meshes (processed st) = Some (store st) ->
  visit_pair volumes i ptr_a extruder_nr_a j st = Some c ->
  exists st', c = Continue st'
    /\ run_pairs volumes meshes (processed st') = Some (store st').
Proof.
  intros Hi Hseq. unfold visit_pair, at_index.
  destruct (volumes !! j) as [ptr_b |] eqn:Hj; cbn [mbind option_bind]; [| done].
  destruct (store st !! ptr_a) as [mesh_a |] eqn:Ha; cbn [mbind option_bind]; [| done].
  destruct (store st !! ptr_b) as [mesh_b |] eqn:Hb; cbn [mbind option_bind]; [| done].
  destruct (_ && _).
  - destruct (generateInterlockingStructure _ _ _) as [r |] eqn:Hrun;
      cbn [mbind option_bind]; [| done].
    intros [= <-]. eexists. split; [done |]. cbn [processed store].
    rewrite (run_pairs_snoc _ _ _ Hseq). unfold run_pair. cbn [fst snd].
    rewrite Hi, Hj. cbn [mbind option_bind]. rewrite Ha, Hb. cbn [mbind option_bind].
    by rewrite Hrun.
  - intros [= <-]. by exists st.
Qed.

Lemma visit_mesh_sequence i st c :
  run_pairs volumes meshes (processed st) = Some (store st) ->
  visit_mesh volumes i st = Some c ->
  exists st', c = Continue st'
    /\ run_pairs volumes meshes (processed st') = Some (store st').
Proof.
  intros Hseq. unfold visit_mesh, at_index.
  destruct (volumes !! i) as [ptr_a |] eqn:Hi; cbn [mbind option_bind]; [| done].
  destruct (store st !! ptr_a) as [mesh_a |]; cbn [mbind option_bind]; [| done].
  destruct (for_range _ _ _ _) as [st' |] eqn:Hloop; cbn [mbind option_bind]; [| done].
  intros [= <-]. exists st'. split; [done |].
  destruct (for_range_inv
              (fun _ s => run_pairs volumes meshes (processed s) = Some (store s))
              (fun _ => False) _ _ _ _ _ Hloop) as [H | []]; [done | | done].
  intros j s c _ Hs Hbody.
  by destruct (visit_pair_sequence i ptr_a _ j s c Hi Hs Hbody) as (s' & -> & ?).
Qed.

Lemma entry_point_sequence st' :
  generateInterlockingStructure_volumes volumes (mkRunState meshes []) = Some st' ->
  run_pairs volumes meshes (processed st') = Some (store st').
Proof.
  unfold generateInterlockingStructure_volumes. intros Hrun.
  destruct (for_range_inv
              (fun _ s => run_pairs volumes meshes (processed s) = Some (store s))
              (fun _ => False) _ _ _ _ _ Hrun) as [H | []]; [done | | done].
  intros i s c _ Hs Hbody.
  by destruct (visit_mesh_sequence i s c Hs Hbody) as (s' & -> & ?).
Qed.

End RunSequence.

(** Claim C8.  Started on meshes that are all there and whose selected
    pairs have beam widths with a sum other than zero, the entry point
    returns, and it has run the generator, once, on exactly the index
    pairs [i < j] whose two meshes have different extruder numbers for
    the outer wall and whose bounding boxes hit once the first is moved
    out by [ignored_gap]; a round of the inner loop on any other pair
    leaves the state as it is, and a mesh that is in no selected pair is
    returned as it was.  The meshes it returns are the given meshes
    after the runs of the generator on the recorded pairs, one after the
    other, each run writing back the two meshes the generator returns. *)
Theorem entry_point_selects_pairs `{L : Library}
    (volumes : list nat) (meshes : gmap nat Slicer) :
  volumes_ok volumes meshes ->
  exists st',
    generateInterlockingStructure_volumes volumes (mkRunState meshes []) = Some st'
    /\ NoDup (processed st')
    /\ (forall i j,
          (i, j) ∈ processed st'
          <-> exists ptr_a ptr_b mesh_a mesh_b,
                volumes !! i = Some ptr_a /\ volumes !! j = Some ptr_b
                /\ meshes !! ptr_a = Some mesh_a /\ meshes !! ptr_b = Some mesh_b
                /\ (i < j)%nat
                /\ wall_0_extruder_nr (mesh mesh_a) <> wall_0_extruder_nr (mesh mesh_b)
                /\ AABB3D_hit (AABB3D_offset (getAABB (mesh mesh_a)) ignored_gap)
                              (getAABB (mesh mesh_b)) = true)
    /\ (forall i j ptr_a mesh_a st c,
          volumes !! i = Some ptr_a -> meshes !! ptr_a = Some mesh_a -> (i < j)%nat ->
          same_shapes meshes (store st) ->
          ~ selected_in volumes meshes i j ->
          visit_pair volumes i ptr_a (wall_0_extruder_nr (mesh mesh_a)) j st = Some c ->
          c = Continue st)
    /\ (forall ptr, untouched volumes meshes ptr -> store st' !! ptr = meshes !! ptr)
    /\ same_shapes meshes (store st')
    /\ run_pairs volumes meshes (processed st') = Some (store st').
Proof.
  intros Hok. destruct (entry_point_total volumes meshes Hok) as [st' Hrun].
  destruct (entry_point_run volumes meshes st' Hrun) as (Hshape & Hnodup & Hlog & Hframe).
  pose proof (entry_point_sequence volumes meshes st' Hrun) as Hseq.
  exists st'. split; [done |]. split; [done |]. split; [| split; [| done]].
  - intros i j. rewrite Hlog. unfold selected_in, pair_selected. split.
    + intros [(pa & pb & a & b & Hpa & Hpb & Ha & Hb & Hij & Hsel) _].
      apply andb_true_iff in Hsel as [Hext%negb_true_iff%Z.eqb_neq Hhit].
      by exists pa, pb, a, b.
    + intros (pa & pb & a & b & Hpa & Hpb & Ha & Hb & Hij & Hext & Hhit).
      split; [| done]. exists pa, pb, a, b. repeat (split; [done |]).
      apply andb_true_iff. split; [| done]. by apply negb_true_iff, Z.eqb_neq.
  - intros i j ptr_a mesh_a st c Hi Ha Hij Hsh Hnsel Hvisit.
    destruct (visit_pair_spec volumes meshes i ptr_a
                (wall_0_extruder_nr (mesh mesh_a)) j st c Hi Hij Hsh) as
      (st'' & -> & _ & [(Hsel & _) | (_ & ->)]); [| done | done | done].
    intros a0 Ha0. congruence.
Qed.

(** ** The entry point and the templates on concrete meshes *)

Module EntryExamples.

Import Boxes.

Lemma three_blocks_ok : volumes_ok [0; 1; 2]%nat three_blocks.
Proof.
  split.
  - intros [| [| [| i]]] ptr [= <-]; unfold three_blocks; simplify_map_eq; by eexists.
  - intros [| [| [| i]]] [| [| [| j]]] pa pb a b Hi Hj; try done;
      injection Hi as <-; injection Hj as <-; unfold three_blocks; intros Ha Hb;
      simplify_map_eq; intros Hsel; try (by vm_compute in Hsel);
      split; by vm_compute.
Qed.

Lemma far_block_untouched : untouched [0; 1; 2]%nat three_blocks 2.
Proof.
  intros i j (pa & pb & a & b & Hi & Hj & Hab). revert Hab.
  destruct i as [| [| [| i]]], j as [| [| [| j]]]; try done;
    injection Hi as <-; injection Hj as <-; unfold three_blocks;
    intros (Ha & Hb & Hij & Hsel); try lia;
    simplify_map_eq; try (by vm_compute in Hsel); split; done.
Qed.

Lemma entry_point_selects_pairs_witness :
  exists st',
    generateInterlockingStructure_volumes [0; 1; 2]%nat (mkRunState three_blocks [])
    = Some st'
    /\ (0, 1)%nat ∈ processed st'
    /\ store st' !! 2%nat = Some far_block
    /\ run_pairs [0; 1; 2]%nat three_blocks (processed st') = Some (store st').
Proof.
  destruct (entry_point_selects_pairs [0; 1; 2]%nat three_blocks three_blocks_ok)
    as (st' & Hrun & _ & Hlog & _ & Hframe & _ & Hseq).
  exists st'. split; [exact Hrun |]. split; [| split; [| exact Hseq]].
  - apply Hlog. exists 0%nat, 1%nat, sheared_a, sheared_b.
    repeat (split; [reflexivity || lia |]).
    split; [by vm_compute | vm_compute; reflexivity].
  - rewrite Hframe; [reflexivity | exact far_block_untouched].
Defined.

(** The widths of the wall lines must not be negative.  Wall lines of
    widths -50 and 150 give the beam widths -100 and 300 in cells 200
    wide: the widths sum to 200 > 0, [middle] is -100, and the template
    of mesh 0 for even bands is the rectangle [[-100, 0] × [0, 200]],
    which covers the point (-50, 100) outside the cell square. *)
Lemma template_outside_the_cell_with_negative_width :
  let gen := make_generator negative_width_a negative_width_b in
  (beam_widths gen).1 + (beam_widths gen).2 > 0
  /\ gen_cell_size gen = mkPoint3 200 200 4
  /\ Spec.middle 200 (beam_widths gen).1 (beam_widths gen).2 = -100
  /\ exists T00 T01 odd,
       generateMicrostructure gen = Some [[T00; T01]; odd]
       /\ rectangles_cover T00 (inject_Z (-50)) (inject_Z 100)
       /\ ~ in_cell_square (gen_cell_size gen) (inject_Z (-50)) (inject_Z 100)
       /\ ~ (forall x y, rectangles_cover T00 x y \/ rectangles_cover T01 x y
                         <-> in_cell_square (gen_cell_size gen) x y).
Proof.
  intros gen. split; [by vm_compute |]. split; [by vm_compute |].
  split; [by vm_compute |].
  exists [along_x 0 0 (-100) 200], [along_x (-100) 0 200 200],
         [[along_y 0 0 200 (-100)]; [along_y 0 (-100) 200 200]].
  assert (Hcov : rectangles_cover [along_x 0 0 (-100) 200]
                   (inject_Z (-50)) (inject_Z 100)).
  { apply Exists_cons. left. split; [reflexivity |]. by vm_compute. }
  assert (Hout : ~ in_cell_square (gen_cell_size gen) (inject_Z (-50)) (inject_Z 100)).
  { intros [H _]. by vm_compute in H. }
  split; [vm_compute; reflexivity |]. split; [exact Hcov |]. split; [exact Hout |].
  intros Hall. apply Hout, Hall. by left.
Qed.

Lemma templates_partition_the_cell_witness :
  exists T00 T01 T10 T11,
    generateMicrostructure (make_generator sheared_a sheared_b)
    = Some [[T00; T01]; [T10; T11]]
    /\ overlap_area T00 T01 = 0 /\ overlap_area T10 T11 = 0.
Proof.
  destruct (templates_partition_the_cell sheared_a sheared_b
              ltac:(by vm_compute) ltac:(by vm_compute) ltac:(by vm_compute))
    as (Hval & _ & _ & _ & _ & H0 & _ & H1).
  eexists _, _, _, _. split; [exact Hval |]. split; [exact H0 | exact H1].
Defined.

End EntryExamples.

(** * Further properties of the code *)

(** ** The grid mapping *)

Lemma cell_of_coord vu dim cs c :
  p3_index (cell_size vu) dim = Some cs -> 0 < cs -> coord_roomy cs c ->
  exists g,
    toGridCoord vu c dim = Some g
    /\ g = Spec.grid_coord c cs - floor_shortfall c cs
    /\ toLowerCoord vu g dim = Some (g * cs)
    /\ g * cs <= c <= g * cs + cs
    /\ (0 <= c \/ c mod cs <> 0 -> c < g * cs + cs).
Proof.
  intros Hdim Hcs [Hlo Hhi].
  assert (Hc : int64_min < c <= int64_max) by int_lia.
  rewrite (toGridCoord_value vu dim cs Hdim Hcs c Hc).
  eexists. split; [reflexivity |]. split; [reflexivity |].
  unfold toLowerCoord, Spec.grid_coord, floor_shortfall. rewrite Hdim. simpl.
  pose proof (Z.div_mod c cs ltac:(lia)) as Hd.
  pose proof (Z.mod_pos_bound c cs Hcs) as Hm.
  destruct ((c <? 0) && (c mod cs =? 0)) eqn:E.
  - apply andb_true_iff in E as [Hneg%Z.ltb_lt E%Z.eqb_eq].
    rewrite wrap64_small by int_lia. split; [done |]. split; [nia |]. lia.
  - rewrite Z.sub_0_r. rewrite wrap64_small by int_lia.
    split; [done |]. split; [nia |]. nia.
Qed.

Lemma toGridCoord_le vu dim cs c c' g g' :
  p3_index (cell_size vu) dim = Some cs -> 0 < cs ->
  int64_min < c <= int64_max -> int64_min < c' <= int64_max ->
  toGridCoord vu c dim = Some g -> toGridCoord vu c' dim = Some g' ->
  c <= c' -> g <= g'.
Proof.
  intros Hdim Hcs Hc Hc'.
  rewrite (toGridCoord_value vu dim cs Hdim Hcs c Hc).
  rewrite (toGridCoord_value vu dim cs Hdim Hcs c' Hc').
  intros [= <-] [= <-] Hle. unfold Spec.grid_coord.
  pose proof (Z.div_le_mono c c' cs Hcs Hle) as Hmono.
  destruct ((c' <? 0) && (c' mod cs =? 0)) eqn:E';
    destruct ((c <? 0) && (c mod cs =? 0)) eqn:E; try lia.
  apply andb_true_iff in E' as [Hneg'%Z.ltb_lt Hm'%Z.eqb_eq].
  pose proof (Z.div_mod c' cs ltac:(lia)) as Hd'.
  assert (Hne : c <> c').
  { intros ->. rewrite Hm', Z.eqb_refl, andb_true_r in E.
    apply Z.ltb_ge in E. lia. }
  assert (c / cs < c' / cs); [| lia].
  apply Z.div_lt_upper_bound; lia.
Qed.

(** The grid coordinate is the floor of [coord / cell_size[dim]] less one
    on the negative multiples of the cell size, for every coordinate above
    the least [coord_t] and every positive cell size. *)
Theorem toGridCoord_is_floor_less_shortfall (vu : VoxelUtils) (dim : nat) (cs c : Z) :
  p3_index (cell_size vu) dim = Some cs -> 0 < cs -> coord_ok c ->
  toGridCoord vu c dim = Some (Spec.grid_coord c cs - floor_shortfall c cs)
  /\ (0 <= c \/ c mod cs <> 0 -> floor_shortfall c cs = 0)
  /\ (c < 0 -> c mod cs = 0 -> floor_shortfall c cs = 1).
Proof.
  intros Hdim Hcs Hc. split; [by apply toGridCoord_value |].
  unfold floor_shortfall. split.
  - intros Hok. destruct (Z.ltb_spec c 0); [| done].
    destruct (Z.eqb_spec (c mod cs) 0); [lia | done].
  - intros Hneg Hm. destruct (Z.ltb_spec c 0); [| lia]. by rewrite Hm.
Qed.

Lemma toGridCoord_is_floor_less_shortfall_witness :
  toGridCoord (mkVoxelUtils (mkPoint3 200 200 4)) (-400) 1 = Some (-3).
Proof.
  exact (proj1 (toGridCoord_is_floor_less_shortfall
                  (mkVoxelUtils (mkPoint3 200 200 4)) 1 200 (-400)
                  eq_refl ltac:(lia) ltac:(by vm_compute))).
Defined.

(** The grid mapping keeps the order of coordinates: a coordinate that is
    not below another is mapped to a cell that is not below the cell of
    the other. *)
Theorem toGridPoint_monotone (vu : VoxelUtils) (p p' g g' : Point3) :
  p3_positive (cell_size vu) -> p3_coord_ok p -> p3_coord_ok p' ->
  toGridPoint vu p = Some g -> toGridPoint vu p' = Some g' ->
  p3_le p p' -> p3_le g g'.
Proof.
  intros (Hx & Hy & Hz) (Hpx & Hpy & Hpz) (Hpx' & Hpy' & Hpz').
  unfold toGridPoint.
  destruct (toGridCoord vu (p3x p) 0) as [gx |] eqn:Ex; simpl; [| done].
  destruct (toGridCoord vu (p3y p) 1) as [gy |] eqn:Ey; simpl; [| done].
  destruct (toGridCoord vu (p3z p) 2) as [gz |] eqn:Ez; simpl; [| done].
  intros [= <-].
  destruct (toGridCoord vu (p3x p') 0) as [gx' |] eqn:Ex'; simpl; [| done].
  destruct (toGridCoord vu (p3y p') 1) as [gy' |] eqn:Ey'; simpl; [| done].
  destruct (toGridCoord vu (p3z p') 2) as [gz' |] eqn:Ez'; simpl; [| done].
  intros [= <-] (Lx & Ly & Lz). unfold p3_le. simpl.
  split; [| split].
  - exact (toGridCoord_le vu 0 _ _ _ _ _ eq_refl Hx Hpx Hpx' Ex Ex' Lx).
  - exact (toGridCoord_le vu 1 _ _ _ _ _ eq_refl Hy Hpy Hpy' Ey Ey' Ly).
  - exact (toGridCoord_le vu 2 _ _ _ _ _ eq_refl Hz Hpz Hpz' Ez Ez' Lz).
Qed.

Lemma toGridPoint_monotone_witness :
  p3_le (mkPoint3 (-2) 0 0) (mkPoint3 (-1) 0 1).
Proof.
  apply (toGridPoint_monotone (mkVoxelUtils (mkPoint3 200 200 4))
           (mkPoint3 (-200) 0 0) (mkPoint3 (-199) 100 7));
    try reflexivity; try (by vm_compute); repeat split; lia.
Defined.

(** Every point lies between the lower corner of the cell it is mapped
    to and that corner plus the cell size, and strictly below the latter
    in every component that is not negative. *)
Theorem point_within_its_cell (vu : VoxelUtils) (p : Point3) :
  p3_positive (cell_size vu) -> p3_roomy (cell_size vu) p ->
  exists g c,
    toGridPoint vu p = Some g /\ toLowerCorner vu g = Some c
    /\ p3_le c p /\ p3_le p (p3_plus c (cell_size vu))
    /\ (0 <= p3x p -> p3x p < p3x c + p3x (cell_size vu))
    /\ (0 <= p3y p -> p3y p < p3y c + p3y (cell_size vu))
    /\ (0 <= p3z p -> p3z p < p3z c + p3z (cell_size vu)).
Proof.
  intros (Hx & Hy & Hz) (Rx & Ry & Rz).
  destruct (cell_of_coord vu 0 _ (p3x p) eq_refl Hx Rx) as (gx & Ex & _ & Lx & Bx & Sx).
  destruct (cell_of_coord vu 1 _ (p3y p) eq_refl Hy Ry) as (gy & Ey & _ & Ly & By & Sy).
  destruct (cell_of_coord vu 2 _ (p3z p) eq_refl Hz Rz) as (gz & Ez & _ & Lz & Bz & Sz).
  exists (mkPoint3 gx gy gz), (mkPoint3 (gx * p3x (cell_size vu))
                                 (gy * p3y (cell_size vu)) (gz * p3z (cell_size vu))).
  unfold toGridPoint, toLowerCorner. rewrite Ex, Ey, Ez.
  cbn -[toLowerCoord toGridCoord].
  rewrite Lx, Ly, Lz. cbn -[toLowerCoord toGridCoord]. unfold p3_le, p3_plus. simpl.
  repeat split; try done; try lia; intros; auto.
Qed.

Lemma point_within_its_cell_witness :
  exists g c,
    toGridPoint (mkVoxelUtils (mkPoint3 200 200 4)) (mkPoint3 (-200) 50 9) = Some g
    /\ toLowerCorner (mkVoxelUtils (mkPoint3 200 200 4)) g = Some c
    /\ p3_le c (mkPoint3 (-200) 50 9).
Proof.
  destruct (point_within_its_cell (mkVoxelUtils (mkPoint3 200 200 4))
              (mkPoint3 (-200) 50 9))
    as (g & c & Hg & Hc & Hle & _);
    [repeat split; simpl; lia | repeat split; by vm_compute |].
  exists g, c. split; [exact Hg |]. split; [exact Hc | exact Hle].
Defined.

(** Mapping the lower corner of a cell back to the grid gives the cell
    itself in every component that is not negative and the cell below in
    every negative component. *)
Theorem lower_corner_round_trip (vu : VoxelUtils) (g : GridPoint3) :
  p3_positive (cell_size vu) ->
  coord_ok (p3x g * p3x (cell_size vu)) ->
  coord_ok (p3y g * p3y (cell_size vu)) ->
  coord_ok (p3z g * p3z (cell_size vu)) ->
  exists c,
    toLowerCorner vu g = Some c
    /\ toGridPoint vu c
       = Some (mkPoint3 (p3x g - (if p3x g <? 0 then 1 else 0))
                        (p3y g - (if p3y g <? 0 then 1 else 0))
                        (p3z g - (if p3z g <? 0 then 1 else 0)))
    /\ (0 <= p3x g -> 0 <= p3y g -> 0 <= p3z g -> toGridPoint vu c = Some g).
Proof.
  intros (Hx & Hy & Hz) Rx Ry Rz.
  destruct (toGridCoord_toLowerCoord vu 0 _ eq_refl Hx (p3x g) Rx) as (lx & Lx & Gx).
  destruct (toGridCoord_toLowerCoord vu 1 _ eq_refl Hy (p3y g) Ry) as (ly & Ly & Gy).
  destruct (toGridCoord_toLowerCoord vu 2 _ eq_refl Hz (p3z g) Rz) as (lz & Lz & Gz).
  exists (mkPoint3 lx ly lz). unfold toLowerCorner, toGridPoint.
  rewrite Lx, Ly, Lz. cbn -[toLowerCoord toGridCoord].
  rewrite Gx, Gy, Gz. cbn -[toLowerCoord toGridCoord].
  split; [done |]. split; [done |].
  intros Px Py Pz. destruct g as [gx gy gz]. simpl in *.
  destruct (Z.ltb_spec gx 0), (Z.ltb_spec gy 0), (Z.ltb_spec gz 0); try lia.
  by rewrite !Z.sub_0_r.
Qed.

Lemma lower_corner_round_trip_witness :
  exists c,
    toLowerCorner (mkVoxelUtils (mkPoint3 200 200 4)) (mkPoint3 3 0 2) = Some c
    /\ toGridPoint (mkVoxelUtils (mkPoint3 200 200 4)) c = Some (mkPoint3 3 0 2).
Proof.
  destruct (lower_corner_round_trip (mkVoxelUtils (mkPoint3 200 200 4)) (mkPoint3 3 0 2))
    as (c & Hc & _ & Hg);
    [repeat split; simpl; lia | by vm_compute | by vm_compute | by vm_compute |].
  exists c. split; [exact Hc |]. apply Hg; simpl; lia.
Defined.

(** Every point lies in the square [toPolygon] gives for the cell the
    point is mapped to, and that square runs from the lower corner of the
    cell to the corner plus the cell size. *)
Theorem point_in_polygon_of_its_cell (vu : VoxelUtils) (p : Point3) :
  p3_positive (cell_size vu) -> p3_roomy (cell_size vu) p ->
  exists g c,
    toGridPoint vu p = Some g /\ toLowerCorner vu g = Some c
    /\ toPolygon vu g
       = Some (along_x (p3x c) (p3y c)
                 (p3x c + p3x (cell_size vu)) (p3y c + p3y (cell_size vu)))
    /\ forall poly, toPolygon vu g = Some poly ->
         rectangle_covers poly (inject_Z (p3x p)) (inject_Z (p3y p)).
Proof.
  intros (Hx & Hy & Hz) (Rx & Ry & Rz).
  destruct (cell_of_coord vu 0 _ (p3x p) eq_refl Hx Rx) as (gx & Ex & _ & Lx & Bx & _).
  destruct (cell_of_coord vu 1 _ (p3y p) eq_refl Hy Ry) as (gy & Ey & _ & Ly & By & _).
  destruct (cell_of_coord vu 2 _ (p3z p) eq_refl Hz Rz) as (gz & Ez & _ & Lz & _).
  exists (mkPoint3 gx gy gz), (mkPoint3 (gx * p3x (cell_size vu))
                                 (gy * p3y (cell_size vu)) (gz * p3z (cell_size vu))).
  assert (Hc : toLowerCorner vu (mkPoint3 gx gy gz)
               = Some (mkPoint3 (gx * p3x (cell_size vu))
                         (gy * p3y (cell_size vu)) (gz * p3z (cell_size vu)))).
  { unfold toLowerCorner. cbn -[toLowerCoord]. rewrite Lx, Ly, Lz. done. }
  assert (Hp : toPolygon vu (mkPoint3 gx gy gz)
               = Some (along_x (gx * p3x (cell_size vu)) (gy * p3y (cell_size vu))
                         (gx * p3x (cell_size vu) + p3x (cell_size vu))
                         (gy * p3y (cell_size vu) + p3y (cell_size vu)))).
  { unfold toPolygon. rewrite Hc. cbn -[toLowerCoord].
    destruct Rx as [Rx0 Rx1], Ry as [Ry0 Ry1].
    rewrite !wrap64_small by int_lia. done. }
  split; [| split; [done |]; split; [done |]].
  - unfold toGridPoint. rewrite Ex, Ey, Ez. done.
  - intros poly. rewrite Hp. intros [= <-].
    unfold rectangle_covers.
    destruct (bounds_along_x (gx * p3x (cell_size vu)) (gy * p3y (cell_size vu))
                (gx * p3x (cell_size vu) + p3x (cell_size vu))
                (gy * p3y (cell_size vu) + p3y (cell_size vu))
                ltac:(lia) ltac:(lia)) as (E & -> & -> & -> & ->).
    split; [done |]. rewrite <- !Zle_Qle. lia.
Qed.

Lemma point_in_polygon_of_its_cell_witness :
  exists poly,
    toPolygon (mkVoxelUtils (mkPoint3 200 200 4)) (mkPoint3 (-2) 0 2) = Some poly
    /\ rectangle_covers poly (inject_Z (-200)) (inject_Z 50).
Proof.
  destruct (point_in_polygon_of_its_cell (mkVoxelUtils (mkPoint3 200 200 4))
              (mkPoint3 (-200) 50 9))
    as (g & c & Hg & Hc & Hp & Hin);
    [repeat split; simpl; lia | repeat split; by vm_compute |].
  injection Hg as <-. eexists. split; [reflexivity |]. by apply Hin.
Defined.

(** ** The templates of the entry point *)

Section EntryTemplates.

Context `{L : Library}.
Variables mesh_a mesh_b : Slicer.

#[local] Abbreviation w_a := (wall_line_width_0 (mesh mesh_a)).
#[local] Abbreviation w_b := (wall_line_width_0 (mesh mesh_b)).
#[local] Abbreviation cell := (2 * w_a + 2 * w_b).

Hypothesis Ha : 0 <= w_a < 2 ^ 30.
Hypothesis Hb : 0 <= w_b < 2 ^ 30.
Hypothesis Hab : 0 < w_a + w_b.

Lemma make_generator_cell_size :
  gen_cell_size (make_generator mesh_a mesh_b) = mkPoint3 cell cell 4
  /\ vu (make_generator mesh_a mesh_b) = mkVoxelUtils (mkPoint3 cell cell 4)
  /\ beam_widths (make_generator mesh_a mesh_b) = (2 * w_a, 2 * w_b).
Proof.
  unfold make_generator. simpl.
  rewrite (wrap64_small (2 * w_a)), (wrap64_small (2 * w_b)) by int_lia.
  rewrite (wrap64_small cell) by int_lia. done.
Qed.

Lemma make_generator_templates :
  generateMicrostructure (make_generator mesh_a mesh_b)
  = Some [ [ [along_x 0 0 (2 * w_a) cell]; [along_x (2 * w_a) 0 cell cell] ];
           [ [along_y 0 0 cell (2 * w_a)]; [along_y 0 (2 * w_a) cell cell] ] ].
Proof.
  destruct make_generator_cell_size as (Hcs & _ & Hw).
  unfold generateMicrostructure. rewrite Hcs, Hw. cbn [fst snd p3x p3y].
  rewrite (wrap64_small cell) by int_lia.
  rewrite (wrap64_small (cell * (2 * w_a))) by (unfold in_int64, int64_min, int64_max; nia).
  rewrite cdiv_Some by lia.
  replace (Z.quot (cell * (2 * w_a)) cell) with (2 * w_a)
    by (rewrite (Z.mul_comm cell (2 * w_a)), Z.quot_mul; lia).
  rewrite (wrap64_small (2 * w_a)) by int_lia.
  cbn [mbind option_bind]. unfold template_rect, point_add, swap_XY, along_x, along_y.
  rewrite Hcs. cbn [p3x p3y X Y map].
  rewrite !Z.add_0_l, !Z.add_0_r.
  rewrite (wrap64_small (cell - 2 * w_a)) by int_lia.
  replace (2 * w_a + (cell - 2 * w_a)) with cell by lia.
  rewrite (wrap64_small 0), (wrap64_small (2 * w_a)), (wrap64_small cell) by int_lia.
  done.
Qed.

End EntryTemplates.

(** On a pair of the entry point whose wall line widths are not negative,
    not both zero and below 2^30, the division of the cell is exact: the
    beam of mesh a is two wall lines of mesh a wide, the beam of mesh b
    two wall lines of mesh b, side by side along x in even bands and
    along y in odd bands, in a cell as wide as both beams and four layers
    high. *)
Theorem beams_are_two_wall_lines_wide `{L : Library} (mesh_a mesh_b : Slicer) :
  let w_a := wall_line_width_0 (mesh mesh_a) in
  let w_b := wall_line_width_0 (mesh mesh_b) in
  let cell := 2 * w_a + 2 * w_b in
  let gen := make_generator mesh_a mesh_b in
  0 <= w_a < 2 ^ 30 -> 0 <= w_b < 2 ^ 30 -> 0 < w_a + w_b ->
  exists T00 T01 T10 T11,
    generateMicrostructure gen = Some [[T00; T01]; [T10; T11]]
    /\ gen_cell_size gen = mkPoint3 cell cell 4
    /\ cell_size (vu gen) = mkPoint3 cell cell 4
    /\ (forall x y, rectangles_cover T00 x y <-> in_box 0 0 (2 * w_a) cell x y)
    /\ (forall x y, rectangles_cover T01 x y <-> in_box (2 * w_a) 0 cell cell x y)
    /\ (forall x y, rectangles_cover T10 x y <-> in_box 0 0 cell (2 * w_a) x y)
    /\ (forall x y, rectangles_cover T11 x y <-> in_box 0 (2 * w_a) cell cell x y).
Proof.
  intros w_a w_b cell gen Ha Hb Hab. subst gen.
  destruct (make_generator_cell_size mesh_a mesh_b Ha Hb Hab) as (Hcs & Hvu & _).
  do 4 eexists.
  split; [exact (make_generator_templates mesh_a mesh_b Ha Hb Hab) |].
  split; [done |]. split; [by rewrite Hvu |].
  fold w_a w_b cell.
  split; [intros x y; apply rectangles_cover_along_x; lia |].
  split; [intros x y; apply rectangles_cover_along_x; lia |].
  split; [intros x y; apply rectangles_cover_along_y; lia |].
  intros x y; apply rectangles_cover_along_y; lia.
Qed.

Lemma translate_along_x x0 y0 x1 y1 v :
  in_int64 (x0 + X v) -> in_int64 (x1 + X v) ->
  in_int64 (y0 + Y v) -> in_int64 (y1 + Y v) ->
  translate [along_x x0 y0 x1 y1] v
  = [along_x (x0 + X v) (y0 + Y v) (x1 + X v) (y1 + Y v)].
Proof.
  intros. unfold translate, along_x, point_add. cbn [map X Y].
  by rewrite !wrap64_small by done.
Qed.

Lemma translate_along_y x0 y0 x1 y1 v :
  in_int64 (x0 + X v) -> in_int64 (x1 + X v) ->
  in_int64 (y0 + Y v) -> in_int64 (y1 + Y v) ->
  translate [along_y x0 y0 x1 y1] v
  = [along_y (x0 + X v) (y0 + Y v) (x1 + X v) (y1 + Y v)].
Proof.
  intros. unfold translate, along_y, point_add. cbn [map X Y].
  by rewrite !wrap64_small by done.
Qed.

Lemma overlap_area_singletons p q :
  overlap_area [p] [q] = rectangle_overlap_area p q.
Proof. unfold overlap_area. simpl. lia. Qed.

(** The two templates of a band, moved to the lower corner of a cell as
    the stamping loop moves them, cover exactly the square [toPolygon]
    gives for the cell, and share no area: what is stamped for a cell
    stays in the cell, and every point of the cell goes to one of the two
    meshes. *)
Theorem stamped_templates_tile_the_cell `{L : Library}
    (mesh_a mesh_b : Slicer) (g : GridPoint3) :
  let w_a := wall_line_width_0 (mesh mesh_a) in
  let w_b := wall_line_width_0 (mesh mesh_b) in
  let cell := 2 * w_a + 2 * w_b in
  let gen := make_generator mesh_a mesh_b in
  0 <= w_a < 2 ^ 30 -> 0 <= w_b < 2 ^ 30 -> 0 < w_a + w_b ->
  coord_roomy cell (p3x g * cell) -> coord_roomy cell (p3y g * cell) ->
  exists c poly T00 T01 T10 T11,
    toLowerCorner (vu gen) g = Some c
    /\ toPolygon (vu gen) g = Some poly
    /\ generateMicrostructure gen = Some [[T00; T01]; [T10; T11]]
    /\ (forall x y,
          rectangles_cover (translate T00 (mkPoint (p3x c) (p3y c))) x y
          \/ rectangles_cover (translate T01 (mkPoint (p3x c) (p3y c))) x y
          <-> rectangle_covers poly x y)
    /\ overlap_area (translate T00 (mkPoint (p3x c) (p3y c)))
                    (translate T01 (mkPoint (p3x c) (p3y c))) = 0
    /\ (forall x y,
          rectangles_cover (translate T10 (mkPoint (p3x c) (p3y c))) x y
          \/ rectangles_cover (translate T11 (mkPoint (p3x c) (p3y c))) x y
          <-> rectangle_covers poly x y)
    /\ overlap_area (translate T10 (mkPoint (p3x c) (p3y c)))
                    (translate T11 (mkPoint (p3x c) (p3y c))) = 0.
Proof.
  intros w_a w_b cell gen Ha Hb Hab [Rx0 Rx1] [Ry0 Ry1]. subst gen.
  destruct (make_generator_cell_size mesh_a mesh_b Ha Hb Hab) as (Hcs & Hvu & _).
  fold w_a w_b cell in Hcs, Hvu.
  set (vx := p3x g * cell) in *. set (vy := p3y g * cell) in *.
  set (m := 2 * w_a).
  assert (Hm : 0 <= m <= cell) by (unfold m, cell; lia).
  assert (Hcell : 0 < cell < 2 ^ 32) by (unfold cell; lia).
  exists (mkPoint3 vx vy (wrap64 (p3z g * 4))),
         (along_x vx vy (vx + cell) (vy + cell)).
  do 4 eexists.
  assert (Hc : toLowerCorner (mkVoxelUtils (mkPoint3 cell cell 4)) g
               = Some (mkPoint3 vx vy (wrap64 (p3z g * 4)))).
  { unfold toLowerCorner, toLowerCoord.
    cbn [p3_index cell_size mbind option_bind p3x p3y p3z].
    change (p3x g * cell) with vx. change (p3y g * cell) with vy. by rewrite (wrap64_small vx), (wrap64_small vy) by int_lia. }
  split; [by rewrite Hvu |].
  split.
  { rewrite Hvu. unfold toPolygon. rewrite Hc.
    cbn [mbind option_bind cell_size p3x p3y].
    by rewrite (wrap64_small (vx + cell)), (wrap64_small (vy + cell)) by int_lia. }
  split; [exact (make_generator_templates mesh_a mesh_b Ha Hb Hab) |].
  fold w_a w_b cell m. cbn [p3x p3y].
  rewrite !translate_along_x, !translate_along_y by (cbn [X Y]; int_lia).
  cbn [X Y]. rewrite !Z.add_0_l.
  assert (Hq : (inject_Z (m + vx) == inject_Z vx + inject_Z m)%Q
               /\ (inject_Z (m + vy) == inject_Z vy + inject_Z m)%Q
               /\ (inject_Z (cell + vx) == inject_Z vx + inject_Z cell)%Q
               /\ (inject_Z (cell + vy) == inject_Z vy + inject_Z cell)%Q
               /\ (inject_Z (vx + cell) == inject_Z vx + inject_Z cell)%Q
               /\ (inject_Z (vy + cell) == inject_Z vy + inject_Z cell)%Q
               /\ (0 <= inject_Z m)%Q /\ (inject_Z m <= inject_Z cell)%Q).
  { rewrite <- !inject_Z_plus. change 0%Q with (inject_Z 0).
    rewrite <- !Zle_Qle. rewrite !inject_Z_injective. lia. }
  destruct Hq as (Q1 & Q2 & Q3 & Q4 & Q5 & Q6 & Q7 & Q8).
  assert (Hpoly : forall x y,
            rectangle_covers (along_x vx vy (vx + cell) (vy + cell)) x y
            <-> in_box vx vy (vx + cell) (vy + cell) x y).
  { intros x y.
    rewrite <- (rectangles_cover_along_x vx vy (vx + cell) (vy + cell)) by lia.
    unfold rectangles_cover. rewrite Exists_cons, Exists_nil. tauto. }
  split; [| split; [| split]].
  - intros x y. rewrite Hpoly.
    rewrite (rectangles_cover_along_x vx vy (m + vx) (cell + vy)) by lia.
    rewrite (rectangles_cover_along_x (m + vx) vy (cell + vx) (cell + vy)) by lia.
    unfold in_box. rewrite Q1, Q3, Q4, Q5, Q6.
    split; [intros [?|?]; lra |].
    intros ?. destruct (Qlt_le_dec x (inject_Z vx + inject_Z m)); [left | right]; lra.
  - rewrite overlap_area_singletons. apply overlap_zero_x.
    destruct (bounds_along_x vx vy (m + vx) (cell + vy) ltac:(lia) ltac:(lia))
      as (_ & _ & -> & _).
    destruct (bounds_along_x (m + vx) vy (cell + vx) (cell + vy) ltac:(lia) ltac:(lia))
      as (_ & -> & _).
    lia.
  - intros x y. rewrite Hpoly.
    rewrite (rectangles_cover_along_y vx vy (cell + vx) (m + vy)) by lia.
    rewrite (rectangles_cover_along_y vx (m + vy) (cell + vx) (cell + vy)) by lia.
    unfold in_box. rewrite Q2, Q3, Q4, Q5, Q6.
    split; [intros [?|?]; lra |].
    intros ?. destruct (Qlt_le_dec y (inject_Z vy + inject_Z m)); [left | right]; lra.
  - rewrite overlap_area_singletons. apply overlap_zero_y.
    destruct (bounds_along_y vx vy (cell + vx) (m + vy) ltac:(lia) ltac:(lia))
      as (_ & _ & _ & _ & ->).
    destruct (bounds_along_y vx (m + vy) (cell + vx) (cell + vy) ltac:(lia) ltac:(lia))
      as (_ & _ & _ & -> & _).
    lia.
Qed.

(** ** The shells *)

Section BoundaryCells.

Context `{L : Library}.
Variable gen : InterlockingGenerator.

Lemma layer_skin_total layer_polys layer_nr :
  (layer_nr < length layer_polys)%nat ->
  is_Some (layer_skin gen layer_polys layer_nr).
Proof.
  intros Hk. unfold layer_skin, at_index.
  destruct (lookup_lt_is_Some_2 layer_polys layer_nr Hk) as [here ->]. simpl.
  rewrite !cdiv_Some by lia.
  case_decide; simpl; [| by eexists].
  destruct (lookup_lt_is_Some_2 layer_polys (layer_nr - 1) ltac:(lia)) as [below ->].
  simpl. by eexists.
Qed.

Lemma addBoundaryCells_run layer_polys kernel cells :
  exists r,
    addBoundaryCells gen layer_polys kernel cells = Some r
    /\ forall p, p ∈ r
         <-> p ∈ cells
             \/ exists layer_nr, (layer_nr < length layer_polys)%nat
                  /\ p ∈ boundary_cells_of_layer gen layer_polys kernel layer_nr.
Proof.
  unfold addBoundaryCells.
  apply (for_range_total
           (fun k (s : gset GridPoint3) =>
              forall p, p ∈ s
                <-> p ∈ cells
                    \/ exists layer_nr, (layer_nr < k)%nat
                         /\ p ∈ boundary_cells_of_layer gen layer_polys kernel layer_nr)).
  - intros p. split; [by left |]. intros [H | (k & Hk & _)]; [done | lia].
  - intros k s [_ Hk] Hs. simpl in Hk.
    destruct (layer_skin_total layer_polys k Hk) as [skin Hskin].
    assert (Hcells : boundary_cells_of_layer gen layer_polys kernel k
                     = match layer_polys !! k with
                       | Some here =>
                           list_to_set (walkDilatedPolygons (vu gen) here (Z.of_nat k) kernel)
                           ∪ list_to_set (walkDilatedAreas (vu gen) skin (Z.of_nat k) kernel)
                       | None => ∅
                       end).
    { unfold boundary_cells_of_layer. rewrite Hskin. by destruct (layer_polys !! k). }
    revert Hskin Hcells. unfold layer_skin, at_index.
    destruct (lookup_lt_is_Some_2 layer_polys k Hk) as [here ->].
    cbn [mbind option_bind].
    destruct (if decide (0 < k)%nat
              then below ← layer_polys !! (k - 1)%nat; Some (xorPolygons here below)
              else Some here) as [raw |]; cbn [mbind option_bind]; [| done].
    destruct (cdiv (wrap64 (- p3x (gen_cell_size gen))) 2) as [half_neg |];
      cbn [mbind option_bind]; [| done].
    destruct (cdiv (p3x (gen_cell_size gen)) 2) as [half |];
      cbn [mbind option_bind]; [| done].
    intros [= <-] Hcells. eexists. split; [done |].
    intros p. rewrite !elem_of_union, Hs. split.
    + intros [[[H | (j & Hj & H)] | H] | H].
      * by left.
      * right. exists j. split; [lia | done].
      * right. exists k. split; [lia |]. rewrite Hcells. set_solver.
      * right. exists k. split; [lia |]. rewrite Hcells. set_solver.
    + intros [H | (j & Hj & H)]; [by left; left; left |].
      destruct (decide (j = k)) as [-> | Hne].
      * rewrite Hcells in H. apply elem_of_union in H as [H | H]; [left; by right | by right].
      * left. left. right. exists j. split; [lia | done].
Qed.

End BoundaryCells.

(** [addBoundaryCells] returns for every vector of layers, keeps the
    cells it is given and adds exactly the cells the two walkers visit:
    on every layer the cells along the outline and the cells of the
    skin, with the number of the layer as height. *)
Theorem addBoundaryCells_adds_the_cells_of_every_layer `{L : Library}
    (gen : InterlockingGenerator) (layer_polys : list Polygons)
    (kernel : DilationKernel) (cells : gset GridPoint3) :
  exists r,
    addBoundaryCells gen layer_polys kernel cells = Some r
    /\ cells ⊆ r
    /\ (forall p, p ∈ r
          <-> p ∈ cells
              \/ exists layer_nr, (layer_nr < length layer_polys)%nat
                   /\ p ∈ boundary_cells_of_layer gen layer_polys kernel layer_nr)
    /\ (forall layer_nr here p,
          layer_polys !! layer_nr = Some here ->
          p ∈ walkDilatedPolygons (vu gen) here (Z.of_nat layer_nr) kernel ->
          p ∈ r).
Proof.
  destruct (addBoundaryCells_run gen layer_polys kernel cells) as (r & Hrun & Hr).
  exists r. split; [done |]. split; [| split; [done |]].
  - intros p Hp. apply Hr. by left.
  - intros k here p Hk Hp. apply Hr. right. exists k.
    split; [by eapply lookup_lt_Some |].
    unfold boundary_cells_of_layer. rewrite Hk.
    destruct (layer_skin_total gen layer_polys k ltac:(by eapply lookup_lt_Some))
      as [skin ->].
    apply elem_of_union_l. by apply elem_of_list_to_set.
Qed.

(** The shell of a mesh is made of the cells of its own rotated layers
    only, whatever the other mesh is; a mesh without layers has an empty
    shell, and then no cell is left to stamp, with or without the
    removal of air cells. *)
Theorem shell_of_a_mesh_is_its_own `{L : Library}
    (gen : InterlockingGenerator) (mesh_a mesh_b : Slicer) (kernel : DilationKernel) :
  exists S_a S_b,
    getShellVoxels gen mesh_a mesh_b kernel = Some (S_a, S_b)
    /\ (forall p, p ∈ S_a
          <-> exists layer_nr, (layer_nr < length (layers mesh_a))%nat
                /\ p ∈ boundary_cells_of_layer gen
                         (rotated_polygons_per_layer gen mesh_a) kernel layer_nr)
    /\ (forall p, p ∈ S_b
          <-> exists layer_nr, (layer_nr < length (layers mesh_b))%nat
                /\ p ∈ boundary_cells_of_layer gen
                         (rotated_polygons_per_layer gen mesh_b) kernel layer_nr)
    /\ (layers mesh_a = [] -> S_a = ∅)
    /\ (layers mesh_b = [] -> S_b = ∅)
    /\ (layers mesh_a = [] \/ layers mesh_b = [] ->
        kernel = interface_dilation gen ->
        stamping_cells gen mesh_a mesh_b = Some ∅).
Proof.
  destruct (addBoundaryCells_run gen (rotated_polygons_per_layer gen mesh_a) kernel ∅)
    as (S_a & Ha & HSa).
  destruct (addBoundaryCells_run gen (rotated_polygons_per_layer gen mesh_b) kernel ∅)
    as (S_b & Hb & HSb).
  assert (Hlen : forall m, length (rotated_polygons_per_layer gen m) = length (layers m)).
  { intros m. unfold rotated_polygons_per_layer. by rewrite length_map. }
  rewrite Hlen in HSa, HSb.
  assert (Hshell : getShellVoxels gen mesh_a mesh_b kernel = Some (S_a, S_b)).
  { unfold getShellVoxels. by rewrite Ha, Hb. }
  assert (Ea : layers mesh_a = [] -> S_a = ∅).
  { intros E. apply set_eq. intros p. rewrite HSa, E. simpl. set_solver by lia. }
  assert (Eb : layers mesh_b = [] -> S_b = ∅).
  { intros E. apply set_eq. intros p. rewrite HSb, E. simpl. set_solver by lia. }
  exists S_a, S_b. split; [done |].
  split; [intros p; rewrite HSa; set_solver |].
  split; [intros p; rewrite HSb; set_solver |].
  split; [done |]. split; [done |].
  intros Hnil ->. rewrite (stamping_cells_value gen _ _ _ _ Hshell).
  assert (Hcontact : S_a ∩ S_b = ∅).
  { destruct Hnil as [E | E]; [rewrite (Ea E) | rewrite (Eb E)]; set_solver. }
  rewrite Hcontact. destruct (air_filtering gen); [| done].
  destruct (addBoundaryCells_total gen (computeLayerRegions gen mesh_a mesh_b)
              (air_dilation gen) ∅) as [air ->].
  simpl. f_equal. set_solver.
Qed.

(** ** The stamping loop *)

Section StampingFacts.

Context `{L : Library}.
Variable gen : InterlockingGenerator.
Hypothesis Hblc : beam_layer_count gen = 2.
Hypothesis Hcz : p3z (gen_cell_size gen) = 4.
Hypothesis Hvz : p3z (cell_size (vu gen)) = 4.

Variable templates : list (list Polygons).
Hypothesis Htemplates : template_table_ok templates.

Variable max_layer_count : nat.
Hypothesis Hmax : Z.of_nat max_layer_count + 2 <= 2 ^ 32.

Lemma stamp_beams_stop fuel mesh_idx bottom_corner layer_nr structure :
  (layer_nr <? wrap64 (p3z bottom_corner + 4))
  && (layer_nr <? Z.of_nat max_layer_count) = false ->
  stamp_beams gen fuel templates max_layer_count mesh_idx bottom_corner
    layer_nr structure = Some structure.
Proof. intros H. destruct fuel; simpl; by rewrite Hcz, H. Qed.

Lemma stamp_beams_round fuel mesh_idx bottom_corner band structure :
  (mesh_idx < 2)%nat ->
  2 * Z.of_nat band < Z.of_nat max_layer_count ->
  2 * Z.of_nat band < wrap64 (p3z bottom_corner + 4) ->
  length structure = band_count max_layer_count ->
  exists slot : Polygons,
    structure !! band = Some slot
    /\ stamp_beams gen (Datatypes.S fuel) templates max_layer_count mesh_idx
         bottom_corner (2 * Z.of_nat band) structure
       = stamp_beams gen fuel templates max_layer_count mesh_idx bottom_corner
           (2 * Z.of_nat band + 2)
           (<[band := slot ++ translate (template_of templates (band mod 2) mesh_idx)
                                (mkPoint (p3x bottom_corner) (p3y bottom_corner))]>
              structure).
Proof.
  intros Hmesh Hlt Hcell Hlen.
  assert (Hband : (band < band_count max_layer_count)%nat).
  { pose proof (band_of_layer_lt max_layer_count (2 * Z.of_nat band) ltac:(lia)) as H.
    replace (2 * Z.of_nat band / 2) with (Z.of_nat band) in H
      by (rewrite Z.mul_comm, Z.div_mul; lia).
    by rewrite Nat2Z.id in H. }
  destruct (lookup_lt_is_Some_2 structure band ltac:(lia)) as [slot Hslot].
  exists slot. split; [done |].
  cbn [stamp_beams]. rewrite Hcz.
  apply Z.ltb_lt in Hcell as ->. apply Z.ltb_lt in Hlt as Hlt'. rewrite Hlt'.
  cbn [andb]. rewrite Hblc. rewrite cdiv_Some by lia.
  replace (Z.quot (2 * Z.of_nat band) 2) with (Z.of_nat band)
    by (rewrite Z.mul_comm, Z.quot_mul; lia).
  rewrite wrap64_small by int_lia. cbn [mbind option_bind].
  assert (Hu : wrapu64 (Z.of_nat band) = Z.of_nat band).
  { unfold wrapu64. apply Z.mod_small. lia. }
  rewrite Hu, Nat2Z.id. destruct Htemplates as [Hrows Hcols]. rewrite Hrows.
  unfold umod. change (Z.of_nat 2 =? 0) with false. cbn [mbind option_bind].
  assert (Hpar : Z.to_nat (Z.of_nat band mod Z.of_nat 2) = (band mod 2)%nat).
  { rewrite <- Nat2Z.inj_mod. apply Nat2Z.id. }
  rewrite Hpar. unfold at_index.
  assert (Hparlt : (band mod 2 < 2)%nat) by (apply Nat.mod_upper_bound; lia).
  destruct (lookup_lt_is_Some_2 templates (band mod 2)%nat ltac:(lia)) as [row Hrow].
  unfold template_of. rewrite Hrow. cbn [mbind option_bind].
  assert (Hrowlen : length row = 2%nat).
  { by eapply (proj1 (Forall_lookup _ _) Hcols). }
  destruct (lookup_lt_is_Some_2 row mesh_idx ltac:(lia)) as [areas Hareas].
  rewrite !Hareas.
  cbn [mbind option_bind]. rewrite Hslot. cbn [mbind option_bind].
  rewrite set_index_Some by lia. cbn [mbind option_bind].
  assert (Hnext : wrapu32 (2 * Z.of_nat band + 2) = 2 * Z.of_nat band + 2).
  { unfold wrapu32. apply Z.mod_small. lia. }
  by rewrite Hnext.
Qed.

Lemma cell_stamp_out mesh_idx grid_loc bottom_corner band :
  p3z grid_loc <> Z.of_nat band / 2 ->
  cell_stamp templates mesh_idx grid_loc bottom_corner band = [].
Proof.
  intros H. unfold cell_stamp.
  by destruct (Z.eqb_spec (p3z grid_loc) (Z.of_nat band / 2)).
Qed.

Lemma cell_stamp_in mesh_idx grid_loc bottom_corner band :
  p3z grid_loc = Z.of_nat band / 2 ->
  cell_stamp templates mesh_idx grid_loc bottom_corner band
  = translate (template_of templates (band mod 2) mesh_idx)
      (mkPoint (p3x bottom_corner) (p3y bottom_corner)).
Proof.
  intros H. unfold cell_stamp.
  by destruct (Z.eqb_spec (p3z grid_loc) (Z.of_nat band / 2)).
Qed.

(** Every band of the vectors starts below the layer count. *)
Lemma band_starts_below_the_top band :
  (band < band_count max_layer_count)%nat ->
  2 * Z.of_nat band < Z.of_nat max_layer_count.
Proof.
  unfold band_count. intros H.
  assert (Z.of_nat band < (Z.of_nat max_layer_count + 1) / 2) by lia.
  div_lia.
Qed.

Lemma lookup_outside (structure r : list Polygons) (f : Polygons -> Polygons) band :
  length r = length structure -> ~ (band < length structure)%nat ->
  r !! band = f <$> structure !! band.
Proof.
  intros Hlen Hband.
  rewrite (lookup_ge_None_2 r), (lookup_ge_None_2 structure) by lia. done.
Qed.

Lemma lookup_app_nil (structure : list Polygons) band :
  structure !! band = (fun slot : Polygons => slot ++ []) <$> structure !! band.
Proof. destruct (structure !! band); simpl; [by rewrite app_nil_r | done]. Qed.

(** What one cell does to the structure of one mesh. *)
Lemma stamp_beams_cell fuel mesh_idx grid_loc bottom_corner structure :
  (max_layer_count <= fuel)%nat ->
  toLowerCorner (vu gen) grid_loc = Some bottom_corner ->
  cell_height_ok grid_loc ->
  (mesh_idx < 2)%nat ->
  length structure = band_count max_layer_count ->
  exists r,
    stamp_beams gen fuel templates max_layer_count mesh_idx
      bottom_corner (wrapu32 (p3z bottom_corner)) structure = Some r
    /\ length r = length structure
    /\ forall band,
         r !! band
         = (fun slot : Polygons =>
              slot ++ cell_stamp templates mesh_idx
                        grid_loc bottom_corner band)
           <$> structure !! band.
Proof.
  intros Hfuel Hcorner [Hlo Hhi] Hmesh Hlen.
  assert (Hz : p3z bottom_corner = 4 * p3z grid_loc).
  { revert Hcorner. unfold toLowerCorner, toLowerCoord.
    cbn [p3_index mbind option_bind]. intros [= <-]. cbn [p3z].
    rewrite Hvz, wrap64_small by int_lia. lia. }
  rewrite Hz.
  destruct (Z.ltb_spec (p3z grid_loc) 0) as [Hneg | Hpos].
  { (* a cell below the first layer *)
    exists structure. split; [| split; [done |]].
    - apply stamp_beams_stop. apply andb_false_iff. left. apply Z.ltb_ge.
      pose proof (wrapu32_nonneg max_layer_count (4 * p3z grid_loc)).
      rewrite wrap64_small by int_lia. lia.
    - intros band. rewrite cell_stamp_out; [apply lookup_app_nil |].
      assert (0 <= Z.of_nat band / 2) by (apply Z.div_pos; lia). lia. }
  assert (Hfirst : wrapu32 (4 * p3z grid_loc) = 4 * p3z grid_loc).
  { unfold wrapu32. apply Z.mod_small. lia. }
  rewrite Hfirst.
  set (k := Z.to_nat (2 * p3z grid_loc)).
  assert (Hk : Z.of_nat k = 2 * p3z grid_loc) by (unfold k; lia).
  assert (Hw : forall d, 0 <= d <= 4 -> wrap64 (4 * p3z grid_loc + d) = 4 * p3z grid_loc + d).
  { intros d Hd. apply wrap64_small. int_lia. }
  destruct (Z.ltb_spec (4 * p3z grid_loc) (Z.of_nat max_layer_count)) as [Hin | Hout];
    cycle 1.
  { (* a cell above the last layer *)
    exists structure. split; [| split; [done |]].
    - apply stamp_beams_stop. apply andb_false_iff. right. by apply Z.ltb_ge.
    - intros band.
      destruct (decide (band < length structure)%nat) as [Hband | Hband];
        [| by apply lookup_outside].
      rewrite Hlen in Hband. apply band_starts_below_the_top in Hband.
      rewrite cell_stamp_out; [apply lookup_app_nil |]. div_lia. }
  destruct fuel as [| fuel]; [lia |].
  replace (4 * p3z grid_loc) with (2 * Z.of_nat k) by lia.
  destruct (stamp_beams_round fuel mesh_idx bottom_corner k structure Hmesh
              ltac:(lia) ltac:(rewrite Hz, Hw; lia) Hlen) as (slot0 & Hslot0 & ->).
  set (structure1 := <[k := _]> structure).
  assert (Hlen1 : length structure1 = band_count max_layer_count).
  { unfold structure1. by rewrite length_insert. }
  destruct (Z.ltb_spec (2 * Z.of_nat k + 2) (Z.of_nat max_layer_count)) as [Hin2 | Hout2];
    cycle 1.
  { (* the cell reaches the top: only its lower band is stamped *)
    exists structure1. split; [| split; [by rewrite Hlen1 |]].
    - apply stamp_beams_stop. apply andb_false_iff. right. by apply Z.ltb_ge.
    - intros band.
      destruct (decide (band < length structure)%nat) as [Hband | Hband];
        [| apply lookup_outside; [by rewrite Hlen1 | done]].
      rewrite Hlen in Hband. apply band_starts_below_the_top in Hband.
      unfold structure1. destruct (decide (band = k)) as [-> | Hne].
      + rewrite list_lookup_insert_eq by (by eapply lookup_lt_Some).
        rewrite Hslot0. simpl. f_equal. f_equal.
        symmetry. apply cell_stamp_in. div_lia.
      + rewrite list_lookup_insert_ne by done.
        rewrite cell_stamp_out; [apply lookup_app_nil |].
        assert (Z.of_nat band <> Z.of_nat k) by lia. div_lia. }
  destruct fuel as [| fuel']; [lia |].
  replace (2 * Z.of_nat k + 2) with (2 * Z.of_nat (Datatypes.S k)) by lia.
  destruct (stamp_beams_round fuel' mesh_idx bottom_corner (Datatypes.S k) structure1
              Hmesh ltac:(lia) ltac:(rewrite Hz, Hw; lia) Hlen1) as (slot1 & Hslot1 & ->).
  set (structure2 := <[Datatypes.S k := _]> structure1).
  exists structure2. split; [| split].
  - apply stamp_beams_stop. apply andb_false_iff. left. apply Z.ltb_ge.
    rewrite Hz, Hw by lia. lia.
  - unfold structure2, structure1. by rewrite !length_insert.
  - intros band. unfold structure2.
    destruct (decide (band = Datatypes.S k)) as [-> | Hne1].
    + rewrite list_lookup_insert_eq by (by eapply lookup_lt_Some).
      unfold structure1 in Hslot1. rewrite list_lookup_insert_ne in Hslot1 by lia.
      rewrite Hslot1. simpl. f_equal. f_equal.
      symmetry. apply cell_stamp_in. div_lia.
    + rewrite list_lookup_insert_ne by done. unfold structure1.
      destruct (decide (band = k)) as [-> | Hne0].
      * rewrite list_lookup_insert_eq by (by eapply lookup_lt_Some).
        rewrite Hslot0. simpl. f_equal. f_equal.
        symmetry. apply cell_stamp_in. div_lia.
      * rewrite list_lookup_insert_ne by done.
        rewrite cell_stamp_out; [apply lookup_app_nil |].
        assert (Z.of_nat band <> Z.of_nat k) by lia.
        assert (Z.of_nat band <> Z.of_nat k + 1) by lia. div_lia.
Qed.

(** What the loop over the cells does to both structures. *)
Lemma stamp_cells_lookup cells s0 s1 :
  Forall cell_height_ok cells ->
  length s0 = band_count max_layer_count -> length s1 = band_count max_layer_count ->
  exists t0 t1,
    stamp_cells gen templates max_layer_count cells (s0, s1) = Some (t0, t1)
    /\ length t0 = band_count max_layer_count
    /\ length t1 = band_count max_layer_count
    /\ (forall band,
          t0 !! band
          = (fun slot : Polygons =>
               slot ++ stamped_band gen templates 0 cells band)
            <$> s0 !! band)
    /\ (forall band,
          t1 !! band
          = (fun slot : Polygons =>
               slot ++ stamped_band gen templates 1 cells band)
            <$> s1 !! band).
Proof.
  intros Hcells. revert s0 s1.
  induction Hcells as [| g cells Hg Hcells IH]; intros s0 s1 H0 H1.
  - exists s0, s1. split; [done |]. split; [done |]. split; [done |].
    split; intros band; apply lookup_app_nil.
  - destruct (toLowerCorner_total (vu gen) g) as [c Hc].
    destruct (stamp_beams_cell max_layer_count 0 g c s0 ltac:(lia) Hc Hg ltac:(lia) H0)
      as (u0 & Hu0 & Hl0 & Hk0).
    destruct (stamp_beams_cell max_layer_count 1 g c s1 ltac:(lia) Hc Hg ltac:(lia) H1)
      as (u1 & Hu1 & Hl1 & Hk1).
    destruct (IH u0 u1 ltac:(lia) ltac:(lia)) as (t0 & t1 & Hrun & Ht0 & Ht1 & Hr0 & Hr1).
    exists t0, t1. split; [| split; [done |]; split; [done |]; split].
    + unfold stamp_cells in *. cbn [for_each]. rewrite Hc. cbn [mbind option_bind fst snd].
      rewrite Hu0. cbn [mbind option_bind]. rewrite Hu1. cbn [mbind option_bind].
      exact Hrun.
    + intros band. rewrite Hr0, Hk0. unfold stamped_band. cbn [flat_map]. rewrite Hc.
      destruct (s0 !! band); simpl; [| done]. by rewrite app_assoc.
    + intros band. rewrite Hr1, Hk1. unfold stamped_band. cbn [flat_map]. rewrite Hc.
      destruct (s1 !! band); simpl; [| done]. by rewrite app_assoc.
Qed.

End StampingFacts.

(** The bands the stamping loop of the entry point leaves. *)
Lemma entry_stamped_bands `{L : Library} (mesh_a mesh_b : Slicer)
    (cells : gset GridPoint3) (templates : list (list Polygons))
    (t0 t1 : list Polygons) :
  let gen := make_generator mesh_a mesh_b in
  let max_layer_count := (length (layers mesh_a) `max` length (layers mesh_b))%nat in
  layer_count_ok mesh_a mesh_b ->
  template_table_ok templates ->
  stamped_structures gen cells templates mesh_a mesh_b = Some (t0, t1) ->
  set_Forall cell_height_ok cells ->
  forall band, (band < band_count max_layer_count)%nat ->
    t0 !! band = Some (stamped_band gen templates 0 (elements cells) band)
    /\ t1 !! band = Some (stamped_band gen templates 1 (elements cells) band).
Proof.
  intros gen max_layer_count Hcount Hok Hrun Hheights band Hband.
  destruct (stamp_cells_lookup gen eq_refl eq_refl eq_refl templates Hok
              max_layer_count Hcount (elements cells)
              (replicate (band_count max_layer_count) [])
              (replicate (band_count max_layer_count) []))
    as (u0 & u1 & Hrun' & _ & _ & Hk0 & Hk1).
  { apply Forall_forall. intros g Hg. apply Hheights. by apply elem_of_elements. }
  { apply length_replicate. }
  { apply length_replicate. }
  assert (E : (t0, t1) = (u0, u1)).
  { unfold stamped_structures in Hrun. fold max_layer_count in Hrun.
    change (beam_layer_count gen) with 2 in Hrun.
    rewrite udiv_two in Hrun. cbn [mbind option_bind] in Hrun.
    fold (band_count max_layer_count) in Hrun.
    pose proof (eq_trans (eq_sym Hrun) Hrun') as E. by injection E as -> ->. }
  injection E as -> ->.
  split; [rewrite Hk0 | rewrite Hk1]; by rewrite lookup_replicate_2 by done.
Qed.

(** On a pair of the entry point the stamping loop returns, and if every
    contact cell has a height between -2^61 and 2^30, band [k] of the
    structure of a mesh holds, for every contact cell of height [k / 2]
    in the order the loop visits the cells, the template of that mesh
    for the parity of [k], moved to the lower corner of the cell: the
    two bands of a cell get the two parities, and a cell below height
    zero or above the top band adds nothing. *)
Theorem stamping_alternates_the_templates `{L : Library} (mesh_a mesh_b : Slicer) :
  beam_width_sum mesh_a mesh_b <> 0 ->
  layer_count_ok mesh_a mesh_b ->
  let gen := make_generator mesh_a mesh_b in
  let max_layer_count := (length (layers mesh_a) `max` length (layers mesh_b))%nat in
  exists cells templates t0 t1,
    stamping_cells gen mesh_a mesh_b = Some cells
    /\ generateMicrostructure gen = Some templates
    /\ stamped_structures gen cells templates mesh_a mesh_b = Some (t0, t1)
    /\ length t0 = band_count max_layer_count
    /\ length t1 = band_count max_layer_count
    /\ (set_Forall cell_height_ok cells ->
        forall band, (band < band_count max_layer_count)%nat ->
          t0 !! band = Some (stamped_band gen templates 0 (elements cells) band)
          /\ t1 !! band = Some (stamped_band gen templates 1 (elements cells) band)).
Proof.
  intros Hsum Hcount gen max_layer_count.
  destruct (stamping_cells_total gen mesh_a mesh_b) as [cells Hcells].
  destruct (generateMicrostructure_Some gen Hsum (beam_width_sum_even mesh_a mesh_b))
    as (templates & Htpl & Hok).
  destruct (stamped_structures_total gen eq_refl mesh_a mesh_b Hcount cells templates Hok)
    as (t0 & t1 & Hrun & Hl0 & Hl1).
  exists cells, templates, t0, t1.
  split; [done |]. split; [done |]. split; [done |]. split; [done |]. split; [done |].
  intros Hheights band Hband.
  exact (entry_stamped_bands mesh_a mesh_b cells templates t0 t1 Hcount Hok Hrun
           Hheights band Hband).
Qed.

(** ** Division by the sum of the beam widths *)

(** On a pair whose layer counts fit the layer counter, the generator of
    the entry point runs into a division by zero exactly when the two
    beam widths sum to zero, as they do for two meshes with wall lines
    of width zero; otherwise it returns. *)
Theorem generator_undefined_iff_beam_widths_sum_to_zero `{L : Library}
    (mesh_a mesh_b : Slicer) :
  layer_count_ok mesh_a mesh_b ->
  (generateInterlockingStructure (make_generator mesh_a mesh_b) mesh_a mesh_b = None
   <-> beam_width_sum mesh_a mesh_b = 0)
  /\ (generateMicrostructure (make_generator mesh_a mesh_b) = None
      <-> beam_width_sum mesh_a mesh_b = 0)
  /\ (wall_line_width_0 (mesh mesh_a) = 0 -> wall_line_width_0 (mesh mesh_b) = 0 ->
      generateInterlockingStructure (make_generator mesh_a mesh_b) mesh_a mesh_b = None).
Proof.
  intros Hcount.
  assert (Hnone : beam_width_sum mesh_a mesh_b = 0 ->
            generateMicrostructure (make_generator mesh_a mesh_b) = None
            /\ generateInterlockingStructure (make_generator mesh_a mesh_b) mesh_a mesh_b
               = None).
  { intros Hsum.
    assert (Htpl : generateMicrostructure (make_generator mesh_a mesh_b) = None)
      by (by apply generateMicrostructure_None).
    split; [done |]. unfold generateInterlockingStructure.
    destruct (stamping_cells_total (make_generator mesh_a mesh_b) mesh_a mesh_b)
      as [cells ->].
    cbn [mbind option_bind]. by rewrite Htpl. }
  assert (Hsome : beam_width_sum mesh_a mesh_b <> 0 ->
            is_Some (generateMicrostructure (make_generator mesh_a mesh_b))
            /\ is_Some (generateInterlockingStructure (make_generator mesh_a mesh_b)
                          mesh_a mesh_b)).
  { intros Hsum.
    destruct (processed_pair_run mesh_a mesh_b Hsum Hcount)
      as (S_a & S_b & templates & t0 & t1 & s0 & s1 & a' & b' & _ & _ & Htpl
          & _ & _ & _ & _ & _ & Hrun & _).
    split; by eexists. }
  split; [| split].
  - split; [| intros H; apply (Hnone H)].
    intros Hrun. destruct (decide (beam_width_sum mesh_a mesh_b = 0)) as [| Hne]; [done |].
    destruct (Hsome Hne) as [_ [r Hr]]. congruence.
  - split; [| intros H; apply (Hnone H)].
    intros Hrun. destruct (decide (beam_width_sum mesh_a mesh_b = 0)) as [| Hne]; [done |].
    destruct (Hsome Hne) as [[r Hr] _]. congruence.
  - intros Ha Hb. apply Hnone. unfold beam_width_sum. rewrite Ha, Hb. done.
Qed.

(** ** Runs of the entry point that select nothing *)

Section NothingSelected.

Context `{L : Library}.
Variable volumes : list nat.
Variable meshes : gmap nat Slicer.
Hypothesis Hptr : forall i ptr, volumes !! i = Some ptr -> is_Some (meshes !! ptr).
Hypothesis Hnone : forall i j, ~ selected_in volumes meshes i j.

Lemma visit_pair_not_selected i ptr_a mesh_a j :
  volumes !! i = Some ptr_a -> meshes !! ptr_a = Some mesh_a ->
  (i < j < length volumes)%nat ->
  visit_pair volumes i ptr_a (wall_0_extruder_nr (mesh mesh_a)) j (mkRunState meshes [])
  = Some (Continue (mkRunState meshes [])).
Proof.
  intros Hi Ha [Hij Hj]. unfold visit_pair, at_index.
  destruct (lookup_lt_is_Some_2 volumes j Hj) as [ptr_b Hb]. rewrite Hb.
  destruct (Hptr j ptr_b Hb) as [mesh_b Hmb].
  cbn [mbind option_bind store]. rewrite Ha, Hmb. cbn [mbind option_bind].
  fold (pair_selected (mesh mesh_a) (mesh mesh_b)).
  destruct (pair_selected (mesh mesh_a) (mesh mesh_b)) eqn:Hsel; [| done].
  destruct (Hnone i j). by exists ptr_a, ptr_b, mesh_a, mesh_b.
Qed.

Lemma visit_mesh_not_selected i :
  (i < length volumes)%nat ->
  visit_mesh volumes i (mkRunState meshes []) = Some (Continue (mkRunState meshes [])).
Proof.
  intros Hi. unfold visit_mesh, at_index.
  destruct (lookup_lt_is_Some_2 volumes i Hi) as [ptr_a Ha]. rewrite Ha.
  destruct (Hptr i ptr_a Ha) as [mesh_a Hma].
  cbn [mbind option_bind store]. rewrite Hma. cbn [mbind option_bind].
  destruct (for_range_total (fun _ st => st = mkRunState meshes [])
              (length volumes - (i + 1)) (i + 1)
              (visit_pair volumes i ptr_a (wall_0_extruder_nr (mesh mesh_a)))
              (mkRunState meshes [])) as (r & -> & ->); [done | | done].
  intros j st Hj ->. eexists. split; [| done].
  apply visit_pair_not_selected; [done | done | lia].
Qed.

Lemma entry_point_not_selected :
  generateInterlockingStructure_volumes volumes (mkRunState meshes [])
  = Some (mkRunState meshes []).
Proof.
  unfold generateInterlockingStructure_volumes.
  destruct (for_range_total (fun _ st => st = mkRunState meshes [])
              (length volumes) 0 (visit_mesh volumes) (mkRunState meshes []))
    as (r & -> & ->); [done | | done].
  intros i st Hi ->. eexists. split; [| done].
  apply visit_mesh_not_selected. lia.
Qed.

End NothingSelected.

(** If no pair of meshes is selected, because all outer walls are on one
    extruder or because no bounding box moved out by [ignored_gap] hits
    the box of a later mesh, the entry point returns with every mesh as
    it was and has run no generator; so it does on fewer than two
    meshes. *)
Theorem entry_point_leaves_unselected_meshes_alone `{L : Library}
    (volumes : list nat) (meshes : gmap nat Slicer) :
  (forall i ptr, volumes !! i = Some ptr -> is_Some (meshes !! ptr)) ->
  ((forall i j, ~ selected_in volumes meshes i j) ->
   generateInterlockingStructure_volumes volumes (mkRunState meshes [])
   = Some (mkRunState meshes []))
  /\ ((forall i j ptr_a ptr_b mesh_a mesh_b,
         volumes !! i = Some ptr_a -> volumes !! j = Some ptr_b ->
         meshes !! ptr_a = Some mesh_a -> meshes !! ptr_b = Some mesh_b ->
         wall_0_extruder_nr (mesh mesh_a) = wall_0_extruder_nr (mesh mesh_b)) ->
      generateInterlockingStructure_volumes volumes (mkRunState meshes [])
      = Some (mkRunState meshes []))
  /\ ((length volumes < 2)%nat ->
      generateInterlockingStructure_volumes volumes (mkRunState meshes [])
      = Some (mkRunState meshes [])).
Proof.
  intros Hptr. split; [| split].
  - by apply entry_point_not_selected.
  - intros Hsame. apply entry_point_not_selected; [done |].
    intros i j (pa & pb & a & b & Hi & Hj & Ha & Hb & _ & Hsel).
    apply andb_true_iff in Hsel as [Hne%negb_true_iff%Z.eqb_neq _].
    apply Hne. exact (Hsame i j pa pb a b Hi Hj Ha Hb).
  - intros Hlen. apply entry_point_not_selected; [done |].
    intros i j (pa & pb & a & b & Hi & Hj & _ & _ & Hij & _).
    apply lookup_lt_Some in Hi, Hj. lia.
Qed.

(** ** The order of the runs *)

Section RunOrder.

Context `{L : Library}.
Variable volumes : list nat.
Variable meshes : gmap nat Slicer.

Lemma selected_b_true i j :
  (i < j)%nat ->
  selected_b volumes meshes i j = true <-> selected_in volumes meshes i j.
Proof.
  intros Hij. unfold selected_b, selected_in. split.
  - destruct (volumes !! i) as [pa |] eqn:Hi; [| done].
    destruct (volumes !! j) as [pb |] eqn:Hj; [| done].
    destruct (meshes !! pa) as [a |] eqn:Ha; [| done].
    destruct (meshes !! pb) as [b |] eqn:Hb; [| done].
    intros Hsel. by exists pa, pb, a, b.
  - intros (pa & pb & a & b & -> & -> & -> & -> & _ & Hsel). done.
Qed.

Lemma visit_pair_record i ptr_a extruder_nr_a j st c :
  volumes !! i = Some ptr_a -> (i < j)%nat ->
  same_shapes meshes (store st) ->
  (forall mesh_a, meshes !! ptr_a = Some mesh_a ->
                  extruder_nr_a = wall_0_extruder_nr (mesh mesh_a)) ->
  visit_pair volumes i ptr_a extruder_nr_a j st = Some c ->
  exists st',
    c = Continue st'
    /\ same_shapes meshes (store st')
    /\ processed st'
       = processed st ++ (if selected_b volumes meshes i j then [(i, j)] else []).
Proof.
  intros Hi Hij Hshape Hext Hrun.
  destruct (visit_pair_spec volumes meshes i ptr_a extruder_nr_a j st c
              Hi Hij Hshape Hext Hrun)
    as (st' & -> & Hshape' & [(Hsel & Hproc & _) | (Hnsel & ->)]).
  - exists st'. split; [done |]. split; [done |].
    apply (selected_b_true i j Hij) in Hsel. by rewrite Hsel.
  - exists st. split; [done |]. split; [done |].
    destruct (selected_b volumes meshes i j) eqn:Hsel.
    + by apply (selected_b_true i j Hij) in Hsel.
    + by rewrite app_nil_r.
Qed.

Lemma visit_mesh_record i st c :
  same_shapes meshes (store st) ->
  visit_mesh volumes i st = Some c ->
  exists st',
    c = Continue st'
    /\ same_shapes meshes (store st')
    /\ processed st'
       = processed st ++ selected_pairs_of volumes meshes i (length volumes - (i + 1)).
Proof.
  intros Hshape. unfold visit_mesh, at_index.
  destruct (volumes !! i) as [ptr_a |] eqn:Hptr; cbn [mbind option_bind]; [| done].
  destruct (store st !! ptr_a) as [ma |] eqn:Hma; cbn [mbind option_bind]; [| done].
  destruct (for_range _ _ _ st) as [st' |] eqn:Hloop; cbn [mbind option_bind]; [| done].
  intros [= <-]. exists st'. split; [done |].
  assert (Hext : forall mesh_a, meshes !! ptr_a = Some mesh_a ->
            wall_0_extruder_nr (mesh ma) = wall_0_extruder_nr (mesh mesh_a)).
  { intros a0 Ha0.
    destruct (same_shapes_lookup _ _ _ _ Hshape Hma) as (a1 & Ha1 & [-> _]).
    congruence. }
  destruct (for_range_inv
              (fun k s => same_shapes meshes (store s)
                          /\ processed s
                             = processed st
                               ++ selected_pairs_of volumes meshes i (k - (i + 1)))
              (fun _ => False) _ _ _ _ _ Hloop) as [[Hs Hp] | []].
  - split; [done |]. replace (i + 1 - (i + 1))%nat with 0%nat by lia.
    unfold selected_pairs_of. simpl. by rewrite app_nil_r.
  - intros k s c' Hk [Hs Hp] Hbody.
    destruct (visit_pair_record i ptr_a _ k s c' Hptr ltac:(lia) Hs Hext Hbody)
      as (s' & -> & Hs' & Hp').
    split; [done |]. rewrite Hp', Hp, <- app_assoc. f_equal.
    replace (Datatypes.S k - (i + 1))%nat with (Datatypes.S (k - (i + 1))) by lia.
    unfold selected_pairs_of. rewrite seq_S, flat_map_app. cbn [flat_map].
    rewrite app_nil_r. by replace (i + 1 + (k - (i + 1)))%nat with k by lia.
  - split; [done |]. rewrite Hp. do 2 f_equal. lia.
Qed.

Lemma entry_point_record st' :
  generateInterlockingStructure_volumes volumes (mkRunState meshes []) = Some st' ->
  processed st' = selected_pairs volumes meshes.
Proof.
  unfold generateInterlockingStructure_volumes. intros Hrun.
  destruct (for_range_inv
              (fun k s => same_shapes meshes (store s)
                          /\ processed s
                             = flat_map (fun i => selected_pairs_of volumes meshes i
                                                     (length volumes - (i + 1)))
                                 (seq 0 k))
              (fun _ => False) _ _ _ _ _ Hrun) as [[_ Hp] | []]; [| | done].
  - split; [apply same_shapes_refl | done].
  - intros i s c _ [Hs Hp] Hbody.
    destruct (visit_mesh_record i s c Hs Hbody) as (s' & -> & Hs' & Hp').
    split; [done |]. rewrite Hp', Hp, seq_S, flat_map_app. cbn [flat_map].
    by rewrite app_nil_r.
Qed.

End RunOrder.

(** The entry point is the generator run on the selected index pairs in
    the order of its two loops, by the index of the first mesh and, for
    one first mesh, by the index of the second: the meshes it returns
    are the given meshes after these runs, each run reading the two
    meshes as the runs before it left them.  A mesh that is in several
    selected pairs is rewritten by the earlier pair before the later
    pair reads it. *)
Theorem entry_point_runs_pairs_in_loop_order `{L : Library}
    (volumes : list nat) (meshes : gmap nat Slicer) :
  volumes_ok volumes meshes ->
  exists result,
    generateInterlockingStructure_volumes volumes (mkRunState meshes [])
    = Some (mkRunState result (selected_pairs volumes meshes))
    /\ run_pairs volumes meshes (selected_pairs volumes meshes) = Some result.
Proof.
  intros Hok. destruct (entry_point_total volumes meshes Hok) as [[result record] Hrun].
  pose proof (entry_point_record volumes meshes _ Hrun) as Hrecord.
  pose proof (entry_point_sequence volumes meshes _ Hrun) as Hseq.
  cbn [processed store] in Hrecord, Hseq. subst record.
  by exists result.
Qed.

(** ** Beams more than two layers high *)

Lemma for_range_guarded_rewrite_slots_None {A : Type} (f : nat -> A -> option A)
    count first (l : list A) k :
  (first <= k < first + count)%nat -> (k < length l)%nat ->
  (forall x, f k x = None) ->
  for_range count first (guarded_rewrite_slot f) l = None.
Proof.
  revert first l. induction count as [| n IH]; intros first l Hk Hlen Hf; [lia |].
  cbn [for_range]. unfold guarded_rewrite_slot at 1.
  rewrite decide_False by lia. unfold rewrite_slot, at_index.
  destruct (lookup_lt_is_Some_2 l first ltac:(lia)) as [x ->]. cbn [mbind option_bind].
  destruct (decide (first = k)) as [-> | Hne]; [by rewrite Hf |].
  destruct (f first x) as [y |]; cbn [mbind option_bind]; [| done].
  rewrite set_index_Some by lia. cbn [mbind option_bind].
  apply IH; [lia | by rewrite length_insert | done].
Qed.

Section TallerBeams.

Context `{L : Library}.
Variable gen : InterlockingGenerator.

Lemma stamp_cells_length templates max_layer_count cells s0 s1 t0 t1 :
  stamp_cells gen templates max_layer_count cells (s0, s1) = Some (t0, t1) ->
  length t0 = length s0 /\ length t1 = length s1.
Proof.
  unfold stamp_cells. intros Hrun.
  apply (for_each_inv
           (fun st : list Polygons * list Polygons =>
              length st.1 = length s0 /\ length st.2 = length s1) _ _ _ _ Hrun);
    [done |].
  intros g [u0 u1] [v0 v1] _ [H0 H1]. cbn [fst snd] in *.
  destruct (toLowerCorner (vu gen) g) as [c |]; cbn [mbind option_bind]; [| done].
  destruct (stamp_beams gen _ _ _ 0 _ _ u0) as [w0 |] eqn:E0; cbn [mbind option_bind];
    [| done].
  destruct (stamp_beams gen _ _ _ 1 _ _ u1) as [w1 |] eqn:E1; cbn [mbind option_bind];
    [| done].
  intros [= <- <-].
  apply stamp_beams_length in E0, E1. split; congruence.
Qed.

Lemma rewrite_layers_out_of_range max_layer_count own other m :
  (0 < length (layers m))%nat ->
  (length (layers m) <= max_layer_count)%nat ->
  0 < wrapu64 (beam_layer_count gen) ->
  (length own
   <= Z.to_nat (Z.of_nat (length (layers m) - 1) / wrapu64 (beam_layer_count gen)))%nat ->
  rewrite_layers gen max_layer_count own other m = None.
Proof.
  intros Hpos Hmax Hn Hown. unfold rewrite_layers.
  rewrite (for_range_ext _ _ _ (guarded_rewrite_slot (rewritten_layer gen own other)))
    by (intros; apply rewrite_layers_body).
  rewrite (for_range_guarded_rewrite_slots_None _ _ _ _ (length (layers m) - 1));
    [done | lia | lia |].
  intros x. unfold rewritten_layer, udiv.
  destruct (Z.eqb_spec (wrapu64 (beam_layer_count gen)) 0); [lia |].
  cbn [mbind option_bind]. by rewrite (lookup_ge_None_2 own).
Qed.

End TallerBeams.

(** The vectors of structures have [(max_layer_count + 1) /
    beam_layer_count] bands, which is enough for beams of one or two
    layers.  With beams of three layers or more and a taller mesh whose
    layer count leaves a remainder between 1 and [beam_layer_count - 2],
    the band of the top layer is outside the vectors:
    [applyMicrostructureToOutlines] reads past their end, whatever the
    cells, templates and regions are. *)
Theorem bands_too_few_for_beams_above_two_layers `{L : Library}
    (gen : InterlockingGenerator) (cells : gset GridPoint3)
    (templates : list (list Polygons)) (layer_regions : list Polygons)
    (mesh_a mesh_b : Slicer) :
  let max_layer_count := (length (layers mesh_a) `max` length (layers mesh_b))%nat in
  3 <= beam_layer_count gen < 2 ^ 63 ->
  1 <= Z.of_nat max_layer_count mod beam_layer_count gen <= beam_layer_count gen - 2 ->
  applyMicrostructureToOutlines gen cells templates layer_regions mesh_a mesh_b = None.
Proof.
  intros max_layer_count Hn Hrem.
  assert (Hw : wrapu64 (beam_layer_count gen) = beam_layer_count gen).
  { unfold wrapu64. apply Z.mod_small. lia. }
  set (n := beam_layer_count gen) in *.
  assert (Hmaxpos : (0 < max_layer_count)%nat).
  { destruct max_layer_count; [| lia]. rewrite Z.mod_0_l in Hrem; lia. }
  assert (Hidx : Z.to_nat (Z.of_nat (max_layer_count - 1) / n)
                 = Z.to_nat ((Z.of_nat max_layer_count + 1) / n)).
  { f_equal. rewrite Nat2Z.inj_sub by lia. change (Z.of_nat 1) with 1.
    pose proof (Z.div_mod (Z.of_nat max_layer_count) n ltac:(lia)) as Hd.
    set (q := Z.of_nat max_layer_count / n) in *.
    set (r := Z.of_nat max_layer_count mod n) in *.
    transitivity q.
    - symmetry. apply (Z.div_unique _ _ _ (r - 1)); lia.
    - apply (Z.div_unique _ _ _ (r + 1)); lia. }
  unfold applyMicrostructureToOutlines, band_structures, stamped_structures.
  fold max_layer_count. fold n. rewrite Hw. unfold udiv.
  destruct (Z.eqb_spec n 0); [lia |]. cbn [mbind option_bind].
  set (bands := Z.to_nat ((Z.of_nat max_layer_count + 1) / n)) in *.
  destruct (stamp_cells _ _ _ _ _) as [[t0 t1] |] eqn:Hstamp; cbn [mbind option_bind];
    [| done].
  apply stamp_cells_length in Hstamp as [Hl0 Hl1]. rewrite length_replicate in Hl0, Hl1.
  cbn [fst snd].
  destruct (finish_structure gen layer_regions t0) as [s0 |] eqn:Hf0;
    cbn [mbind option_bind]; [| done].
  destruct (finish_structure gen layer_regions t1) as [s1 |] eqn:Hf1;
    cbn [mbind option_bind]; [| done].
  apply finish_structure_lookup in Hf0 as [Hs0 _].
  apply finish_structure_lookup in Hf1 as [Hs1 _].
  cbn [fst snd].
  destruct (decide (length (layers mesh_a) = max_layer_count)) as [Ea | Ea].
  - rewrite (rewrite_layers_out_of_range gen max_layer_count s0 s1 mesh_a);
      [done | lia | lia | fold n; lia |].
    fold n. rewrite Hw, Ea, Hidx. fold bands. lia.
  - assert (Eb : length (layers mesh_b) = max_layer_count) by lia.
    destruct (rewrite_layers gen max_layer_count s0 s1 mesh_a); cbn [mbind option_bind];
      [| done].
    rewrite (rewrite_layers_out_of_range gen max_layer_count s1 s0 mesh_b);
      [done | lia | lia | fold n; lia |].
    fold n. rewrite Hw, Eb, Hidx. fold bands. lia.
Qed.

(** ** The rewritten outlines in closed form *)

(** On a pair of the entry point whose contact cells have heights
    between -2^61 and 2^30, every layer [ℓ] of a mesh ends as
    (old polygons ∪ own beams) − other beams, where the beams of a mesh
    are the templates that the contact cells of height [ℓ / 4] stamp for
    that mesh into band [ℓ / 2], united, clipped with the layer region
    whose index is the number of the band, and rotated back. *)
Theorem rewritten_outlines_in_closed_form `{L : Library} (mesh_a mesh_b : Slicer) :
  beam_width_sum mesh_a mesh_b <> 0 ->
  layer_count_ok mesh_a mesh_b ->
  let gen := make_generator mesh_a mesh_b in
  let max_layer_count := (length (layers mesh_a) `max` length (layers mesh_b))%nat in
  let beams := fun cells templates region mesh_idx band =>
    applyMatrix
      (intersection region
         (unionPolygons_self
            (stamped_band gen templates mesh_idx (elements cells) band)))
      (PointMatrix_inverse (rotation gen)) in
  exists cells templates mesh_a' mesh_b',
    stamping_cells gen mesh_a mesh_b = Some cells
    /\ generateMicrostructure gen = Some templates
    /\ generateInterlockingStructure gen mesh_a mesh_b = Some (mesh_a', mesh_b')
    /\ (set_Forall cell_height_ok cells ->
        (forall layer_nr layer, layers mesh_a !! layer_nr = Some layer ->
           exists region,
             computeLayerRegions gen mesh_a mesh_b !! (layer_nr / 2)%nat = Some region
             /\ polygons <$> layers mesh_a' !! layer_nr
                = Some (difference
                          (unionPolygons (polygons layer)
                             (beams cells templates region 0%nat (layer_nr / 2)%nat))
                          (beams cells templates region 1%nat (layer_nr / 2)%nat)))
        /\ (forall layer_nr layer, layers mesh_b !! layer_nr = Some layer ->
              exists region,
                computeLayerRegions gen mesh_a mesh_b !! (layer_nr / 2)%nat = Some region
                /\ polygons <$> layers mesh_b' !! layer_nr
                   = Some (difference
                             (unionPolygons (polygons layer)
                                (beams cells templates region 1%nat (layer_nr / 2)%nat))
                             (beams cells templates region 0%nat (layer_nr / 2)%nat)))).
Proof.
  intros Hsum Hcount gen max_layer_count beams. subst gen.
  set (gen := make_generator mesh_a mesh_b) in *.
  destruct (processed_pair_run mesh_a mesh_b Hsum Hcount)
    as (S_a & S_b & templates & t0 & t1 & s0 & s1 & a' & b' & _ & Hcells & Htpl
        & Ht & _ & _ & Hk0 & Hk1 & Hrun & _ & _ & Hra & Hrb).
  destruct (generateMicrostructure_Some gen Hsum (beam_width_sum_even mesh_a mesh_b))
    as (templates' & Htpl' & Hok).
  pose proof (eq_trans (eq_sym Htpl') Htpl) as E. injection E as ->.
  exists (S_a ∩ S_b), templates, a', b'.
  split; [done |]. split; [done |]. split; [done |].
  intros Hheights.
  assert (Hband : forall (m : Slicer) layer_nr layer,
            (length (layers m) <= max_layer_count)%nat ->
            layers m !! layer_nr = Some layer ->
            Z.to_nat (Z.of_nat layer_nr / 2) = (layer_nr / 2)%nat
            /\ (layer_nr / 2 < band_count max_layer_count)%nat).
  { intros m k layer Hm Hk. apply lookup_lt_Some in Hk.
    assert (E : Z.to_nat (Z.of_nat k / 2) = (k / 2)%nat).
    { change 2 with (Z.of_nat 2). rewrite <- Nat2Z.inj_div. apply Nat2Z.id. }
    split; [done |]. rewrite <- E.
    apply (band_of_layer_lt max_layer_count (Z.of_nat k)). lia. }
  assert (Hfinished : forall band,
            (band < band_count max_layer_count)%nat ->
            exists region,
              computeLayerRegions gen mesh_a mesh_b !! band = Some region
              /\ s0 !! band = Some (beams (S_a ∩ S_b) templates region 0%nat band)
              /\ s1 !! band = Some (beams (S_a ∩ S_b) templates region 1%nat band)).
  { intros band Hlt.
    destruct (entry_stamped_bands mesh_a mesh_b (S_a ∩ S_b) templates t0 t1 Hcount Hok
                Ht Hheights band Hlt) as [H0 H1].
    destruct (lookup_lt_is_Some_2 (computeLayerRegions gen mesh_a mesh_b) band)
      as [region Hregion].
    { rewrite length_computeLayerRegions.
      pose proof (band_count_le max_layer_count). fold max_layer_count. lia. }
    exists region. split; [done |].
    rewrite Hk0, Hk1, H0, H1. cbn [mbind option_bind]. unfold finished_band.
    unfold gen in Hregion |- *.
    change (air_filtering (make_generator mesh_a mesh_b)) with false. cbv iota.
    rewrite Hregion. done. }
  split.
  - intros k layer Hk.
    destruct (Hband mesh_a k layer ltac:(unfold max_layer_count; lia) Hk) as [E Hlt].
    destruct (Hfinished _ Hlt) as (region & Hregion & H0 & H1).
    destruct (Hra k layer Hk) as (own & other & Hown & Hother & Hlayer).
    rewrite E in Hown, Hother.
    exists region. split; [done |]. rewrite Hlayer. cbn [fmap option_fmap option_map].
    unfold set_polygons, Spec.rewritten_polygons. cbn [polygons]. congruence.
  - intros k layer Hk.
    destruct (Hband mesh_b k layer ltac:(unfold max_layer_count; lia) Hk) as [E Hlt].
    destruct (Hfinished _ Hlt) as (region & Hregion & H0 & H1).
    destruct (Hrb k layer Hk) as (own & other & Hown & Hother & Hlayer).
    rewrite E in Hown, Hother.
    exists region. split; [done |]. rewrite Hlayer. cbn [fmap option_fmap option_map].
    unfold set_polygons, Spec.rewritten_polygons. cbn [polygons]. congruence.
Qed.

(** ** The entry point as a sequence of runs *)

(** The meshes the entry point returns are the meshes it was given after
    one run of the generator for every pair of its record, in the order
    of the record: each run reads the two meshes as the runs before it
    left them and writes both back, and nothing else changes a mesh. *)
Theorem entry_point_is_the_sequence_of_its_runs `{L : Library}
    (volumes : list nat) (meshes : gmap nat Slicer) :
  volumes_ok volumes meshes ->
  exists st',
    generateInterlockingStructure_volumes volumes (mkRunState meshes []) = Some st'
    /\ run_pairs volumes meshes (processed st') = Some (store st')
    /\ (processed st' = [] -> store st' = meshes).
Proof.
  intros Hok. destruct (entry_point_total volumes meshes Hok) as [st' Hrun].
  exists st'. split; [done |].
  pose proof (entry_point_sequence volumes meshes st' Hrun) as Hseq.
  split; [done |]. intros Hnil. rewrite Hnil in Hseq. by injection Hseq as <-.
Qed.

(** ** The further properties on concrete meshes *)

Module FurtherExamples.

Import Boxes.

Lemma beams_are_two_wall_lines_wide_witness :
  exists T00 T01 T10 T11,
    generateMicrostructure (make_generator sheared_a sheared_b)
    = Some [[T00; T01]; [T10; T11]]
    /\ (forall x y, rectangles_cover T00 x y <-> in_box 0 0 200 400 x y)
    /\ (forall x y, rectangles_cover T11 x y <-> in_box 0 200 400 400 x y).
Proof.
  destruct (beams_are_two_wall_lines_wide sheared_a sheared_b
              ltac:(by vm_compute) ltac:(by vm_compute) ltac:(by vm_compute))
    as (T00 & T01 & T10 & T11 & Htpl & _ & _ & H00 & _ & _ & H11).
  exists T00, T01, T10, T11. split; [exact Htpl |]. split; [exact H00 | exact H11].
Defined.

Lemma stamped_templates_tile_the_cell_witness :
  exists c poly,
    toLowerCorner (vu (make_generator sheared_a sheared_b)) (mkPoint3 (-1) 2 0) = Some c
    /\ toPolygon (vu (make_generator sheared_a sheared_b)) (mkPoint3 (-1) 2 0) = Some poly.
Proof.
  destruct (stamped_templates_tile_the_cell sheared_a sheared_b (mkPoint3 (-1) 2 0)
              ltac:(by vm_compute) ltac:(by vm_compute) ltac:(by vm_compute)
              ltac:(by vm_compute) ltac:(by vm_compute))
    as (c & poly & T00 & T01 & T10 & T11 & Hc & Hp & _).
  exists c, poly. split; [exact Hc | exact Hp].
Defined.

Lemma sheared_cells_heights cells :
  stamping_cells (make_generator sheared_a sheared_b) sheared_a sheared_b = Some cells ->
  set_Forall cell_height_ok cells.
Proof.
  assert (Hcheck :
    match stamping_cells (make_generator sheared_a sheared_b) sheared_a sheared_b with
    | Some cs =>
        forallb (fun g => (- 2 ^ 61 <=? p3z g) && (p3z g <? 2 ^ 30)) (elements cs)
    | None => false
    end = true) by (vm_compute; reflexivity).
  intros Hcells. rewrite Hcells in Hcheck.
  intros g Hg%elem_of_elements.
  apply Is_true_true_2, forallb_True in Hcheck.
  apply (proj1 (Forall_forall _ _) Hcheck) in Hg.
  apply Is_true_true_1, andb_true_iff in Hg as [Hlo%Z.leb_le Hhi%Z.ltb_lt].
  by split.
Qed.

Lemma stamping_alternates_the_templates_witness :
  exists cells templates t0 t1,
    stamping_cells (make_generator sheared_a sheared_b) sheared_a sheared_b = Some cells
    /\ generateMicrostructure (make_generator sheared_a sheared_b) = Some templates
    /\ stamped_structures (make_generator sheared_a sheared_b) cells templates
         sheared_a sheared_b = Some (t0, t1)
    /\ t0 !! 0%nat
       = Some (stamped_band (make_generator sheared_a sheared_b) templates 0
                 (elements cells) 0).
Proof.
  destruct (stamping_alternates_the_templates sheared_a sheared_b
              ltac:(by vm_compute) ltac:(by vm_compute))
    as (cells & templates & t0 & t1 & Hcells & Htpl & Hrun & _ & _ & Hbands).
  exists cells, templates, t0, t1.
  split; [exact Hcells |]. split; [exact Htpl |]. split; [exact Hrun |].
  assert (Hcount : band_count (length (layers sheared_a) `max` length (layers sheared_b))
                   = 1%nat) by reflexivity.
  exact (proj1 (Hbands (sheared_cells_heights cells Hcells) 0%nat
                  ltac:(rewrite Hcount; lia))).
Defined.

Lemma generator_undefined_iff_beam_widths_sum_to_zero_witness :
  generateInterlockingStructure (make_generator zero_width_a zero_width_b)
    zero_width_a zero_width_b = None.
Proof.
  destruct (generator_undefined_iff_beam_widths_sum_to_zero zero_width_a zero_width_b
              ltac:(by vm_compute)) as (_ & _ & Hzero).
  apply Hzero; reflexivity.
Defined.

Lemma same_extruder_blocks_there i ptr :
  [0; 1]%nat !! i = Some ptr -> is_Some (same_extruder_blocks !! ptr).
Proof.
  destruct i as [| [| i]]; intros [= <-]; unfold same_extruder_blocks;
    simplify_map_eq; by eexists.
Qed.

Lemma same_extruder_blocks_same i j ptr_a ptr_b (mesh_a mesh_b : Slicer) :
  [0; 1]%nat !! i = Some ptr_a -> [0; 1]%nat !! j = Some ptr_b ->
  same_extruder_blocks !! ptr_a = Some mesh_a ->
  same_extruder_blocks !! ptr_b = Some mesh_b ->
  wall_0_extruder_nr (mesh mesh_a) = wall_0_extruder_nr (mesh mesh_b).
Proof.
  destruct i as [| [| i]], j as [| [| j]]; try done;
    intros [= <-] [= <-]; unfold same_extruder_blocks; intros Ha Hb;
    simplify_map_eq; done.
Qed.

Lemma entry_point_leaves_unselected_meshes_alone_witness :
  generateInterlockingStructure_volumes [0; 1]%nat (mkRunState same_extruder_blocks [])
  = Some (mkRunState same_extruder_blocks []).
Proof.
  destruct (entry_point_leaves_unselected_meshes_alone [0; 1]%nat same_extruder_blocks
              same_extruder_blocks_there) as (_ & Hsame & _).
  apply Hsame. exact same_extruder_blocks_same.
Defined.

Lemma touching_blocks_ok : volumes_ok [0; 1; 2]%nat touching_blocks.
Proof.
  split.
  - intros [| [| [| i]]] ptr [= <-]; unfold touching_blocks; simplify_map_eq; by eexists.
  - intros [| [| [| i]]] [| [| [| j]]] pa pb a b Hi Hj; try done;
      injection Hi as <-; injection Hj as <-; unfold touching_blocks; intros Ha Hb;
      simplify_map_eq; intros Hsel; try (by vm_compute in Hsel);
      split; by vm_compute.
Qed.

Lemma entry_point_runs_pairs_in_loop_order_witness :
  exists result,
    generateInterlockingStructure_volumes [0; 1; 2]%nat (mkRunState touching_blocks [])
    = Some (mkRunState result [(0, 1); (1, 2)]%nat)
    /\ run_pairs [0; 1; 2]%nat touching_blocks [(0, 1); (1, 2)]%nat = Some result.
Proof.
  assert (E : selected_pairs [0; 1; 2]%nat touching_blocks = [(0, 1); (1, 2)]%nat)
    by (vm_compute; reflexivity).
  rewrite <- E.
  exact (entry_point_runs_pairs_in_loop_order [0; 1; 2]%nat touching_blocks
           touching_blocks_ok).
Defined.

Lemma bands_too_few_for_beams_above_two_layers_witness :
  applyMicrostructureToOutlines three_layer_beams ∅ []
    (computeLayerRegions three_layer_beams notched_a notched_b) notched_a notched_b
  = None.
Proof.
  apply (bands_too_few_for_beams_above_two_layers three_layer_beams ∅ []
           (computeLayerRegions three_layer_beams notched_a notched_b)
           notched_a notched_b); by vm_compute.
Defined.

Lemma rewritten_outlines_in_closed_form_witness :
  exists cells templates mesh_a' mesh_b' region,
    stamping_cells (make_generator sheared_a sheared_b) sheared_a sheared_b = Some cells
    /\ generateMicrostructure (make_generator sheared_a sheared_b) = Some templates
    /\ generateInterlockingStructure (make_generator sheared_a sheared_b)
         sheared_a sheared_b = Some (mesh_a', mesh_b')
    /\ computeLayerRegions (make_generator sheared_a sheared_b) sheared_a sheared_b
       !! 0%nat = Some region
    /\ polygons <$> layers mesh_a' !! 1%nat
       = Some (difference
                 (unionPolygons [path_of (200, 0, 1400, 400)]
                    (applyMatrix
                       (intersection region
                          (unionPolygons_self
                             (stamped_band (make_generator sheared_a sheared_b)
                                templates 0 (elements cells) 0)))
                       (PointMatrix_inverse
                          (rotation (make_generator sheared_a sheared_b)))))
                 (applyMatrix
                    (intersection region
                       (unionPolygons_self
                          (stamped_band (make_generator sheared_a sheared_b)
                             templates 1 (elements cells) 0)))
                    (PointMatrix_inverse
                       (rotation (make_generator sheared_a sheared_b))))).
Proof.
  destruct (rewritten_outlines_in_closed_form sheared_a sheared_b
              ltac:(by vm_compute) ltac:(by vm_compute))
    as (cells & templates & a' & b' & Hcells & Htpl & Hrun & Hlayers).
  destruct (Hlayers (sheared_cells_heights cells Hcells)) as [Ha _].
  destruct (Ha 1%nat (box_layer 1 (200, 0, 1400, 400)) eq_refl)
    as (region & Hregion & Hlayer).
  exists cells, templates, a', b', region.
  split; [exact Hcells |]. split; [exact Htpl |]. split; [exact Hrun |].
  split; [exact Hregion | exact Hlayer].
Defined.

Lemma entry_point_is_the_sequence_of_its_runs_witness :
  exists st',
    generateInterlockingStructure_volumes [0; 1; 2]%nat (mkRunState touching_blocks [])
    = Some st'
    /\ run_pairs [0; 1; 2]%nat touching_blocks (processed st') = Some (store st').
Proof.
  destruct (entry_point_is_the_sequence_of_its_runs [0; 1; 2]%nat touching_blocks
              touching_blocks_ok) as (st' & Hrun & Hseq & _).
  exists st'. split; [exact Hrun | exact Hseq].
Defined.

End FurtherExamples.
